(** * pdf-extractor: the registry PDF parser ([@/lib/pdf-parser])

    A shallow embedding of the TypeScript parser (PDF text -> [RegistryData]),
    of its demo masking, of the [parseAndProcessPDF] entry point and of the
    upload handlers that call it ([app/api/parse/route.ts]), together with
    the properties the specification states about them and further
    properties read off the code.

    JavaScript strings are sequences of UTF-16 code units; every regular
    expression of the source is written as a term of [regex] and run by a
    backtracking matcher that follows the ECMAScript matching order
    (alternatives left to right, greedy and lazy quantifiers, captures,
    lookahead, the empty-iteration check of quantifiers). *)

From Stdlib Require Import String Ascii NArith ZArith Bool Arith Lia List.
Import ListNotations.

Set Implicit Arguments.

(** ** Strings as UTF-16 code units *)

Definition str := list N.

Module Utf.

  (** Code units of a code point (a surrogate pair above the BMP). *)
Definition units (cp : N) : str :=
    if (cp <? 65536)%N then [cp]
    else [(55296 + (cp - 65536) / 1024)%N; (56320 + (cp - 65536) mod 1024)%N].

  (** UTF-8 decoding of the bytes of a source literal. *)
Fixpoint decode (bs : list N) (need : nat) (acc : N) : str :=
    match bs with
    | [] => []
    | b :: t =>
      match need with
      | S n =>
        let acc' := (acc * 64 + b mod 64)%N in
        match n with
        | O => units acc' ++ decode t 0 0%N
        | S _ => decode t n acc'
        end
      | O =>
        if (b <? 128)%N then b :: decode t 0 0%N
        else if (b <? 224)%N then decode t 1 (b mod 32)%N
        else if (b <? 240)%N then decode t 2 (b mod 16)%N
        else decode t 3 (b mod 8)%N
      end
    end.

Fixpoint bytes (s : string) : list N :=
    match s with
    | EmptyString => []
    | String a t => N_of_ascii a :: bytes t
    end.

End Utf.

(** [u "갑구"] is the JavaScript string literal ['갑구']. *)
Definition u (s : string) : str := Utf.decode (Utf.bytes s) 0 0%N.

Definition NL : N := 10.
Definition one (s : string) : N := hd 0%N (u s).

Fixpoint startsWith (p s : str) : bool :=
  match p, s with
  | [], _ => true
  | _ :: _, [] => false
  | x :: p', y :: s' => (x =? y)%N && startsWith p' s'
  end.

(** [String.prototype.includes] *)
Fixpoint includes (s p : str) : bool :=
  startsWith p s || match s with [] => false | _ :: t => includes t p end.

(** ** Character classes *)

Definition isDigit (c : N) : bool := ((48 <=? c) && (c <=? 57))%N.

(** [\s]: the ECMAScript WhiteSpace and LineTerminator code units. *)
Definition isSpace (c : N) : bool :=
  (((9 <=? c) && (c <=? 13)) || (c =? 32) || (c =? 160) || (c =? 5760)
   || ((8192 <=? c) && (c <=? 8202)) || (c =? 8232) || (c =? 8233)
   || (c =? 8239) || (c =? 8287) || (c =? 12288) || (c =? 65279))%N.

Definition isLineTerminator (c : N) : bool :=
  ((c =? 10) || (c =? 13) || (c =? 8232) || (c =? 8233))%N.

Inductive atom :=
| Ch (c : N)      (* a literal code unit *)
| Dig             (* \d *)
| Spc             (* \s *)
| NonSpc          (* \S *).

Definition atom_mem (a : atom) (c : N) : bool :=
  match a with
  | Ch x => (c =? x)%N
  | Dig => isDigit c
  | Spc => isSpace c
  | NonSpc => negb (isSpace c)
  end.

Inductive cset :=
| OneOf (l : list atom)     (* [...] *)
| NoneOf (l : list atom)    (* [^...] *)
| Dot                       (* . without the s flag *)
| DotAll                    (* . with the s flag *).

Definition cmem (cs : cset) (c : N) : bool :=
  match cs with
  | OneOf l => existsb (fun a => atom_mem a c) l
  | NoneOf l => negb (existsb (fun a => atom_mem a c) l)
  | Dot => negb (isLineTerminator c)
  | DotAll => true
  end.

(** ** Regular expressions *)

Inductive regex :=
| Eps
| Chr (cs : cset)
| Seq (r1 r2 : regex)
| Alt (r1 r2 : regex)
| Star (greedy : bool) (r : regex)
| Group (i : nat) (r : regex)      (* the i-th capturing group *)
| Look (r : regex)                 (* (?=r) *)
| Eoi                              (* $ without the m flag *).

Definition chr (c : N) : regex := Chr (OneOf [Ch c]).
Definition lit (s : str) : regex := fold_right (fun c r => Seq (chr c) r) Eps s.
Definition txt (s : string) : regex := lit (u s).
Definition seqs (rs : list regex) : regex := fold_right Seq Eps rs.
Fixpoint alts (rs : list regex) : regex :=
  match rs with
  | [] => Eps
  | [r] => r
  | r :: rs' => Alt r (alts rs')
  end.
Definition plus (r : regex) : regex := Seq r (Star true r).        (* r+ *)
Definition plus_lazy (r : regex) : regex := Seq r (Star false r).  (* r+? *)
Definition opt (r : regex) : regex := Alt r Eps.                   (* r? *)
Definition many (r : regex) : regex := Star true r.                (* r* *)
Definition few (r : regex) : regex := Star false r.                (* r*? *)
Fixpoint rep (n : nat) (r : regex) : regex :=                      (* r{n} *)
  match n with O => Eps | S n' => Seq r (rep n' r) end.

Definition dg : regex := Chr (OneOf [Dig]).     (* \d *)
Definition ws : regex := Chr (OneOf [Spc]).     (* \s *)
Definition anyc : regex := Chr (OneOf [Spc; NonSpc]).  (* [\s\S] *)

(** ** The backtracking matcher *)

Definition caps := nat -> option str.
Definition no_caps : caps := fun _ => None.
Definition set_cap (i : nat) (v : str) (c : caps) : caps :=
  fun j => if Nat.eqb j i then Some v else c j.

(** The text between position [s] and the later position [s']. *)
Definition consumed (s s' : str) : str := firstn (length s - length s') s.

(** First alternative, then on failure the second (evaluated only then). *)
Notation "a <|> b" := (match a with Some x => Some x | None => b end)
  (at level 60, right associativity, only parsing).

Section StarLoop.
Context {R : Type}.
Variable greedy : bool.
Variable body : str -> caps -> (str -> caps -> option R) -> option R.
Variable k : str -> caps -> option R.

  (** RepeatMatcher with min = 0, max = infinity: an iteration that consumes
      nothing is rejected, so [S (length s)] rounds of fuel are never used up. *)
Fixpoint star_loop (fuel : nat) (s : str) (c : caps) : option R :=
    match fuel with
    | O => None
    | S f =>
      if greedy then
        body s c (fun s' c' =>
          if length s' <? length s then star_loop f s' c' else None)
        <|> k s c
      else
        k s c
        <|> body s c (fun s' c' =>
              if length s' <? length s then star_loop f s' c' else None)
    end.
End StarLoop.

Fixpoint rmatch (r : regex) {R : Type} (s : str) (c : caps)
    (k : str -> caps -> option R) {struct r} : option R :=
  match r with
  | Eps => k s c
  | Chr cs =>
    match s with
    | x :: s' => if cmem cs x then k s' c else None
    | [] => None
    end
  | Seq r1 r2 => rmatch r1 s c (fun s' c' => rmatch r2 s' c' k)
  | Alt r1 r2 => rmatch r1 s c k <|> rmatch r2 s c k
  | Star g r1 =>
    star_loop g (fun s0 c0 k0 => rmatch r1 s0 c0 k0) k (S (length s)) s c
  | Group i r1 =>
    rmatch r1 s c (fun s' c' => k s' (set_cap i (consumed s s') c'))
  | Look r1 =>
    match rmatch r1 s c (fun _ c' => Some c') with
    | Some c' => k s c'
    | None => None
    end
  | Eoi => match s with [] => k s c | _ :: _ => None end
  end.

(** A successful match: [match[0]], the captures, and the input that follows. *)
Record rx_match := {
  m_text : str;
  m_caps : caps;
  m_rest : str
}.

Definition grp (m : rx_match) (i : nat) : option str := m_caps m i.

Definition match_at (r : regex) (s : str) : option rx_match :=
  rmatch r s no_caps
    (fun s' c => Some {| m_text := consumed s s'; m_caps := c; m_rest := s' |}).

(** [text.match(r)] for a regex without the g flag, and one step of
    [r.exec(text)] from [lastIndex]: the leftmost position where [r] matches. *)
Fixpoint search (r : regex) (s : str) : option rx_match :=
  match match_at r s with
  | Some m => Some m
  | None => match s with [] => None | _ :: t => search r t end
  end.

(** [while ((match = r.exec(text)) !== null)] for a regex with the g flag:
    [lastIndex] moves to the end of each match.  [None] when the fuel is
    used up (an empty match would leave [lastIndex] where it is). *)
Fixpoint exec_loop (fuel : nat) (r : regex) (s : str) : option (list rx_match) :=
  match fuel with
  | O => None
  | S f =>
    match search r s with
    | None => Some []
    | Some m => option_map (cons m) (exec_loop f r (m_rest m))
    end
  end.

Definition exec_all (r : regex) (s : str) : option (list rx_match) :=
  exec_loop (S (length s)) r s.

(** ** Numbers *)

(** The results of [parseInt] and [parseFloat].  An integer up to 2^53 is a
    Number exactly; above it [parseInt] rounds to the nearest double, which
    is kept symbolic, as is every [parseFloat] result. *)
Inductive number :=
| NaN
| Int (n : Z)
| Rounded (n : Z)
| ParseFloat (s : str).

Definition digit_value (c : N) : Z := Z.of_N (c - 48).

Definition digits_value (ds : str) : Z :=
  fold_left (fun acc c => (acc * 10 + digit_value c)%Z) ds 0%Z.

Fixpoint takeWhile {A} (p : A -> bool) (xs : list A) : list A :=
  match xs with
  | x :: t => if p x then x :: takeWhile p t else []
  | [] => []
  end.

Fixpoint dropWhile {A} (p : A -> bool) (xs : list A) : list A :=
  match xs with
  | x :: t => if p x then dropWhile p t else xs
  | [] => []
  end.

Definition of_integer (z : Z) : number :=
  if (Z.abs z <=? 2 ^ 53)%Z then Int z else Rounded z.

(** [parseInt(s, 10)]: leading white space, an optional sign, then the
    longest run of decimal digits; [NaN] when that run is empty. *)
Definition parseInt (s : str) : number :=
  let s1 := dropWhile isSpace s in
  let '(neg, s2) :=
    match s1 with
    | c :: t => if (c =? 45)%N then (true, t)
                else if (c =? 43)%N then (false, t) else (false, s1)
    | [] => (false, s1)
    end in
  match takeWhile isDigit s2 with
  | [] => NaN
  | ds => of_integer (if neg then - digits_value ds else digits_value ds)%Z
  end.

(** [s.replace(/,/g, '')] *)
Definition strip_commas (s : str) : str :=
  filter (fun c => negb (c =? 44)%N) s.

(** [s.trim()] *)
Definition trim (s : str) : str :=
  rev (dropWhile isSpace (rev (dropWhile isSpace s))).

(** ** parseAmount *)

(** "/금\s*([\d,]+)\s*원/" *)
Definition amountRe : regex :=
  seqs [txt "금"; many ws; Group 1 (plus (Chr (OneOf [Dig; Ch 44%N])));
        many ws; txt "원"].

Definition parseAmount (text : str) : option number :=
  match text with
  | [] => None
  | _ =>
    match search amountRe text with
    | Some m =>
      match grp m 1 with
      | Some g => Some (parseInt (strip_commas g))
      | None => Some NaN
      end
    | None => None
    end
  end.

(** [fullMatch.match(re)?.[1] || ''] *)
Definition group1_or_empty (re : regex) (text : str) : str :=
  match search re text with
  | Some m => match grp m 1 with Some g => g | None => [] end
  | None => []
  end.

(** Capture [i] of an optional match, [m?.[i]]. *)
Definition grp_of (m : option rx_match) (i : nat) : option str :=
  match m with Some m' => grp m' i | None => None end.

(** ** The types of [src/types/registry.ts]

    A property that is absent or [undefined] in an object the code builds is
    [None]. *)

Inductive PropertyType := building | aggregate_building.

Definition PropertyType_name (p : PropertyType) : string :=
  match p with
  | building => "building"
  | aggregate_building => "aggregate_building"
  end.

Module FloorArea.
Record t := { floor : str; area : number; isExcluded : bool }.
End FloorArea.

Module OwnerInfo.
Record t := {
    name : str;
    residentNumber : option str;
    address : option str;
    share : option str
  }.
End OwnerInfo.

Module CreditorInfo.
Record t := { name : str; residentNumber : option str; address : option str }.
End CreditorInfo.

Module LesseeInfo.
Record t := { name : str; residentNumber : option str; address : option str }.
End LesseeInfo.

Module LeaseTermInfo.
Record t := {
    contractDate : str;
    residentRegistrationDate : option str;
    possessionStartDate : option str;
    fixedDate : option str
  }.
End LeaseTermInfo.

Module RegistryTitleInfo.
Record t := {
    uniqueNumber : str;
    propertyType : PropertyType;
    address : str;
    roadAddress : option str;
    structure : str;
    roofType : str;
    floors : number;
    buildingType : str;
    areas : list FloorArea.t;
    landRightRatio : option str;
    exclusiveArea : option number
  }.
End RegistryTitleInfo.

(** The objects pushed by [parseSectionAEntries] carry [owner] and
    [cancellationInfo]; [owners] is the property of the declared interface
    that [maskForDemo] reads and writes. *)
Module SectionAEntry.
Record t := {
    rankNumber : str;
    registrationType : str;
    receiptDate : str;
    receiptNumber : str;
    registrationCause : str;
    registrationCauseDate : option str;
    owner : option OwnerInfo.t;
    owners : option (list OwnerInfo.t);
    creditor : option CreditorInfo.t;
    claimAmount : option number;
    isCancelled : bool;
    cancellationInfo : option str
  }.
End SectionAEntry.

Module SectionBEntry.
Record t := {
    rankNumber : str;
    registrationType : str;
    receiptDate : str;
    receiptNumber : option str;
    registrationCause : option str;
    registrationCauseDate : option str;
    maxClaimAmount : option number;
    debtor : option OwnerInfo.t;
    mortgagee : option CreditorInfo.t;
    depositAmount : option number;
    monthlyRent : option number;
    leaseTerm : option LeaseTermInfo.t;
    lessee : option LesseeInfo.t;
    leaseArea : option str;
    isCancelled : option bool
  }.
End SectionBEntry.

Module RegistryData.
Record t := {
    uniqueNumber : str;
    propertyType : PropertyType;
    propertyAddress : str;
    titleInfo : RegistryTitleInfo.t;
    sectionA : list SectionAEntry.t;
    sectionB : list SectionBEntry.t;
    rawText : str;
    parseDate : str
  }.

  (** The own property names of the object [parseRegistryPDF] returns. *)
Definition keys : list string :=
    ["uniqueNumber"; "propertyType"; "propertyAddress"; "titleInfo";
     "sectionA"; "sectionB"; "rawText"; "parseDate"]%string.
End RegistryData.

(** [Partial<RegistryData>] *)
Module PartialRegistryData.
Record t := {
    uniqueNumber : option str;
    propertyType : option PropertyType;
    propertyAddress : option str;
    titleInfo : option RegistryTitleInfo.t;
    sectionA : option (list SectionAEntry.t);
    sectionB : option (list SectionBEntry.t);
    rawText : option str;
    parseDate : option str
  }.

Definition of_full (d : RegistryData.t) : t := {|
    uniqueNumber := Some (RegistryData.uniqueNumber d);
    propertyType := Some (RegistryData.propertyType d);
    propertyAddress := Some (RegistryData.propertyAddress d);
    titleInfo := Some (RegistryData.titleInfo d);
    sectionA := Some (RegistryData.sectionA d);
    sectionB := Some (RegistryData.sectionB d);
    rawText := Some (RegistryData.rawText d);
    parseDate := Some (RegistryData.parseDate d)
  |}.

Definition empty : t := {|
    uniqueNumber := None; propertyType := None; propertyAddress := None;
    titleInfo := None; sectionA := None; sectionB := None;
    rawText := None; parseDate := None
  |}.
End PartialRegistryData.

Module ParseResponse.
Record t := {
    success : bool;
    data : option PartialRegistryData.t;
    error : option str;
    requestId : str;
    isDemo : bool
  }.
End ParseResponse.

(** ** Title section *)

Definition dcd : cset := OneOf [Dig; Ch 44%N; Ch 46%N].   (* [\d,.] *)
Definition notNL : cset := NoneOf [Ch NL].                 (* [^\n] *)
Definition sqm : regex := txt "㎡".

(** "/([\d,.]+)\s*㎡/" *)
Definition areaRe : regex := seqs [Group 1 (plus (Chr dcd)); many ws; sqm].

Definition parseFloat (s : str) : number := ParseFloat s.

Definition parseArea (text : str) : option number :=
  match search areaRe text with
  | Some m =>
    match grp m 1 with
    | Some g => Some (parseFloat (strip_commas g))
    | None => None
    end
  | None => None
  end.

(** [text.split('\n')] *)
Fixpoint split_lines_aux (cur : str) (s : str) : list str :=
  match s with
  | [] => [rev cur]
  | c :: t =>
    if (c =? NL)%N then rev cur :: split_lines_aux [] t
    else split_lines_aux (c :: cur) t
  end.
Definition split_lines (s : str) : list str := split_lines_aux [] s.

(** "/(지하?\d+층|\d+층|옥탑\d+층)\s*([\d,.]+)\s*㎡/" *)
Definition floorAreaRe : regex :=
  seqs [Group 1 (alts [seqs [txt "지"; opt (txt "하"); plus dg; txt "층"];
                       seqs [plus dg; txt "층"];
                       seqs [txt "옥탑"; plus dg; txt "층"]]);
        many ws; Group 2 (plus (Chr dcd)); many ws; sqm].

Definition parseFloorAreas (text : str) : list FloorArea.t :=
  flat_map (fun line =>
    match search floorAreaRe line with
    | Some m =>
      match grp m 1, grp m 2 with
      | Some f, Some a =>
        [ {| FloorArea.floor := f;
             FloorArea.area := parseFloat (strip_commas a);
             FloorArea.isExcluded := includes line (u "연면적제외") |} ]
      | _, _ => []
      end
    | None => []
    end) (split_lines text).

(** "/고유번호\s*([\d-]+)/" *)
Definition uniqueNumberRe : regex :=
  seqs [txt "고유번호"; many ws; Group 1 (plus (Chr (OneOf [Dig; Ch 45%N])))].

Definition extractUniqueNumber (text : str) : str :=
  group1_or_empty uniqueNumberRe text.

Definition detectPropertyType (text : str) : PropertyType :=
  if includes text (u "집합건물") then aggregate_building else building.

(** "/\[(?:건물|집합건물)\]\s*(.+?)(?:\n|【)/" *)
Definition addressRe : regex :=
  seqs [txt "["; alts [txt "건물"; txt "집합건물"]; txt "]"; many ws;
        Group 1 (plus_lazy (Chr Dot)); alts [chr NL; txt "【"]].

Definition extractAddress (text : str) : str :=
  trim (group1_or_empty addressRe text).

(** "/소재지번[,\s]*건물명칭 및 번호.*?\n.*?\n?\s*([^\n]+)/s" *)
Definition titleAddressRe : regex :=
  seqs [txt "소재지번"; many (Chr (OneOf [Ch 44%N; Spc])); txt "건물명칭 및 번호";
        few (Chr DotAll); chr NL; few (Chr DotAll); opt (chr NL); many ws;
        Group 1 (plus (Chr notNL))].

(** "/\[도로명주소\]\s*\n?\s*([^\n]+)/" *)
Definition roadAddressRe : regex :=
  seqs [txt "[도로명주소]"; many ws; opt (chr NL); many ws;
        Group 1 (plus (Chr notNL))].

(** "/(철근콘크리트구조|철골철근콘크리트구조|목구조|벽돌구조|블록구조|경량철골구조)/" *)
Definition structureRe : regex :=
  Group 1 (alts [txt "철근콘크리트구조"; txt "철골철근콘크리트구조"; txt "목구조";
                 txt "벽돌구조"; txt "블록구조"; txt "경량철골구조"]).

(** "/\(철근\)?콘크리트\s*지붕|\(기와\)\s*지붕|\(슬레이트\)\s*지붕/" *)
Definition roofRe : regex :=
  alts [seqs [txt "(철근"; opt (txt ")"); txt "콘크리트"; many ws; txt "지붕"];
        seqs [txt "(기와)"; many ws; txt "지붕"];
        seqs [txt "(슬레이트)"; many ws; txt "지붕"]].

(** "/(\d+)층/" *)
Definition floorsRe : regex := seqs [Group 1 (plus dg); txt "층"].

(** "/(아파트|오피스텔|다세대주택|다가구주택|단독주택|근린생활시설|제2종근린생활시설|상가|업무시설|주택)/" *)
Definition buildingTypeRe : regex :=
  Group 1 (alts [txt "아파트"; txt "오피스텔"; txt "다세대주택"; txt "다가구주택";
                 txt "단독주택"; txt "근린생활시설"; txt "제2종근린생활시설";
                 txt "상가"; txt "업무시설"; txt "주택"]).

(** "/대지권비율\s*\n?\s*(\d+)분의\s*([\d.]+)/" *)
Definition ratioRe : regex :=
  seqs [txt "대지권비율"; many ws; opt (chr NL); many ws; Group 1 (plus dg);
        txt "분의"; many ws; Group 2 (plus (Chr (OneOf [Dig; Ch 46%N])))].

(** "/전유부분.*?건물의 표시.*?([\d,.]+)\s*㎡/s" *)
Definition exclusiveRe : regex :=
  seqs [txt "전유부분"; few (Chr DotAll); txt "건물의 표시"; few (Chr DotAll);
        Group 1 (plus (Chr dcd)); many ws; sqm].

Definition parseTitleSection (text : str) : RegistryTitleInfo.t :=
  let uniqueNumber := extractUniqueNumber text in
  let propertyType := detectPropertyType text in
  let address := trim (group1_or_empty titleAddressRe text) in
  let roadAddress := option_map trim (grp_of (search roadAddressRe text) 1) in
  let structure := group1_or_empty structureRe text in
  let roofType :=
    match search roofRe text with Some m => m_text m | None => [] end in
  let floors :=
    match grp_of (search floorsRe text) 1 with
    | Some g => parseInt g
    | None => Int 0
    end in
  let buildingType := group1_or_empty buildingTypeRe text in
  let areas := parseFloorAreas text in
  let landRightRatio :=
    match propertyType with
    | aggregate_building =>
      match search ratioRe text with
      | Some m =>
        match grp m 1, grp m 2 with
        | Some a, Some b => Some (a ++ u "분의 " ++ b)
        | _, _ => None
        end
      | None => None
      end
    | building => None
    end in
  let exclusiveArea :=
    match propertyType with
    | aggregate_building =>
      option_map (fun g => parseFloat (strip_commas g))
                 (grp_of (search exclusiveRe text) 1)
    | building => None
    end in
  {| RegistryTitleInfo.uniqueNumber := uniqueNumber;
     RegistryTitleInfo.propertyType := propertyType;
     RegistryTitleInfo.address := address;
     RegistryTitleInfo.roadAddress := roadAddress;
     RegistryTitleInfo.structure := structure;
     RegistryTitleInfo.roofType := roofType;
     RegistryTitleInfo.floors := floors;
     RegistryTitleInfo.buildingType := buildingType;
     RegistryTitleInfo.areas := areas;
     RegistryTitleInfo.landRightRatio := landRightRatio;
     RegistryTitleInfo.exclusiveArea := exclusiveArea |}.

(** ** Section A (갑구) *)

(** /【\s*갑\s*구\s*】/ and its siblings *)
Definition headingA : regex :=
  seqs [txt "【"; many ws; txt "갑"; many ws; txt "구"; many ws; txt "】"].
Definition headingB : regex :=
  seqs [txt "【"; many ws; txt "을"; many ws; txt "구"; many ws; txt "】"].
Definition headingTrade : regex :=
  seqs [txt "【"; many ws; txt "매"; many ws; txt "매"; many ws; txt "목";
        many ws; txt "록"; many ws; txt "】"].

(** "/【\s*갑\s*구\s*】.*?(?=【\s*을\s*구\s*】|【\s*매\s*매\s*목\s*록\s*】|$)/s" *)
Definition sectionARe : regex :=
  seqs [headingA; few (Chr DotAll); Look (alts [headingB; headingTrade; Eoi])].

(** (\d+(?:-\d+)?) *)
Definition rankRe : regex := seqs [plus dg; opt (seqs [txt "-"; plus dg])].

Definition typesA : list str :=
  map u ["소유권보존"; "소유권이전"; "가압류"; "압류"; "경매개시결정";
         "임의경매개시결정"; "강제경매개시결정"; "가처분"; "등기말소";
         "소유권이전등기말소"]%string.

(** "/(\d+(?:-\d+)?)\s+(소유권보존|...|소유권이전등기말소)[\s\S]*?(?=\n\d+(?:-\d+)?\s+|\n【|\n\s*$)/g" *)
Definition rowPatternA : regex :=
  seqs [Group 1 rankRe; plus ws; Group 2 (alts (map lit typesA)); few anyc;
        Look (alts [seqs [chr NL; rankRe; plus ws];
                    seqs [chr NL; txt "【"];
                    seqs [chr NL; many ws; Eoi]])].

(** \d{4}년\s*\d{1,2}월\s*\d{1,2}일 *)
Definition dateRe : regex :=
  seqs [rep 4 dg; txt "년"; many ws; dg; opt dg; txt "월"; many ws;
        dg; opt dg; txt "일"].

(** "/(\d{4}년\s*\d{1,2}월\s*\d{1,2}일)\s*제?\s*([\d]+호)/" *)
Definition receiptRe : regex :=
  seqs [Group 1 dateRe; many ws; opt (txt "제"); many ws;
        Group 2 (seqs [plus dg; txt "호"])].

(** 등\s*기\s*원\s*인\s*\n?\s* *)
Definition causeHead : regex :=
  seqs [txt "등"; many ws; txt "기"; many ws; txt "원"; many ws; txt "인";
        many ws; opt (chr NL); many ws].

(** "/등\s*기\s*원\s*인\s*\n?\s*([\s\S]*?)(?=권리자|소유자|채권자|$)/" *)
Definition causeARe : regex :=
  seqs [causeHead; Group 1 (few anyc);
        Look (alts [txt "권리자"; txt "소유자"; txt "채권자"; Eoi])].

(** "/(\d{4}년\s*\d{1,2}월\s*\d{1,2}일)\s*(?:매매|상속|증여|신탁|경락)/" *)
Definition causeDateARe : regex :=
  seqs [Group 1 dateRe; many ws;
        alts [txt "매매"; txt "상속"; txt "증여"; txt "신탁"; txt "경락"]].

(** \d{6}-\*{7} and \d{3}-\d{2}-\d{5} *)
Definition residentNo : regex := seqs [rep 6 dg; txt "-"; rep 7 (txt "*")].
Definition businessNo : regex :=
  seqs [rep 3 dg; txt "-"; rep 2 dg; txt "-"; rep 5 dg].

(** "/소유자\s+([^\d]+)\s+(\d{6}-\*{7})?\s*\n?\s*([^\n]{0,})/" *)
Definition ownerRe : regex :=
  seqs [txt "소유자"; plus ws; Group 1 (plus (Chr (NoneOf [Dig]))); plus ws;
        opt (Group 2 residentNo); many ws; opt (chr NL); many ws;
        Group 3 (many (Chr notNL))].

(** "/채권자\s+([^\d]+)\s+(\d{6}-\*{7}|\d{3}-\d{2}-\d{5})?\s*\n?\s*([^\n]{0,})/" *)
Definition creditorRe : regex :=
  seqs [txt "채권자"; plus ws; Group 1 (plus (Chr (NoneOf [Dig]))); plus ws;
        opt (Group 2 (alts [residentNo; businessNo])); many ws; opt (chr NL);
        many ws; Group 3 (many (Chr notNL))].

(** 금[\d,]+원 *)
Definition wonRe : regex :=
  seqs [txt "금"; plus (Chr (OneOf [Dig; Ch 44%N])); txt "원"].

(** "/청구금액\s*(금[\d,]+원)/" *)
Definition claimRe : regex := seqs [txt "청구금액"; many ws; Group 1 wonRe].

(** "/(\d+번[^\n]*말소)/" *)
Definition cancelRe : regex :=
  Group 1 (seqs [plus dg; txt "번"; many (Chr notNL); txt "말소"]).

Definition malso : str := u "말소".

(** The body of the loop of [parseSectionAEntries], for one match of the
    row pattern. *)
Definition entryA (m : rx_match) : SectionAEntry.t :=
  let fullMatch := m_text m in
  let rankNumber := match grp m 1 with Some g => g | None => [] end in
  let registrationType := match grp m 2 with Some g => g | None => [] end in
  let receiptMatch := search receiptRe fullMatch in
  let receiptDate :=
    match receiptMatch with
    | Some r => match grp r 1 with Some g => g | None => [] end
    | None => []
    end in
  let receiptNumber :=
    match receiptMatch with
    | Some r => match grp r 2 with Some g => g | None => [] end
    | None => []
    end in
  let registrationCause := trim (group1_or_empty causeARe fullMatch) in
  let registrationCauseDate := grp_of (search causeDateARe fullMatch) 1 in
  let owner :=
    match search ownerRe fullMatch with
    | Some o =>
      Some {| OwnerInfo.name := trim (match grp o 1 with Some g => g | None => [] end);
              OwnerInfo.residentNumber := grp o 2;
              OwnerInfo.address := option_map trim (grp o 3);
              OwnerInfo.share := None |}
    | None => None
    end in
  let creditor :=
    match search creditorRe fullMatch with
    | Some o =>
      Some {| CreditorInfo.name := trim (match grp o 1 with Some g => g | None => [] end);
              CreditorInfo.residentNumber := grp o 2;
              CreditorInfo.address := option_map trim (grp o 3) |}
    | None => None
    end in
  let claimAmount := parseAmount (group1_or_empty claimRe fullMatch) in
  let isCancelled := includes fullMatch malso in
  let cancellationInfo :=
    if isCancelled then grp_of (search cancelRe fullMatch) 1 else None in
  {| SectionAEntry.rankNumber := rankNumber;
     SectionAEntry.registrationType := registrationType;
     SectionAEntry.receiptDate := receiptDate;
     SectionAEntry.receiptNumber := receiptNumber;
     SectionAEntry.registrationCause := registrationCause;
     SectionAEntry.registrationCauseDate := registrationCauseDate;
     SectionAEntry.owner := owner;
     SectionAEntry.owners := None;
     SectionAEntry.creditor := creditor;
     SectionAEntry.claimAmount := claimAmount;
     SectionAEntry.isCancelled := isCancelled;
     SectionAEntry.cancellationInfo := cancellationInfo |}.

(** The rows the [while] loop visits: the matches of the row pattern in the
    section text; no rows when the section heading is not found. *)
Definition rowsA (text : str) : option (list rx_match) :=
  match search sectionARe text with
  | None => Some []
  | Some sec => exec_all rowPatternA (m_text sec)
  end.

(** [None]: the loop does not come to an end. *)
Definition parseSectionAEntries (text : str) : option (list SectionAEntry.t) :=
  option_map (map entryA) (rowsA text).

(** ** Section B (을구) *)

(** "/【\s*을\s*구\s*】[\s\S]*?(?=【\s*매\s*매\s*목\s*록\s*】|주요\s*등기사항\s*요약|출력일시|$)/" *)
Definition sectionBRe : regex :=
  seqs [headingB; few anyc;
        Look (alts [headingTrade;
                    seqs [txt "주요"; many ws; txt "등기사항"; many ws; txt "요약"];
                    txt "출력일시"; Eoi])].

Definition typesB : list str :=
  map u ["근저당권설정"; "근저당권이전"; "근질권설정"; "주택임차권"; "전세권설정";
         "저당권설정"; "임차권설정"]%string.

(** "/(\d+(?:-\d+)?)\s+(근저당권설정|...|임차권설정)[\s\S]*?(?=\n\d+(?:-\d+)?\s+|\n【|\n출력일시|\n주요\s*등기|$)/g" *)
Definition rowPatternB : regex :=
  seqs [Group 1 rankRe; plus ws; Group 2 (alts (map lit typesB)); few anyc;
        Look (alts [seqs [chr NL; rankRe; plus ws];
                    seqs [chr NL; txt "【"];
                    seqs [chr NL; txt "출력일시"];
                    seqs [chr NL; txt "주요"; many ws; txt "등기"];
                    Eoi])].

(** "/등\s*기\s*원\s*인\s*\n?\s*([\s\S]*?)(?=채권|채무|근저|임차|$)/" *)
Definition causeBRe : regex :=
  seqs [causeHead; Group 1 (few anyc);
        Look (alts [txt "채권"; txt "채무"; txt "근저"; txt "임차"; Eoi])].

(** "/(\d{4}년\s*\d{1,2}월\s*\d{1,2}일)\s*(?:설정계약|추가설정계약|확정채권양도|계약인수)/" *)
Definition causeDateBRe : regex :=
  seqs [Group 1 dateRe; many ws;
        alts [txt "설정계약"; txt "추가설정계약"; txt "확정채권양도"; txt "계약인수"]].

(** "/채권최고액\s*(금[\d,]+원)/" *)
Definition maxClaimRe : regex := seqs [txt "채권최고액"; many ws; Group 1 wonRe].

(** "/채무자\s+([^\d\n]+)\s+(\d{6}-\*{7}|\d{3}-\d{2}-\d{5})?\s*\n?\s*([^\n채근]{0,})/" *)
Definition debtorRe : regex :=
  seqs [txt "채무자"; plus ws; Group 1 (plus (Chr (NoneOf [Dig; Ch NL])));
        plus ws; opt (Group 2 (alts [residentNo; businessNo])); many ws;
        opt (chr NL); many ws;
        Group 3 (many (Chr (NoneOf [Ch NL; Ch (one "채"); Ch (one "근")])))].

(** "/근저당권자\s+([^\d\n]+)\s+(\d{3}-\d{2}-\d{5}|\d{6}-\*{7})?\s*\n?\s*([^\n임채공]{0,})/" *)
Definition mortgageeRe : regex :=
  seqs [txt "근저당권자"; plus ws; Group 1 (plus (Chr (NoneOf [Dig; Ch NL])));
        plus ws; opt (Group 2 (alts [businessNo; residentNo])); many ws;
        opt (chr NL); many ws;
        Group 3 (many (Chr (NoneOf [Ch NL; Ch (one "임"); Ch (one "채");
                                       Ch (one "공")])))].

(** "/임차보증금\s*(금[\d,]+원)/" *)
Definition depositRe : regex := seqs [txt "임차보증금"; many ws; Group 1 wonRe].

(** "/차\s*임\s*월?\s*금?\s*(금[\d,]+원)/" *)
Definition rentRe : regex :=
  seqs [txt "차"; many ws; txt "임"; many ws; opt (txt "월"); many ws;
        opt (txt "금"); many ws; Group 1 wonRe].

(** "/<label>\s*(\d{4}년\s*\d{1,2}월\s*\d{1,2}일)/" *)
Definition labelledDateRe (label : string) : regex :=
  seqs [txt label; many ws; Group 1 dateRe].

(** "/임차권자\s+([^\d\n]+)\s+(\d{6}-\*{7})?\s*\n?\s*([^\n]{0,})/" *)
Definition lesseeRe : regex :=
  seqs [txt "임차권자"; plus ws; Group 1 (plus (Chr (NoneOf [Dig; Ch NL])));
        plus ws; opt (Group 2 residentNo); many ws; opt (chr NL); many ws;
        Group 3 (many (Chr notNL))].

(** "/범\s*위\s*([\s\S]*?)(?=임대차계약일자|$)/" *)
Definition leaseAreaRe : regex :=
  seqs [txt "범"; many ws; txt "위"; many ws; Group 1 (few anyc);
        Look (alts [txt "임대차계약일자"; Eoi])].

(** The body of the loop of [parseSectionBEntries]. *)
Definition entryB (m : rx_match) : SectionBEntry.t :=
  let fullMatch := m_text m in
  let rankNumber := match grp m 1 with Some g => g | None => [] end in
  let registrationType := match grp m 2 with Some g => g | None => [] end in
  let receiptMatch := search receiptRe fullMatch in
  let receiptDate :=
    match receiptMatch with
    | Some r => match grp r 1 with Some g => g | None => [] end
    | None => []
    end in
  let receiptNumber :=
    match receiptMatch with
    | Some r => match grp r 2 with Some g => g | None => [] end
    | None => []
    end in
  let registrationCause := trim (group1_or_empty causeBRe fullMatch) in
  let registrationCauseDate := grp_of (search causeDateBRe fullMatch) 1 in
  let maxClaimAmount := parseAmount (group1_or_empty maxClaimRe fullMatch) in
  let debtor :=
    match search debtorRe fullMatch with
    | Some o =>
      Some {| OwnerInfo.name := trim (match grp o 1 with Some g => g | None => [] end);
              OwnerInfo.residentNumber := grp o 2;
              OwnerInfo.address := option_map trim (grp o 3);
              OwnerInfo.share := None |}
    | None => None
    end in
  let mortgagee :=
    match search mortgageeRe fullMatch with
    | Some o =>
      Some {| CreditorInfo.name := trim (match grp o 1 with Some g => g | None => [] end);
              CreditorInfo.residentNumber := grp o 2;
              CreditorInfo.address := option_map trim (grp o 3) |}
    | None => None
    end in
  let depositAmount := parseAmount (group1_or_empty depositRe fullMatch) in
  let monthlyRent := parseAmount (group1_or_empty rentRe fullMatch) in
  let contractDateMatch := search (labelledDateRe "임대차계약일자") fullMatch in
  let residentRegMatch := search (labelledDateRe "주민등록일자") fullMatch in
  let possessionMatch := search (labelledDateRe "점유개시일자") fullMatch in
  let fixedDateMatch := search (labelledDateRe "확정일자") fullMatch in
  let leaseTerm :=
    match contractDateMatch with
    | Some cm =>
      Some {| LeaseTermInfo.contractDate :=
                match grp cm 1 with Some g => g | None => [] end;
              LeaseTermInfo.residentRegistrationDate := grp_of residentRegMatch 1;
              LeaseTermInfo.possessionStartDate := grp_of possessionMatch 1;
              LeaseTermInfo.fixedDate := grp_of fixedDateMatch 1 |}
    | None => None
    end in
  let lessee :=
    match search lesseeRe fullMatch with
    | Some o =>
      Some {| LesseeInfo.name := trim (match grp o 1 with Some g => g | None => [] end);
              LesseeInfo.residentNumber := grp o 2;
              LesseeInfo.address := option_map trim (grp o 3) |}
    | None => None
    end in
  let leaseArea :=
    option_map (fun g => firstn 200 (trim g))
               (grp_of (search leaseAreaRe fullMatch) 1) in
  let isCancelled := includes fullMatch malso in
  {| SectionBEntry.rankNumber := rankNumber;
     SectionBEntry.registrationType := registrationType;
     SectionBEntry.receiptDate := receiptDate;
     SectionBEntry.receiptNumber := Some receiptNumber;
     SectionBEntry.registrationCause := Some registrationCause;
     SectionBEntry.registrationCauseDate := registrationCauseDate;
     SectionBEntry.maxClaimAmount := maxClaimAmount;
     SectionBEntry.debtor := debtor;
     SectionBEntry.mortgagee := mortgagee;
     SectionBEntry.depositAmount := depositAmount;
     SectionBEntry.monthlyRent := monthlyRent;
     SectionBEntry.leaseTerm := leaseTerm;
     SectionBEntry.lessee := lessee;
     SectionBEntry.leaseArea := leaseArea;
     SectionBEntry.isCancelled := Some isCancelled |}.

Definition rowsB (text : str) : option (list rx_match) :=
  match search sectionBRe text with
  | None => Some []
  | Some sec => exec_all rowPatternB (m_text sec)
  end.

Definition parseSectionBEntries (text : str) : option (list SectionBEntry.t) :=
  option_map (map entryB) (rowsB text).

(** ** Calls that may throw or not return *)

(** What a [catch] clause may receive. *)
Inductive thrown :=
| ErrorObj (message : str)   (* an instance of [Error] *)
| OtherValue.

Inductive outcome (A : Type) :=
| Returned (a : A)
| Threw (e : thrown)
| Diverged.

Arguments Returned {A} a.
Arguments Threw {A} e.
Arguments Diverged {A}.

(** ** parseRegistryPDF *)

(** What pdf2json hands to the [pdfParser_dataReady] handler. *)
Module PdfData.
Record run := { T : option str }.
Record text := { R : option (list run) }.
Record page := { Texts : option (list text) }.
Record t := { Pages : option (list page) }.
End PdfData.

Definition Buffer := list N.

(** The collaborators of the module: the two PDF text extractors, the URI
    decoder, the clock, the UUID generator, and the HTTP client. *)
Record Env := {
  pdf2json : Buffer -> option PdfData.t;      (* [Some]: pdfParser_dataReady;
                                                 [None]: pdfParser_dataError,
                                                 or the import or parseBuffer throws *)
  pdfParse : Buffer -> option str;            (* [None]: the import or the call throws *)
  decodeURIComponent : str -> option str;     (* [None]: throws URIError *)
  now : str;                                  (* new Date().toISOString() *)
  uuidv4 : str;
  base64 : str -> str;
  fetch_ok : str -> option bool               (* [None]: fetch rejects *)
}.

Definition or_nil {A} (o : option (list A)) : list A :=
  match o with Some x => x | None => [] end.

Definition pageBreak : str := [NL] ++ u "--- PAGE BREAK ---" ++ [NL].

(** [texts.join('')] of the pieces pushed one after another; [None] when
    the evaluation of one of them throws, which ends the handler there. *)
Fixpoint joinPushed (pieces : list (option str)) : option str :=
  match pieces with
  | [] => Some []
  | Some x :: rest => option_map (app x) (joinPushed rest)
  | None :: _ => None
  end.

(** The [pdfParser_dataReady] handler up to its call of [resolve]: the runs
    of every text item decoded, a line break after each item and the
    page-break line after each page.  [None]: [decodeURIComponent] throws
    on a run, and the handler is left without calling [resolve]. *)
Definition textOfPdfData (env : Env) (pdfData : PdfData.t) : option str :=
  joinPushed
    (flat_map (fun page =>
       flat_map (fun item =>
         map (fun t =>
           decodeURIComponent env
             (match PdfData.T t with Some x => x | None => [] end))
           (or_nil (PdfData.R item))
         ++ [Some [NL]])
         (or_nil (PdfData.Texts page))
       ++ [Some pageBreak])
       (or_nil (PdfData.Pages pdfData))).

Definition extractionFailed : str := u "PDF 텍스트 추출에 실패했습니다.".

(** The [try]/[catch] of text extraction: pdf2json, then pdf-parse.  The
    promise the call awaits is settled by the two handlers only: the
    dataError handler rejects it (and pdf-parse is tried); the dataReady
    handler resolves it, unless [decodeURIComponent] throws inside the
    handler: then the promise is never settled and the call neither returns
    nor throws. *)
Definition extractText (env : Env) (pdfBuffer : Buffer) : outcome str :=
  match pdf2json env pdfBuffer with
  | Some pdfData =>
    match textOfPdfData env pdfData with
    | Some text => Returned text
    | None => Diverged
    end
  | None =>
    match pdfParse env pdfBuffer with
    | Some text => Returned text
    | None => Threw (ErrorObj extractionFailed)
    end
  end.

(** The rest of [parseRegistryPDF], on the extracted text. *)
Definition parseRegistryText (env : Env) (text : str) : outcome RegistryData.t :=
  let uniqueNumber := extractUniqueNumber text in
  let propertyType := detectPropertyType text in
  let propertyAddress := extractAddress text in
  let titleInfo := parseTitleSection text in
  match parseSectionAEntries text with
  | None => Diverged
  | Some sectionA =>
    match parseSectionBEntries text with
    | None => Diverged
    | Some sectionB =>
      Returned {| RegistryData.uniqueNumber := uniqueNumber;
                  RegistryData.propertyType := propertyType;
                  RegistryData.propertyAddress := propertyAddress;
                  RegistryData.titleInfo := titleInfo;
                  RegistryData.sectionA := sectionA;
                  RegistryData.sectionB := sectionB;
                  RegistryData.rawText := text;
                  RegistryData.parseDate := now env |}
    end
  end.

Definition parseRegistryPDF (env : Env) (pdfBuffer : Buffer)
  : outcome RegistryData.t :=
  match extractText env pdfBuffer with
  | Returned text => parseRegistryText env text
  | Threw e => Threw e
  | Diverged => Diverged
  end.

(** ** maskForDemo *)

(** [s.charAt(0)] and [s.slice(-1)] *)
Definition charAt0 (s : str) : str := firstn 1 s.
Definition slice_last (s : str) : str := skipn (length s - 1) s.

Definition star : str := u "*".
Definition maskedResidentNumber : str := u "******-*******".
Definition ellipsis : str := u "...".

Definition truthy (o : option str) : bool :=
  match o with Some (_ :: _) => true | _ => false end.

Definition maskOwner (o : OwnerInfo.t) : OwnerInfo.t :=
  {| OwnerInfo.name := charAt0 (OwnerInfo.name o) ++ star ++ slice_last (OwnerInfo.name o);
     OwnerInfo.residentNumber :=
       if truthy (OwnerInfo.residentNumber o) then Some maskedResidentNumber else None;
     OwnerInfo.address :=
       match OwnerInfo.address o with
       | Some (c :: a) => Some (firstn 10 (c :: a) ++ ellipsis)
       | _ => None
       end;
     OwnerInfo.share := OwnerInfo.share o |}.

(** [{...entry, owners: (entry.owners ?? []).map(...)}] *)
Definition maskEntryA (entry : SectionAEntry.t) : SectionAEntry.t :=
  {| SectionAEntry.rankNumber := SectionAEntry.rankNumber entry;
     SectionAEntry.registrationType := SectionAEntry.registrationType entry;
     SectionAEntry.receiptDate := SectionAEntry.receiptDate entry;
     SectionAEntry.receiptNumber := SectionAEntry.receiptNumber entry;
     SectionAEntry.registrationCause := SectionAEntry.registrationCause entry;
     SectionAEntry.registrationCauseDate := SectionAEntry.registrationCauseDate entry;
     SectionAEntry.owner := SectionAEntry.owner entry;
     SectionAEntry.owners := Some (map maskOwner (or_nil (SectionAEntry.owners entry)));
     SectionAEntry.creditor := SectionAEntry.creditor entry;
     SectionAEntry.claimAmount := SectionAEntry.claimAmount entry;
     SectionAEntry.isCancelled := SectionAEntry.isCancelled entry;
     SectionAEntry.cancellationInfo := SectionAEntry.cancellationInfo entry |}.

Definition maskEntryB (entry : SectionBEntry.t) : SectionBEntry.t :=
  {| SectionBEntry.rankNumber := SectionBEntry.rankNumber entry;
     SectionBEntry.registrationType := SectionBEntry.registrationType entry;
     SectionBEntry.receiptDate := SectionBEntry.receiptDate entry;
     SectionBEntry.receiptNumber := None;
     SectionBEntry.registrationCause := None;
     SectionBEntry.registrationCauseDate := None;
     SectionBEntry.maxClaimAmount := None;
     SectionBEntry.debtor := None;
     SectionBEntry.mortgagee := None;
     SectionBEntry.depositAmount := None;
     SectionBEntry.monthlyRent := None;
     SectionBEntry.leaseTerm := None;
     SectionBEntry.lessee := None;
     SectionBEntry.leaseArea := None;
     SectionBEntry.isCancelled := None |}.

Definition maskTitleInfo (ti : RegistryTitleInfo.t) : RegistryTitleInfo.t :=
  {| RegistryTitleInfo.uniqueNumber := RegistryTitleInfo.uniqueNumber ti;
     RegistryTitleInfo.propertyType := RegistryTitleInfo.propertyType ti;
     RegistryTitleInfo.address := RegistryTitleInfo.address ti;
     RegistryTitleInfo.roadAddress := RegistryTitleInfo.roadAddress ti;
     RegistryTitleInfo.structure := RegistryTitleInfo.structure ti;
     RegistryTitleInfo.roofType := RegistryTitleInfo.roofType ti;
     RegistryTitleInfo.floors := RegistryTitleInfo.floors ti;
     RegistryTitleInfo.buildingType := RegistryTitleInfo.buildingType ti;
     RegistryTitleInfo.areas := firstn 1 (RegistryTitleInfo.areas ti);
     RegistryTitleInfo.landRightRatio := RegistryTitleInfo.landRightRatio ti;
     RegistryTitleInfo.exclusiveArea := RegistryTitleInfo.exclusiveArea ti |}.

Definition maskForDemo (data : RegistryData.t) : PartialRegistryData.t :=
  {| PartialRegistryData.uniqueNumber := Some (RegistryData.uniqueNumber data);
     PartialRegistryData.propertyType := Some (RegistryData.propertyType data);
     PartialRegistryData.propertyAddress := Some (RegistryData.propertyAddress data);
     PartialRegistryData.titleInfo := Some (maskTitleInfo (RegistryData.titleInfo data));
     PartialRegistryData.sectionA :=
       Some (map maskEntryA (firstn 1 (RegistryData.sectionA data)));
     PartialRegistryData.sectionB :=
       Some (map maskEntryB (firstn 1 (RegistryData.sectionB data)));
     PartialRegistryData.rawText := None;
     PartialRegistryData.parseDate := Some (RegistryData.parseDate data) |}.

(** ** sendWebhook and parseAndProcessPDF *)

Module WebhookPayload.
Record t := {
    event : str;
    timestamp : str;
    requestId : str;
    status : str;
    downloadUrl : option str;
    summary : option PartialRegistryData.t;
    error : option str;
    signature : str
  }.
End WebhookPayload.

Definition bool_text (b : bool) : str := if b then u "true" else u "false".

(** The request [sendWebhook] posts. *)
Definition webhookPayload (env : Env) (requestId : str)
    (data : PartialRegistryData.t) (isSuccess : bool) : WebhookPayload.t :=
  let timestamp := now env in
  let signaturePayload :=
    requestId ++ u ":" ++ timestamp ++ u ":" ++ bool_text isSuccess in
  let signature := base64 env signaturePayload in
  {| WebhookPayload.event :=
       if isSuccess then u "parsing.completed" else u "parsing.failed";
     WebhookPayload.timestamp := timestamp;
     WebhookPayload.requestId := requestId;
     WebhookPayload.status := if isSuccess then u "success" else u "failed";
     WebhookPayload.downloadUrl :=
       if isSuccess then Some (u "/api/download/" ++ requestId) else None;
     WebhookPayload.summary := if isSuccess then Some data else None;
     WebhookPayload.error := if isSuccess then None else Some (u "Parsing failed");
     WebhookPayload.signature := signature |}.

(** [sendWebhook] catches every failure of its body and returns [false]
    then; its result is the pair of the posted request and [response.ok]. *)
Definition sendWebhook (env : Env) (webhookUrl requestId : str)
    (data : PartialRegistryData.t) (isSuccess : bool)
  : (str * WebhookPayload.t) * bool :=
  ((webhookUrl, webhookPayload env requestId data isSuccess),
   match fetch_ok env webhookUrl with
   | Some ok => ok
   | None => false
   end).

Definition unknownError : str := u "알 수 없는 오류가 발생했습니다.".

(** The response together with the webhook requests sent on the way. *)
Definition parseAndProcessPDF (env : Env) (pdfBuffer : Buffer) (isPaid : bool)
    (webhookUrl : option str)
  : outcome (ParseResponse.t * list (str * WebhookPayload.t)) :=
  let requestId := uuidv4 env in
  match parseRegistryPDF env pdfBuffer with
  | Returned fullData =>
    let sent :=
      match webhookUrl with
      | Some (c :: url) =>
        [fst (sendWebhook env (c :: url) requestId
                (if isPaid then PartialRegistryData.of_full fullData
                 else maskForDemo fullData) true)]
      | _ => []
      end in
    Returned
      ({| ParseResponse.success := true;
          ParseResponse.data :=
            if isPaid then Some (PartialRegistryData.of_full fullData)
            else Some (maskForDemo fullData);
          ParseResponse.error := None;
          ParseResponse.requestId := requestId;
          ParseResponse.isDemo := negb isPaid |}, sent)
  | Threw error =>
    let sent :=
      match webhookUrl with
      | Some (c :: url) =>
        [fst (sendWebhook env (c :: url) requestId PartialRegistryData.empty false)]
      | _ => []
      end in
    Returned
      ({| ParseResponse.success := false;
          ParseResponse.data := None;
          ParseResponse.error :=
            Some (match error with
                  | ErrorObj message => message
                  | OtherValue => unknownError
                  end);
          ParseResponse.requestId := requestId;
          ParseResponse.isDemo := negb isPaid |}, sent)
  | Diverged => Diverged
  end.

(** ** The handlers of [src/app/api/parse/route.ts] *)

(** A [File] of the form: its name, the size it reports and its bytes. *)
Module File.
Record t := { name : str; size : N; bytes : Buffer }.
End File.

Inductive FormDataEntryValue :=
| StringValue (s : str)
| FileValue (f : File.t).

(** The entries of the form in their order. *)
Definition FormData := list (str * FormDataEntryValue).

(** [a === b] on strings. *)
Fixpoint str_eqb (a b : str) : bool :=
  match a, b with
  | [], [] => true
  | x :: a', y :: b' => (x =? y)%N && str_eqb a' b'
  | _, _ => false
  end.

(** [formData.get(name)]: the first entry of that name, [None] for null. *)
Fixpoint get (fd : FormData) (name : str) : option FormDataEntryValue :=
  match fd with
  | [] => None
  | (k, v) :: rest => if str_eqb k name then Some v else get rest name
  end.

(** [String.prototype.endsWith] *)
Definition endsWith (s p : str) : bool := startsWith (rev p) (rev s).

(** [await request.formData()] returns the form or rejects. *)
Record NextRequest := { formData : outcome FormData }.

(** What the handlers take from the runtime. *)
Record Host := {
  toLowerCase : str -> str;     (* String.prototype.toLowerCase *)
  randomUUID : str              (* crypto.randomUUID() *)
}.

(** The three JSON bodies of the handlers. *)
Inductive body :=
| Refusal (error : str)               (* { success: false, error } *)
| Failure (error requestId : str) (isDemo : bool)
                                      (* { success: false, error, requestId, isDemo } *)
| Result (result : ParseResponse.t).

Record NextResponse := { status : N; json : body }.

Definition fileRequired : str := u "PDF 파일이 필요합니다.".
Definition pdfOnly : str := u "PDF 파일만 업로드 가능합니다.".
Definition tooLarge : str := u "파일 크기는 10MB 이하여야 합니다.".
Definition serverError : str := u "서버 오류가 발생했습니다.".

Definition refusal (error : str) : NextResponse :=
  {| status := 400; json := Refusal error |}.

(** The [catch] clause of both handlers. *)
Definition serverFailure (host : Host) (error : thrown) : NextResponse :=
  {| status := 500;
     json := Failure (match error with
                      | ErrorObj message => message
                      | OtherValue => serverError
                      end) (randomUUID host) true |}.

(** The form entry [file] is cast to [File] without a check. When it is a
    non-empty string, [file.name] is undefined and [file.arrayBuffer] is not
    a function: the Node runtime (V8) raises a TypeError with these
    messages. *)
Definition nameOfString : thrown :=
  ErrorObj (u "Cannot read properties of undefined (reading 'toLowerCase')").
Definition arrayBufferOfString : thrown :=
  ErrorObj (u "file.arrayBuffer is not a function").

(** [webhookUrl || undefined], as the text [fetch] reads from it: the entry
    is cast to a string without a check, and a File is read by fetch as the
    text [object File]. *)
Definition webhookArg (v : option FormDataEntryValue) : option str :=
  match v with
  | Some (StringValue (c :: url)) => Some (c :: url)
  | Some (StringValue []) => None
  | Some (FileValue _) => Some (u "[object File]")
  | None => None
  end.

(** The response of a handler and the webhook requests sent on the way. *)
Definition POST (host : Host) (env : Env) (request : NextRequest)
  : outcome (NextResponse * list (str * WebhookPayload.t)) :=
  match formData request with
  | Returned fd =>
    let file := get fd (u "file") in
    let isPaid :=
      match get fd (u "isPaid") with
      | Some (StringValue s) => str_eqb s (u "true")
      | _ => false
      end in
    let webhookUrl := get fd (u "webhookUrl") in
    match file with
    | None | Some (StringValue []) => Returned (refusal fileRequired, [])
    | Some (StringValue (_ :: _)) => Returned (serverFailure host nameOfString, [])
    | Some (FileValue f) =>
      if negb (endsWith (toLowerCase host (File.name f)) (u ".pdf")) then
        Returned (refusal pdfOnly, [])
      else if (10 * 1024 * 1024 <? File.size f)%N then
        Returned (refusal tooLarge, [])
      else
        match parseAndProcessPDF env (File.bytes f) isPaid
                (webhookArg webhookUrl) with
        | Returned (result, sent) =>
          Returned ({| status := 200; json := Result result |}, sent)
        | Threw error => Returned (serverFailure host error, [])
        | Diverged => Diverged
        end
    end
  | Threw error => Returned (serverFailure host error, [])
  | Diverged => Diverged
  end.

Definition PUT (host : Host) (env : Env) (request : NextRequest)
  : outcome (NextResponse * list (str * WebhookPayload.t)) :=
  match formData request with
  | Returned fd =>
    match get fd (u "file") with
    | None | Some (StringValue []) => Returned (refusal fileRequired, [])
    | Some (StringValue (_ :: _)) =>
      Returned (serverFailure host arrayBufferOfString, [])
    | Some (FileValue f) =>
      match parseAndProcessPDF env (File.bytes f) false None with
      | Returned (result, sent) =>
        Returned ({| status := 200; json := Result result |}, sent)
      | Threw error => Returned (serverFailure host error, [])
      | Diverged => Diverged
      end
    end
  | Threw error => Returned (serverFailure host error, [])
  | Diverged => Diverged
  end.

(** Input lines joined by '\n' (for writing sample texts). *)
Definition unlines (ls : list string) : str :=
  concat (map (fun x => u x ++ [NL]) ls).

(** ** What a match is: the relation the matcher searches *)

(** Zero or more rounds of [P], each of which consumes input. *)
Inductive iter (P : str -> caps -> str -> caps -> Prop)
  : str -> caps -> str -> caps -> Prop :=
| iter_stop s c : iter P s c s c
| iter_round s c s1 c1 s2 c2 :
    P s c s1 c1 -> length s1 < length s -> iter P s1 c1 s2 c2 ->
    iter P s c s2 c2.

(** [Matches r s c s' c']: from position [s] with captures [c], [r] can
    match up to position [s'] and leave captures [c']. *)
Fixpoint Matches (r : regex) (s : str) (c : caps) (s' : str) (c' : caps) : Prop :=
  match r with
  | Eps => s' = s /\ c' = c
  | Chr cs => exists x, s = x :: s' /\ cmem cs x = true /\ c' = c
  | Seq r1 r2 => exists s1 c1, Matches r1 s c s1 c1 /\ Matches r2 s1 c1 s' c'
  | Alt r1 r2 => Matches r1 s c s' c' \/ Matches r2 s c s' c'
  | Star _ r1 => iter (Matches r1) s c s' c'
  | Group i r1 =>
    exists c1, Matches r1 s c s' c1 /\ c' = set_cap i (consumed s s') c1
  | Look r1 => s' = s /\ exists s1, Matches r1 s c s1 c'
  | Eoi => s = [] /\ s' = [] /\ c' = c
  end.

(** No capturing group inside. *)
Fixpoint groupless (r : regex) : bool :=
  match r with
  | Eps | Chr _ | Eoi => true
  | Seq r1 r2 | Alt r1 r2 => groupless r1 && groupless r2
  | Star _ r1 | Look r1 => groupless r1
  | Group _ _ => false
  end.

(** Every lookahead is free of capturing groups (as in all patterns of the
    source), so committing to its first match loses nothing. *)
Fixpoint plain_looks (r : regex) : bool :=
  match r with
  | Eps | Chr _ | Eoi => true
  | Seq r1 r2 | Alt r1 r2 => plain_looks r1 && plain_looks r2
  | Star _ r1 | Group _ r1 => plain_looks r1
  | Look r1 => groupless r1 && plain_looks r1
  end.

(** The match object the matcher builds for a match from [s] to [s']. *)
Definition mk_match (s s' : str) (c : caps) : rx_match :=
  {| m_text := consumed s s'; m_caps := c; m_rest := s' |}.

(** ** Vocabulary of the statements *)

(** Every code unit of [w] satisfies [p]. *)
Definition all (p : N -> bool) (w : str) : Prop :=
  Forall (fun x => p x = true) w.

(** A regex each of whose matches consumes input. *)
Definition consuming (r : regex) : Prop :=
  forall s s' c', Matches r s no_caps s' c' -> length s' < length s.

(** The shape of a rank number: digits, then possibly '-' and digits. *)
Definition rank_form (w : str) : Prop :=
  exists a b, w = a ++ b /\ a <> [] /\ all isDigit a /\
    (b = [] \/ exists b', b = 45%N :: b' /\ b' <> [] /\ all isDigit b').

(** A phrase "N번 ... 말소" on one line: digits, 번, no line break, 말소. *)
Definition backref_phrase (info : str) : Prop :=
  exists n mid,
    info = n ++ u "번" ++ mid ++ malso /\
    n <> [] /\ all isDigit n /\ all (fun x => negb (x =? NL)%N) mid.

(** The text contains such a phrase. *)
Definition has_backref (text : str) : Prop :=
  exists pre info post, text = pre ++ info ++ post /\ backref_phrase info.

(** A non-empty run of digits and commas, the [[\d,]+] of the amount
    pattern. *)
Definition amount_digits (n : str) : Prop :=
  n <> [] /\ all (fun x => isDigit x || (x =? 44)%N) n.

(** [s] begins with an occurrence of the amount pattern around [n]:
    금, white space, [n], white space, 원. *)
Definition amount_at (s n : str) : Prop :=
  exists w1 w2 post,
    s = u "금" ++ w1 ++ n ++ w2 ++ u "원" ++ post /\
    all isSpace w1 /\ all isSpace w2 /\ amount_digits n.

(** The text contains a section heading 【 X 구 】 with [x] for X, white
    space allowed between the four marks. *)
Definition has_heading (x : N) (text : str) : Prop :=
  exists pre w1 w2 w3 post,
    text = pre ++ u "【" ++ w1 ++ [x] ++ w2 ++ u "구" ++ w3 ++ u "】" ++ post /\
    all isSpace w1 /\ all isSpace w2 /\ all isSpace w3.

(** [o'] shows of the owner [o] at most the first and the last code unit of
    the name around '*', a resident number replaced by the fixed mask, at most
    the first ten code units of the address followed by "...", and the share. *)
Definition masked_owner (o o' : OwnerInfo.t) : Prop :=
  (exists first last,
     OwnerInfo.name o' = first ++ star ++ last /\
     length first <= 1 /\ length last <= 1 /\
     (exists rest, OwnerInfo.name o = first ++ rest) /\
     (exists rest, OwnerInfo.name o = rest ++ last)) /\
  (OwnerInfo.residentNumber o' = None \/
   OwnerInfo.residentNumber o' = Some maskedResidentNumber) /\
  (OwnerInfo.address o' = None \/
   exists shown rest,
     OwnerInfo.address o = Some (shown ++ rest) /\
     OwnerInfo.address o' = Some (shown ++ ellipsis) /\ length shown <= 10) /\
  OwnerInfo.share o' = OwnerInfo.share o.

(** The masked ownership entry [e'] of [e]: the owners of the [owners] list
    masked one by one; rank number, registration type, receipt, cause,
    creditor, claim amount and cancellation data as they were. *)
Definition masked_entryA (e e' : SectionAEntry.t) : Prop :=
  (exists os', SectionAEntry.owners e' = Some os' /\
               Forall2 masked_owner (or_nil (SectionAEntry.owners e)) os') /\
  SectionAEntry.rankNumber e' = SectionAEntry.rankNumber e /\
  SectionAEntry.registrationType e' = SectionAEntry.registrationType e /\
  SectionAEntry.receiptDate e' = SectionAEntry.receiptDate e /\
  SectionAEntry.receiptNumber e' = SectionAEntry.receiptNumber e /\
  SectionAEntry.registrationCause e' = SectionAEntry.registrationCause e /\
  SectionAEntry.registrationCauseDate e' = SectionAEntry.registrationCauseDate e /\
  SectionAEntry.creditor e' = SectionAEntry.creditor e /\
  SectionAEntry.claimAmount e' = SectionAEntry.claimAmount e /\
  SectionAEntry.isCancelled e' = SectionAEntry.isCancelled e /\
  SectionAEntry.cancellationInfo e' = SectionAEntry.cancellationInfo e.

(** The masked encumbrance entry [e'] of [e]: rank number, registration
    type and receipt date, and nothing else. *)
Definition masked_entryB (e e' : SectionBEntry.t) : Prop :=
  SectionBEntry.rankNumber e' = SectionBEntry.rankNumber e /\
  SectionBEntry.registrationType e' = SectionBEntry.registrationType e /\
  SectionBEntry.receiptDate e' = SectionBEntry.receiptDate e /\
  SectionBEntry.receiptNumber e' = None /\
  SectionBEntry.registrationCause e' = None /\
  SectionBEntry.registrationCauseDate e' = None /\
  SectionBEntry.maxClaimAmount e' = None /\
  SectionBEntry.debtor e' = None /\
  SectionBEntry.mortgagee e' = None /\
  SectionBEntry.depositAmount e' = None /\
  SectionBEntry.monthlyRent e' = None /\
  SectionBEntry.leaseTerm e' = None /\
  SectionBEntry.lessee e' = None /\
  SectionBEntry.leaseArea e' = None /\
  SectionBEntry.isCancelled e' = None.

(** [l'] holds the masked image of the first element of [l], if any. *)
Definition first_masked {A} (rel : A -> A -> Prop) (l l' : list A) : Prop :=
  match l, l' with
  | [], [] => True
  | x :: _, [x'] => rel x x'
  | _, _ => False
  end.

(** The head of [r], if any, fails [p]. *)
Definition stops (p : N -> bool) (r : str) : Prop :=
  match r with [] => True | x :: _ => p x = false end.

(** The matches [ms] lie one after another in [s], without overlap: each
    one starts in what the one before left over. *)
Fixpoint rows_in (ms : list rx_match) (s : str) : Prop :=
  match ms with
  | [] => True
  | m :: ms' =>
    (exists skipped, s = skipped ++ m_text m ++ m_rest m) /\ rows_in ms' (m_rest m)
  end.

(** The text of a row match begins with its rank number, white space and
    its registration type, which are its captures 1 and 2. *)
Definition row_form (types : list str) (m : rx_match) : Prop :=
  exists rank w ty tail,
    m_text m = rank ++ w ++ ty ++ tail /\
    grp m 1 = Some rank /\ grp m 2 = Some ty /\
    rank_form rank /\ w <> [] /\ all isSpace w /\ In ty types.

(** [hd] is a section heading 【 X 구 】 with [x] for X: the brackets and the
    two letters, with white space allowed between them. *)
Definition heading_text (x : N) (hd : str) : Prop :=
  exists w1 w2 w3,
    hd = u "【" ++ w1 ++ [x] ++ w2 ++ u "구" ++ w3 ++ u "】" /\
    all isSpace w1 /\ all isSpace w2 /\ all isSpace w3.

(** [s] begins with a section heading 【 X 구 】 with [x] for X, and with
    the heading 【 매 매 목 록 】 of the trade list. *)
Definition heading_at (x : N) (s : str) : Prop :=
  exists w1 w2 w3 post,
    s = u "【" ++ w1 ++ [x] ++ w2 ++ u "구" ++ w3 ++ u "】" ++ post /\
    all isSpace w1 /\ all isSpace w2 /\ all isSpace w3.

Definition trade_heading_at (s : str) : Prop :=
  exists w1 w2 w3 w4 w5 post,
    s = u "【" ++ w1 ++ u "매" ++ w2 ++ u "매" ++ w3 ++ u "목" ++ w4 ++ u "록"
          ++ w5 ++ u "】" ++ post /\
    all isSpace w1 /\ all isSpace w2 /\ all isSpace w3 /\ all isSpace w4 /\
    all isSpace w5.

(** [s] begins with the label 고유번호, white space and a digit or hyphen:
    an occurrence of the unique-number pattern. *)
Definition unique_number_at (s : str) : Prop :=
  exists w x post,
    s = u "고유번호" ++ w ++ x :: post /\
    all isSpace w /\ isDigit x || (x =? 45)%N = true.

(** The text holds an amount under [label]: the label, white space, and
    금, a run of digits and commas, 원 written without gaps. *)
Definition labelled_amount_in (label text : str) : Prop :=
  exists pre w n post,
    text = pre ++ label ++ w ++ u "금" ++ n ++ u "원" ++ post /\
    all isSpace w /\ amount_digits n.

(** A date as the patterns read it: four digits, 년, one or two digits, 월,
    one or two digits, 일, with white space allowed after 년 and 월. *)
Definition date_form (d : str) : Prop :=
  exists y w1 mo w2 dd,
    d = y ++ u "년" ++ w1 ++ mo ++ u "월" ++ w2 ++ dd ++ u "일" /\
    length y = 4 /\ all isDigit y /\ all isSpace w1 /\
    (length mo = 1 \/ length mo = 2) /\ all isDigit mo /\ all isSpace w2 /\
    (length dd = 1 \/ length dd = 2) /\ all isDigit dd.

(** Receipt date and receipt number of an entry: both empty, or a date and
    digits followed by 호. *)
Definition receipt_ok (date number : str) : Prop :=
  (date = [] /\ number = []) \/
  (date_form date /\
   exists num, number = num ++ u "호" /\ num <> [] /\ all isDigit num).

(** [p] occurs in [text]. *)
Definition occurs (p text : str) : Prop :=
  exists pre post, text = pre ++ p ++ post.

(** The keywords of the structure pattern and of the building-type pattern,
    in the order of their alternatives. *)
Definition structureNames : list str :=
  map u ["철근콘크리트구조"; "철골철근콘크리트구조"; "목구조"; "벽돌구조";
         "블록구조"; "경량철골구조"]%string.

Definition buildingTypeNames : list str :=
  map u ["아파트"; "오피스텔"; "다세대주택"; "다가구주택"; "단독주택";
         "근린생활시설"; "제2종근린생활시설"; "상가"; "업무시설"; "주택"]%string.

(** A field read by a keyword pattern: the keyword found in the text, or
    empty when the text holds none of the keywords. *)
Definition keyword_of (names : list str) (text value : str) : Prop :=
  (In value names /\ occurs value text) \/
  (value = [] /\ forall k, In k names -> ~ occurs k text).

(** A floor label: 지, 지하, 옥탑 or nothing, then digits, then 층. *)
Definition floor_label (f : str) : Prop :=
  exists prefix ds,
    f = prefix ++ ds ++ u "층" /\
    In prefix [[]; u "지"; u "지하"; u "옥탑"] /\ ds <> [] /\ all isDigit ds.

(** [r] has no white space at either end. *)
Definition trimmed (r : str) : Prop :=
  stops isSpace r /\ stops isSpace (rev r).

(** The text extraction of [pdfBuffer] does not come back: pdf2json reports
    its data and [decodeURIComponent] throws on one of the text runs. *)
Definition extraction_hangs (env : Env) (pdfBuffer : Buffer) : bool :=
  match pdf2json env pdfBuffer with
  | Some pdfData =>
    match textOfPdfData env pdfData with Some _ => false | None => true end
  | None => false
  end.

(** The upload [f] passes the checks of POST: its lower-cased name ends in
    .pdf and it reports at most 10 MB. *)
Definition accepted (host : Host) (f : File.t) : Prop :=
  endsWith (toLowerCase host (File.name f)) (u ".pdf") = true /\
  (File.size f <= 10 * 1024 * 1024)%N.

(** The POST request does not come back: its form is never delivered, or
    it uploads an accepted File whose text extraction hangs. *)
Definition upload_hangs (host : Host) (env : Env) (request : NextRequest)
  : Prop :=
  formData request = Diverged \/
  exists fd f,
    formData request = Returned fd /\
    get fd (u "file") = Some (FileValue f) /\ accepted host f /\
    extraction_hangs env (File.bytes f) = true.

(** The parse response shows no unmasked document: it carries no data, or
    the masked form of what the parser read from [bytes]. *)
Definition demo_result (env : Env) (content : Buffer) (r : ParseResponse.t)
  : Prop :=
  ParseResponse.isDemo r = true /\
  (ParseResponse.data r = None \/
   exists d, parseRegistryPDF env content = Returned d /\
             ParseResponse.data r = Some (maskForDemo d)).

(** A resident registration number as the register prints it: six digits,
    a hyphen and seven asterisks. *)
Definition masked_resident (id : str) : Prop :=
  exists ds, id = ds ++ u "-*******" /\ length ds = 6 /\ all isDigit ds.

(** A business registration number: 3, 2 and 5 digits joined by hyphens. *)
Definition business_number (id : str) : Prop :=
  exists a b d,
    id = a ++ u "-" ++ b ++ u "-" ++ d /\
    length a = 3 /\ length b = 2 /\ length d = 5 /\
    all isDigit a /\ all isDigit b /\ all isDigit d.

(** Name and identity number of a party of an entry: the name holds no
    digit and no white space at its ends, and the number, when there is one,
    has one of the forms [ids]. *)
Definition party_fields (ids : str -> Prop) (name : str) (number : option str)
  : Prop :=
  all (fun x => negb (isDigit x)) name /\ trimmed name /\
  forall id, number = Some id -> ids id.

(** The common form of the five party patterns:
    "/<label>\s+(<name>+)\s+(<id>)?\s*\n?\s*(<address>{0,})/". *)
Definition partyRe (label : string) (name : cset) (id : regex) (address : cset)
  : regex :=
  seqs [txt label; plus ws; Group 1 (plus (Chr name)); plus ws;
        opt (Group 2 id); many ws; opt (chr NL); many ws;
        Group 3 (many (Chr address))].

(** What follows the registration type in the ownership row pattern. *)
Definition rowTailA : regex :=
  seqs [few anyc;
        Look (alts [seqs [chr NL; rankRe; plus ws];
                    seqs [chr NL; txt "【"];
                    seqs [chr NL; many ws; Eoi]])].

(** The registration types of the ownership row pattern after its first
    two alternatives. *)
Definition typesA_later : list str :=
  map u ["가압류"; "압류"; "경매개시결정"; "임의경매개시결정"; "강제경매개시결정";
         "가처분"; "등기말소"; "소유권이전등기말소"]%string.

(** What the lookahead that ends the ownership section accepts. *)
Definition endOfA : regex := alts [headingB; headingTrade; Eoi].







(** ** Sample inputs *)

Definition isHexDigit (c : N) : bool :=
  (isDigit c || ((65 <=? c) && (c <=? 70)) || ((97 <=? c) && (c <=? 102)))%N.

(** Where [decodeURIComponent] throws on a text of the samples: at a '%'
    that is not followed by two hexadecimal digits. *)
Fixpoint malformedEscape (s : str) : bool :=
  match s with
  | [] => false
  | c :: t =>
    ((c =? 37)%N &&
     negb (match t with
           | a :: b :: _ => isHexDigit a && isHexDigit b
           | _ => false
           end))
    || malformedEscape t
  end.

(** The decoder of the sample environment: it throws as
    [decodeURIComponent] does on a malformed escape; the sample texts hold
    no escape to decode, so every other text is returned as it is. *)
Definition sampleDecode (s : str) : option str :=
  if malformedEscape s then None else Some s.

(** An environment whose extractors give fixed results. *)
Definition sampleEnv (fromPdf2json : option PdfData.t) (fromPdfParse : option str)
  : Env :=
  {| pdf2json := fun _ => fromPdf2json;
     pdfParse := fun _ => fromPdfParse;
     decodeURIComponent := sampleDecode;
     now := u "2026-01-01T00:00:00.000Z";
     uuidv4 := u "00000000-0000-4000-8000-000000000000";
     base64 := fun s => s;
     fetch_ok := fun _ => Some true |}.


(** An ownership section whose second row has a registration type that
    begins with a keyword of the row pattern and goes on. *)
Definition extendedTypeText : str := unlines [
  "【 갑 구 】 ( 소유권에 관한 사항 )";
  "1 소유권보존 2010년3월5일 제1234호 소유자 홍길동 800101-*******";
  "2 소유권이전청구권가등기 2011년1월1일 제22호";
  "3 가압류 2012년5월6일 제777호 청구금액 금50,000,000원";
  ""]%string.

(** Two ownership rows carrying the same rank number. *)
Definition duplicateRankText : str := unlines [
  "【 갑 구 】";
  "1 소유권보존 2010년3월5일 제1234호";
  "1 소유권이전 2012년3월5일 제5678호";
  ""]%string.

(** A cancelling row that names a rank number no entry has. *)
Definition danglingBackrefText : str := unlines [
  "【 갑 구 】";
  "1 소유권보존 2010년3월5일 제1234호";
  "2 등기말소 2011년3월5일 제1235호 7번가압류등기말소";
  "【 을 구 】";
  "1 근저당권설정 2014년1월2일 제9호";
  "2 근저당권이전 2015년1월2일 제10호 1번근저당권설정등기말소";
  ""]%string.

(** The match of the row pattern on the second ownership row of
    [danglingBackrefText]. *)
Definition danglingRow : rx_match :=
  {| m_text := u "2 등기말소 2011년3월5일 제1235호 7번가압류등기말소";
     m_caps := set_cap 2 (u "등기말소") (set_cap 1 (u "2") no_caps);
     m_rest := [NL] |}.

(** The title page of a land register, without section headings. *)
Definition landOnlyText : str := unlines [
  "등기사항전부증명서(말소사항 포함) - 토지 -";
  "고유번호 1350-1996-047446";
  "[토지] 경기도 안산시 단원구 선부동 1";
  "【 표 제 부 】 ( 토지의 표시 )";
  ""]%string.

(** What pdf2json reports for a scanned document: one page, no text runs. *)
Definition scannedPdf : PdfData.t :=
  {| PdfData.Pages := Some [ {| PdfData.Texts := Some [] |} ] |}.

(** A page of text as pdf2json reports it: one run per line. *)
Definition pdfOfLines (ls : list string) : PdfData.t :=
  {| PdfData.Pages := Some [
       {| PdfData.Texts := Some (map (fun x =>
            {| PdfData.R := Some [ {| PdfData.T := Some (u x) |} ] |}) ls) |} ] |}.

(** A register whose first ownership row names its owner. *)
Definition ownerPdf : PdfData.t := pdfOfLines [
  "고유번호 1184-2024-012345";
  "[건물] 서울특별시 강남구 역삼동 1";
  "【 갑 구 】 ( 소유권에 관한 사항 )";
  "1 소유권보존 2010년3월5일 제1234호 소유자 홍길동 800101-*******";
  "서울특별시 강남구 역삼동 1";
  "【 을 구 】 ( 소유권 이외의 권리에 관한 사항 )";
  "1 근저당권설정 2014년1월2일 제9호 채권최고액 금120,000,000원"]%string.

(** The register of [ownerPdf] with a share note that holds a per-cent
    sign, which is no URI escape. *)
Definition shareNotePdf : PdfData.t := pdfOfLines [
  "고유번호 1184-2024-012345";
  "[건물] 서울특별시 강남구 역삼동 1";
  "【 갑 구 】 ( 소유권에 관한 사항 )";
  "1 소유권보존 2010년3월5일 제1234호 소유자 홍길동 800101-*******";
  "지분 50% 소유";
  "【 을 구 】 ( 소유권 이외의 권리에 관한 사항 )";
  "1 근저당권설정 2014년1월2일 제9호 채권최고액 금120,000,000원"]%string.

(** A register whose first ownership row is an attachment with a claim
    amount and a creditor. *)
Definition attachmentText : str := unlines [
  "【 갑 구 】 ( 소유권에 관한 사항 )";
  "1 가압류 2012년5월6일 제777호 청구금액 금50,000,000원 채권자 김철수 700101-*******";
  "서울 중구";
  "【 을 구 】 ( 소유권 이외의 권리에 관한 사항 )";
  "1 근저당권설정 2014년1월2일 제9호 채권최고액 금120,000,000원";
  ""]%string.

(** An ownership section with a row that cancels a transfer. *)
Definition transferCancellationText : str := unlines [
  "【 갑 구 】";
  "2 소유권이전 2012년3월5일 제5678호";
  "3 소유권이전등기말소 2013년3월5일 제9호 2번소유권이전등기말소";
  ""]%string.

(** A runtime whose lower-casing acts on the letters A to Z. *)
Definition sampleHost : Host :=
  {| toLowerCase :=
       map (fun c => if ((65 <=? c) && (c <=? 90))%N then (c + 32)%N else c);
     randomUUID := u "11111111-1111-4111-8111-111111111111" |}.

(** Two small files, one named as a PDF (in upper case) and one not. *)
Definition sampleScan : File.t :=
  {| File.name := u "Scan.PDF"; File.size := 3; File.bytes := [37; 80; 68]%N |}.

Definition sampleImage : File.t :=
  {| File.name := u "scan.png"; File.size := 3; File.bytes := [37; 80; 68]%N |}.

(** A form that uploads [f] with the paid flag and a webhook address. *)
Definition formOf (f : File.t) : FormData :=
  [(u "file", FileValue f);
   (u "isPaid", StringValue (u "true"));
   (u "webhookUrl", StringValue (u "https://hook"))].

Definition sampleUpload : NextRequest :=
  {| formData := Returned (formOf sampleScan) |}.

Definition sampleImageUpload : NextRequest :=
  {| formData := Returned (formOf sampleImage) |}.

(** A row as the loop of a section sees it: the text of one match. *)
Definition rowOf (ls : list string) : rx_match :=
  {| m_text := unlines ls; m_caps := no_caps; m_rest := [] |}.

Definition transferRow : rx_match := rowOf [
  "2 소유권이전 2020년1월2일 제100호 2019년 12월 30일 매매";
  "소유자 홍길동 800101-*******";
  "서울특별시 중구 세종대로 1"
]%string.

Definition leaseRow : rx_match := rowOf [
  "3 주택임차권 2021년3월4일 제200호";
  "임차보증금 금50,000,000원";
  "임대차계약일자 2019년 5월 6일";
  "확정일자 2019년 5월 7일";
  "임차권자 김철수 900202-*******";
  "서울특별시 중구 세종대로 2"
]%string.

(** ** Properties of the matcher *)

Section MatcherFacts.

Lemma star_loop_S (R : Type) g
    (body : str -> caps -> (str -> caps -> option R) -> option R) k f s c :
  star_loop g body k (S f) s c =
  if g then
    body s c (fun s' c' =>
      if length s' <? length s then star_loop g body k f s' c' else None)
    <|> k s c
  else
    k s c
    <|> body s c (fun s' c' =>
          if length s' <? length s then star_loop g body k f s' c' else None).
Proof. reflexivity. Qed.

#[local] Arguments star_loop : simpl never.

Lemma Matches_suffix r : forall s c s' c',
  Matches r s c s' c' -> exists w, s = w ++ s'.
Proof.
  induction r; simpl; intros s c s' c' H.
  - destruct H as [-> _]. now exists [].
  - destruct H as (x & -> & _). now exists [x].
  - destruct H as (s1 & c1 & H1 & H2).
    apply IHr1 in H1 as [w1 ->]. apply IHr2 in H2 as [w2 ->].
    exists (w1 ++ w2). now rewrite app_assoc.
  - destruct H as [H | H]; eauto.
  - induction H as [| s c s1 c1 s2 c2 H1 _ _ IH].
    + now exists [].
    + apply IHr in H1 as [w1 ->]. destruct IH as [w2 ->].
      exists (w1 ++ w2). now rewrite app_assoc.
  - destruct H as (c1 & H & _). eauto.
  - destruct H as [-> _]. now exists [].
  - destruct H as (-> & -> & _). now exists [].
Qed.

Lemma Matches_length r s c s' c' :
  Matches r s c s' c' -> length s' <= length s.
Proof.
  intros H. apply Matches_suffix in H as [w ->]. rewrite length_app. lia.
Qed.

Lemma consumed_app (w s' : str) : consumed (w ++ s') s' = w.
Proof.
  unfold consumed. rewrite length_app.
  replace (length w + length s' - length s') with (length w + 0) by lia.
  rewrite firstn_app_2. simpl. now rewrite app_nil_r.
Qed.

Lemma groupless_caps r : groupless r = true ->
  forall s c s' c', Matches r s c s' c' -> c' = c.
Proof.
  induction r; simpl; intros G s c s' c' H; try discriminate.
  - now destruct H.
  - now destruct H as (x & _ & _ & ->).
  - apply andb_prop in G as [G1 G2]. destruct H as (s1 & c1 & H1 & H2).
    apply (IHr1 G1) in H1. apply (IHr2 G2) in H2. congruence.
  - apply andb_prop in G as [G1 G2]. destruct H as [H | H]; eauto.
  - induction H as [| s c s1 c1 s2 c2 H1 _ _ IH]; [reflexivity|].
    apply (IHr G) in H1. congruence.
  - destruct H as (_ & s1 & H). eauto.
  - now destruct H as (_ & _ & ->).
Qed.

(** Soundness: whatever the matcher hands to its continuation is a match. *)
Lemma star_loop_sound (R : Type) g (r : regex)
    (body : str -> caps -> (str -> caps -> option R) -> option R)
    (k : str -> caps -> option R) :
  (forall s c k' x, body s c k' = Some x ->
     exists s' c', Matches r s c s' c' /\ k' s' c' = Some x) ->
  forall fuel s c x, star_loop g body k fuel s c = Some x ->
  exists s' c', iter (Matches r) s c s' c' /\ k s' c' = Some x.
Proof.
  intros Hbody.
  induction fuel as [| f IH]; intros s c x H; [discriminate|].
  rewrite star_loop_S in H.
  assert (Hround : forall y,
    body s c (fun s' c' =>
      if length s' <? length s then star_loop g body k f s' c' else None) = Some y ->
    exists s' c', iter (Matches r) s c s' c' /\ k s' c' = Some y).
  { intros y Hy. apply Hbody in Hy as (s1 & c1 & M1 & K1).
    destruct (Nat.ltb_spec (length s1) (length s)) as [Hlt | _]; [|discriminate].
    apply IH in K1 as (s2 & c2 & M2 & K2).
    exists s2, c2. split; [|exact K2]. eapply iter_round; eauto. }
  assert (Hstop : forall y, k s c = Some y ->
    exists s' c', iter (Matches r) s c s' c' /\ k s' c' = Some y).
  { intros y Hy. exists s, c. split; [constructor | exact Hy]. }
  destruct g.
  - destruct (body s c _) eqn:E.
    + inversion H; subst. now apply Hround.
    + now apply Hstop.
  - destruct (k s c) eqn:E.
    + inversion H; subst. now apply Hstop.
    + now apply Hround.
Qed.

Lemma rmatch_sound r : forall (R : Type) s c (k : str -> caps -> option R) x,
  rmatch r s c k = Some x ->
  exists s' c', Matches r s c s' c' /\ k s' c' = Some x.
Proof.
  induction r; simpl; intros R s c k x H.
  - eauto.
  - destruct s as [| y s0]; [discriminate|].
    destruct (cmem cs y) eqn:E; [|discriminate]. eauto 7.
  - apply IHr1 in H as (s1 & c1 & M1 & H). apply IHr2 in H as (s2 & c2 & M2 & H).
    eauto 7.
  - destruct (rmatch r1 s c k) eqn:E.
    + inversion H; subst. apply IHr1 in E as (s1 & c1 & M & K). eauto.
    + apply IHr2 in H as (s1 & c1 & M & K). eauto.
  - eapply star_loop_sound in H; eauto.
  - apply IHr in H as (s1 & c1 & M & K). eauto 7.
  - destruct (rmatch r s c _) eqn:E; [|discriminate].
    apply IHr in E as (s1 & c1 & M & K). inversion K; subst. eauto 7.
  - destruct s; [eauto 7 | discriminate].
Qed.

(** Completeness: the matcher fails only when no match has a continuation
    that succeeds. *)
Lemma star_loop_complete (R : Type) g (r : regex)
    (body : str -> caps -> (str -> caps -> option R) -> option R)
    (k : str -> caps -> option R) :
  (forall s c s' c' k', Matches r s c s' c' -> k' s' c' <> None ->
     body s c k' <> None) ->
  forall s c s' c', iter (Matches r) s c s' c' -> k s' c' <> None ->
  forall fuel, length s < fuel -> star_loop g body k fuel s c <> None.
Proof.
  intros Hbody s c s' c' H. induction H as [s c | s c s1 c1 s2 c2 M1 Hlt _ IH];
    intros K fuel Hf; (destruct fuel as [| f]; [lia|]); rewrite star_loop_S.
  - destruct g.
    + destruct (body s c _); [discriminate | exact K].
    + destruct (k s c); [discriminate | now elim K].
  - assert (Hround :
      body s c (fun s' c' =>
        if length s' <? length s then star_loop g body k f s' c' else None)
      <> None).
    { eapply Hbody; [exact M1|].
      destruct (Nat.ltb_spec (length s1) (length s)); [|lia].
      apply IH; [exact K | lia]. }
    destruct g.
    + destruct (body s c _); [discriminate | now elim Hround].
    + destruct (k s c); [discriminate | exact Hround].
Qed.

Lemma rmatch_complete r : plain_looks r = true ->
  forall (R : Type) s c s' c' (k : str -> caps -> option R),
  Matches r s c s' c' -> k s' c' <> None -> rmatch r s c k <> None.
Proof.
  induction r; simpl; intros W R s c s' c' k M K.
  - now destruct M as [-> ->].
  - destruct M as (x & -> & -> & ->). exact K.
  - apply andb_prop in W as [W1 W2]. destruct M as (s1 & c1 & M1 & M2).
    eapply IHr1; eauto.
  - apply andb_prop in W as [W1 W2].
    destruct (rmatch r1 s c k) eqn:E; [discriminate|].
    destruct M as [M | M]; [|eauto].
    exfalso. eapply IHr1; eauto.
  - eapply star_loop_complete; eauto.
  - destruct M as (c1 & M & ->). eapply IHr; eauto.
  - apply andb_prop in W as [G W]. destruct M as (-> & s1 & M).
    destruct (rmatch r s c (fun _ c0 => Some c0)) as [c2|] eqn:E.
    + apply rmatch_sound in E as (s2 & c3 & M2 & E). inversion E; subst.
      apply (groupless_caps _ G) in M. apply (groupless_caps _ G) in M2.
      congruence.
    + exfalso. eapply (IHr W); [exact M | | exact E]. discriminate.
  - destruct M as (-> & -> & ->). exact K.
Qed.

End MatcherFacts.

(** ** Searching and looping *)

Section SearchFacts.

Variable r : regex.

Lemma match_at_sound s m :
  match_at r s = Some m ->
  exists s' c', Matches r s no_caps s' c' /\ m = mk_match s s' c'.
Proof.
  unfold match_at. intros H. apply rmatch_sound in H as (s' & c' & M & E).
  inversion E. eauto.
Qed.

Lemma match_at_complete s s' c' :
  plain_looks r = true -> Matches r s no_caps s' c' -> match_at r s <> None.
Proof.
  intros W M. unfold match_at. eapply rmatch_complete; eauto. discriminate.
Qed.

Lemma search_sound s m :
  search r s = Some m ->
  exists pre s0 s' c',
    s = pre ++ s0 /\ Matches r s0 no_caps s' c' /\ m = mk_match s0 s' c' /\
    (forall p1 p2, pre = p1 ++ p2 -> p2 <> [] -> match_at r (p2 ++ s0) = None).
Proof.
  induction s as [| x s IH]; simpl; intros H.
  - destruct (match_at r []) eqn:E; [|discriminate]. inversion H; subst.
    apply match_at_sound in E as (s' & c' & M & ->).
    exists [], [], s', c'. repeat split; auto.
    intros p1 p2 E2 N. symmetry in E2. apply app_eq_nil in E2 as [_ ->]. now elim N.
  - destruct (match_at r (x :: s)) eqn:E.
    + inversion H; subst. apply match_at_sound in E as (s' & c' & M & ->).
      exists [], (x :: s), s', c'. repeat split; auto.
      intros p1 p2 E2 N. symmetry in E2. apply app_eq_nil in E2 as [_ ->]. now elim N.
    + apply IH in H as (pre & s0 & s' & c' & -> & M & -> & L).
      exists (x :: pre), s0, s', c'. repeat split; auto.
      intros p1 p2 E2 N. destruct p1 as [| y p1]; simpl in E2.
      * subst p2. exact E.
      * inversion E2; subst. eapply L; eauto.
Qed.

Lemma search_none s :
  search r s = None -> forall pre s0, s = pre ++ s0 -> match_at r s0 = None.
Proof.
  induction s as [| x s IH]; simpl; intros H pre s0 E.
  - symmetry in E. apply app_eq_nil in E as [_ ->].
    destruct (match_at r []); [discriminate | reflexivity].
  - destruct (match_at r (x :: s)) eqn:E1; [discriminate|].
    destruct pre as [| y pre]; simpl in E.
    + now subst s0.
    + inversion E; subst. eapply IH; eauto.
Qed.

Lemma search_complete pre s0 s' c' :
  plain_looks r = true -> Matches r s0 no_caps s' c' ->
  search r (pre ++ s0) <> None.
Proof.
  intros W M H. eapply search_none in H; [|reflexivity].
  eapply match_at_complete; eauto.
Qed.

(** The search settles on the first position where a match starts. *)
Lemma search_leftmost pre s0 m :
  (forall p1 p2, pre = p1 ++ p2 -> p2 <> [] -> match_at r (p2 ++ s0) = None) ->
  match_at r s0 = Some m -> search r (pre ++ s0) = Some m.
Proof.
  induction pre as [| x pre IH]; intros L H.
  - simpl. destruct s0; simpl; now rewrite H.
  - assert (E : match_at r (x :: pre ++ s0) = None)
      by (apply (L [] (x :: pre)); [reflexivity | discriminate]).
    simpl. rewrite E.
    apply IH; [|exact H]. intros p1 p2 -> N. apply (L (x :: p1) p2); auto.
Qed.

Lemma exec_loop_In : forall fuel s ms m,
  exec_loop fuel r s = Some ms -> In m ms ->
  exists s0 s' c', Matches r s0 no_caps s' c' /\ m = mk_match s0 s' c'.
Proof.
  induction fuel as [| f IH]; simpl; intros s ms m H I; [discriminate|].
  destruct (search r s) as [m0|] eqn:E.
  - destruct (exec_loop f r (m_rest m0)) as [ms'|] eqn:E2; [|discriminate].
    inversion H; subst. destruct I as [<- | I].
    + apply search_sound in E as (pre & s0 & s' & c' & _ & M & -> & _). eauto.
    + eapply IH; eauto.
  - inversion H; subst. destruct I.
Qed.

(** A loop over a pattern whose matches consume input comes to an end. *)
Lemma exec_loop_total :
  consuming r ->
  forall fuel s, length s < fuel -> exists ms, exec_loop fuel r s = Some ms.
Proof.
  intros C. induction fuel as [| f IH]; intros s Hf; [lia|]. simpl.
  destruct (search r s) as [m0|] eqn:E; [|eauto].
  apply search_sound in E as (pre & s0 & s' & c' & -> & M & -> & _). simpl.
  apply C in M. rewrite length_app in Hf.
  destruct (IH s') as [ms ->]; [lia|]. simpl. eauto.
Qed.

Lemma exec_all_total :
  consuming r -> forall s, exists ms, exec_all r s = Some ms.
Proof. intros C s. apply exec_loop_total; auto. Qed.

End SearchFacts.

(** ** The shape of what the patterns match *)

Section Shapes.

Lemma startsWith_spec p : forall s,
  startsWith p s = true <-> exists post, s = p ++ post.
Proof.
  induction p as [| x p IH]; intros s; simpl.
  - split; eauto.
  - destruct s as [| y s].
    + split; [discriminate | intros [post E]; discriminate].
    + rewrite andb_true_iff, N.eqb_eq, IH. split.
      * intros [-> [post ->]]. eauto.
      * intros [post E]. inversion E; subst. eauto.
Qed.

Lemma includes_spec p : forall s,
  includes s p = true <-> exists pre post, s = pre ++ p ++ post.
Proof.
  induction s as [| y s IH]; simpl; rewrite orb_true_iff, startsWith_spec.
  - split.
    + intros [[post E] | F]; [|discriminate]. exists [], post. exact E.
    + intros (pre & post & E). left. destruct pre; [eauto | discriminate].
  - rewrite IH. split.
    + intros [[post E] | (pre & post & E)].
      * exists [], post. exact E.
      * exists (y :: pre), post. simpl. now rewrite E.
    + intros ([| x pre] & post & E); simpl in E.
      * left. eauto.
      * right. inversion E; subst. eauto.
Qed.

Lemma Matches_chr a s c s' c' :
  Matches (chr a) s c s' c' <-> s = a :: s' /\ c' = c.
Proof.
  simpl. split.
  - intros (x & -> & E & ->). rewrite orb_false_r in E.
    apply N.eqb_eq in E. now subst.
  - intros [-> ->]. exists a. now rewrite N.eqb_refl.
Qed.

Lemma Matches_lit t : forall s c s' c',
  Matches (lit t) s c s' c' <-> s = t ++ s' /\ c' = c.
Proof.
  induction t as [| a t IH]; intros s c s' c'.
  - simpl. intuition congruence.
  - change (lit (a :: t)) with (Seq (chr a) (lit t)).
    cbn [Matches]. split.
    + intros (s1 & c1 & H1 & H2). apply Matches_chr in H1 as [-> ->].
      apply IH in H2 as [-> ->]. auto.
    + intros [-> ->]. exists (t ++ s'), c. split.
      * now apply Matches_chr.
      * now apply IH.
Qed.

Lemma Matches_txt t s c s' c' :
  Matches (txt t) s c s' c' <-> s = u t ++ s' /\ c' = c.
Proof. apply Matches_lit. Qed.

Lemma Matches_star_chr g cs s c s' c' :
  Matches (Star g (Chr cs)) s c s' c' <->
  exists w, s = w ++ s' /\ all (cmem cs) w /\ c' = c.
Proof.
  cbn [Matches]. split.
  - intros H. induction H as [s c | s c s1 c1 s2 c2 H1 _ _ IH].
    + exists []. repeat split. constructor.
    + destruct H1 as (x & -> & E & ->). destruct IH as (w & -> & A & ->).
      exists (x :: w). repeat split. now constructor.
  - intros (w & -> & A & ->). induction A as [| x w E _ IH].
    + constructor.
    + eapply iter_round; [| | exact IH].
      * exists x. auto.
      * simpl. lia.
Qed.

Lemma Matches_plus_chr cs s c s' c' :
  Matches (plus (Chr cs)) s c s' c' <->
  exists w, s = w ++ s' /\ w <> [] /\ all (cmem cs) w /\ c' = c.
Proof.
  unfold plus. split.
  - intros (s1 & c1 & (x & -> & E & ->) & H).
    apply Matches_star_chr in H as (w & -> & A & ->).
    exists (x :: w). split; [reflexivity|]. split; [discriminate|].
    split; [now constructor | reflexivity].
  - intros (w & -> & N & A & ->). destruct w as [| x w]; [now elim N|].
    inversion A; subst. exists (w ++ s'), c. split.
    + exists x. auto.
    + apply Matches_star_chr. eauto.
Qed.

Lemma Matches_alts_lit L : L <> [] -> forall s c s' c',
  Matches (alts (map lit L)) s c s' c' <->
  exists t, In t L /\ s = t ++ s' /\ c' = c.
Proof.
  induction L as [| t L IH]; intros N s c s' c'; [now elim N|].
  destruct L as [| t2 L].
  - simpl alts. rewrite Matches_lit. split.
    + intros [-> ->]. exists t. simpl. auto.
    + intros (t' & [<- | []] & -> & ->). auto.
  - change (alts (map lit (t :: t2 :: L)))
      with (Alt (lit t) (alts (map lit (t2 :: L)))).
    cbn [Matches]. rewrite Matches_lit, IH by discriminate. split.
    + intros [[-> ->] | (t' & I & -> & ->)].
      * exists t. simpl. auto.
      * exists t'. simpl In. auto.
    + intros (t' & [<- | I] & -> & ->); [auto|]. right. eauto.
Qed.

Lemma dg_digit x : cmem (OneOf [Dig]) x = true <-> isDigit x = true.
Proof. simpl. now rewrite orb_false_r. Qed.

Lemma all_dg w : all (cmem (OneOf [Dig])) w <-> all isDigit w.
Proof. split; apply Forall_impl; intros a; apply dg_digit. Qed.

Lemma rankRe_shape s c s' c' :
  Matches rankRe s c s' c' -> exists w, s = w ++ s' /\ rank_form w /\ c' = c.
Proof.
  unfold rankRe. cbn [Matches seqs fold_right opt].
  intros (s1 & c1 & H1 & s2 & c2 & H2 & -> & ->).
  apply Matches_plus_chr in H1 as (a & -> & Na & Aa & ->). apply all_dg in Aa.
  destruct H2 as [(s3 & c3 & H3 & s4 & c4 & H4 & -> & ->) | [-> ->]].
  - apply Matches_txt in H3 as [-> ->].
    apply Matches_plus_chr in H4 as (b & -> & Nb & Ab & ->). apply all_dg in Ab.
    exists (a ++ 45%N :: b). split; [now rewrite <- app_assoc|]. split; [|reflexivity].
    exists a, (45%N :: b). repeat split; auto. right. eauto.
  - exists a. repeat split. exists a, []. rewrite app_nil_r. auto.
Qed.

Lemma rank_form_nonempty w : rank_form w -> w <> [].
Proof.
  intros (a & b & -> & N & _). destruct a; [now elim N | discriminate].
Qed.

(** The common frame of the two row patterns: rank, white space, one of the
    registration types, then lazily up to a lookahead. *)
Lemma row_shape types ahead s s' c' :
  types <> [] -> groupless ahead = true ->
  Matches (seqs [Group 1 rankRe; plus ws; Group 2 (alts (map lit types));
                 few anyc; Look ahead]) s no_caps s' c' ->
  (exists rank ty, c' 1 = Some rank /\ c' 2 = Some ty /\
     rank_form rank /\ In ty types) /\ length s' < length s.
Proof.
  intros N G. cbn [Matches seqs fold_right].
  intros (s1 & c1 & (c0 & H1 & ->) & s2 & c2 & H2 & s3 & c3 &
          (c2' & H3 & ->) & s4 & c4 & H4 & s5 & c5 & (-> & s6 & H5) & -> & ->).
  apply rankRe_shape in H1 as (rank & -> & F & ->).
  apply Matches_plus_chr in H2 as (w2 & -> & N2 & _ & ->).
  apply (Matches_alts_lit N) in H3 as (ty & I & -> & ->).
  apply Matches_star_chr in H4 as (w4 & -> & _ & ->).
  apply (groupless_caps _ G) in H5. subst c5.
  rewrite !consumed_app. split.
  - exists rank, ty. repeat split; auto.
  - apply rank_form_nonempty in F. destruct rank; [now elim F|].
    simpl. rewrite !length_app. lia.
Qed.

Lemma rowPatternA_shape s s' c' :
  Matches rowPatternA s no_caps s' c' ->
  (exists rank ty, c' 1 = Some rank /\ c' 2 = Some ty /\
     rank_form rank /\ In ty typesA) /\ length s' < length s.
Proof. apply row_shape; [discriminate | reflexivity]. Qed.

Lemma rowPatternB_shape s s' c' :
  Matches rowPatternB s no_caps s' c' ->
  (exists rank ty, c' 1 = Some rank /\ c' 2 = Some ty /\
     rank_form rank /\ In ty typesB) /\ length s' < length s.
Proof. apply row_shape; [discriminate | reflexivity]. Qed.

End Shapes.

(** ** The rows of the two sections *)

Section Rows.

Lemma rowPatternA_consuming : consuming rowPatternA.
Proof. intros s s' c' M. now apply rowPatternA_shape in M. Qed.

Lemma rowPatternB_consuming : consuming rowPatternB.
Proof. intros s s' c' M. now apply rowPatternB_shape in M. Qed.

Lemma rowsA_total text : exists ms, rowsA text = Some ms.
Proof.
  unfold rowsA. destruct (search sectionARe text); [|eauto].
  apply exec_all_total, rowPatternA_consuming.
Qed.

Lemma rowsB_total text : exists ms, rowsB text = Some ms.
Proof.
  unfold rowsB. destruct (search sectionBRe text); [|eauto].
  apply exec_all_total, rowPatternB_consuming.
Qed.

Lemma rowsA_shape text ms m :
  rowsA text = Some ms -> In m ms ->
  exists rank ty, grp m 1 = Some rank /\ grp m 2 = Some ty /\
    rank_form rank /\ In ty typesA.
Proof.
  unfold rowsA. destruct (search sectionARe text).
  - intros H I. eapply exec_loop_In in H as (s0 & s' & c' & M & ->); [|exact I].
    now apply rowPatternA_shape in M.
  - intros H I. inversion H; subst. destruct I.
Qed.

Lemma rowsB_shape text ms m :
  rowsB text = Some ms -> In m ms ->
  exists rank ty, grp m 1 = Some rank /\ grp m 2 = Some ty /\
    rank_form rank /\ In ty typesB.
Proof.
  unfold rowsB. destruct (search sectionBRe text).
  - intros H I. eapply exec_loop_In in H as (s0 & s' & c' & M & ->); [|exact I].
    now apply rowPatternB_shape in M.
  - intros H I. inversion H; subst. destruct I.
Qed.

Lemma sectionA_entries text :
  exists es, parseSectionAEntries text = Some es /\
    Forall (fun e => rank_form (SectionAEntry.rankNumber e) /\
                     In (SectionAEntry.registrationType e) typesA) es.
Proof.
  unfold parseSectionAEntries. destruct (rowsA_total text) as [ms E].
  rewrite E. simpl. eexists. split; [reflexivity|].
  apply Forall_forall. intros e I. apply in_map_iff in I as (m & <- & I).
  destruct (@rowsA_shape _ _ _ E I) as (rank & ty & E1 & E2 & F & T).
  unfold entryA. simpl. now rewrite E1, E2.
Qed.

Lemma sectionB_entries text :
  exists es, parseSectionBEntries text = Some es /\
    Forall (fun e => rank_form (SectionBEntry.rankNumber e) /\
                     In (SectionBEntry.registrationType e) typesB) es.
Proof.
  unfold parseSectionBEntries. destruct (rowsB_total text) as [ms E].
  rewrite E. simpl. eexists. split; [reflexivity|].
  apply Forall_forall. intros e I. apply in_map_iff in I as (m & <- & I).
  destruct (@rowsB_shape _ _ _ E I) as (rank & ty & E1 & E2 & F & T).
  unfold entryB. simpl. now rewrite E1, E2.
Qed.

Lemma parseRegistryText_returns env text :
  exists a b,
    parseSectionAEntries text = Some a /\ parseSectionBEntries text = Some b /\
    parseRegistryText env text =
      Returned {| RegistryData.uniqueNumber := extractUniqueNumber text;
                  RegistryData.propertyType := detectPropertyType text;
                  RegistryData.propertyAddress := extractAddress text;
                  RegistryData.titleInfo := parseTitleSection text;
                  RegistryData.sectionA := a;
                  RegistryData.sectionB := b;
                  RegistryData.rawText := text;
                  RegistryData.parseDate := now env |}.
Proof.
  destruct (sectionA_entries text) as (a & Ea & _).
  destruct (sectionB_entries text) as (b & Eb & _).
  exists a, b. unfold parseRegistryText. now rewrite Ea, Eb.
Qed.

Lemma typesA_nonempty ty : In ty typesA -> ty <> [].
Proof. intros I ->. vm_compute in I. intuition discriminate. Qed.

Lemma typesB_nonempty ty : In ty typesB -> ty <> [].
Proof. intros I ->. vm_compute in I. intuition discriminate. Qed.

End Rows.

(** ** C1: a row of an unlisted registration type *)


(** ** C3: registration types and rank numbers of the final lists *)

(** C3, as stated, fails: two rows with the same rank number give two
    entries with that rank number. *)
Lemma duplicate_rank_numbers_kept :
  exists d,
    parseRegistryText (sampleEnv None None) duplicateRankText = Returned d /\
    map SectionAEntry.rankNumber (RegistryData.sectionA d) = [u "1"; u "1"] /\
    ~ NoDup (map SectionAEntry.rankNumber (RegistryData.sectionA d)).
Proof.
  eexists. split; [vm_compute; reflexivity|]. split; [vm_compute; reflexivity|].
  intros H. vm_compute in H. inversion H as [| x l0 N _]; subst.
  apply N. left. reflexivity.
Qed.

(** C3, amended: for every input text the document is returned and every
    entry of its two lists has a non-empty registration type (nothing makes
    rank numbers unique). *)
Theorem registration_types_nonempty : forall env text,
  exists d,
    parseRegistryText env text = Returned d /\
    Forall (fun e => SectionAEntry.registrationType e <> [])
           (RegistryData.sectionA d) /\
    Forall (fun e => SectionBEntry.registrationType e <> [])
           (RegistryData.sectionB d).
Proof.
  intros env text.
  destruct (parseRegistryText_returns env text) as (a & b & Ea & Eb & E).
  destruct (sectionA_entries text) as (a' & Ea' & Fa).
  destruct (sectionB_entries text) as (b' & Eb' & Fb).
  rewrite Ea in Ea'. rewrite Eb in Eb'. inversion Ea'; inversion Eb'; subst.
  eexists. split; [exact E|]. simpl. split.
  - eapply Forall_impl; [|exact Fa]. intros e [_ I]. now apply typesA_nonempty.
  - eapply Forall_impl; [|exact Fb]. intros e [_ I]. now apply typesB_nonempty.
Qed.

(** ** C2: cancellation marks and back-references *)

Section Backref.

Lemma notNL_mem x : cmem notNL x = true <-> negb (x =? NL)%N = true.
Proof. simpl. now rewrite orb_false_r. Qed.

Lemma cancelRe_matches info post :
  backref_phrase info ->
  Matches cancelRe (info ++ post) no_caps post (set_cap 1 info no_caps).
Proof.
  intros (n & mid & -> & Hn & D & L).
  unfold cancelRe. cbn [Matches seqs fold_right].
  exists no_caps. split; [|now rewrite consumed_app].
  rewrite <- !app_assoc.
  exists (u "번" ++ mid ++ malso ++ post), no_caps. split.
  { apply Matches_plus_chr. exists n. repeat split; auto. now apply all_dg. }
  exists (mid ++ malso ++ post), no_caps. split.
  { now apply Matches_txt. }
  exists (malso ++ post), no_caps. split.
  { apply Matches_star_chr. exists mid. repeat split.
    eapply Forall_impl; [|exact L]. intros a. apply notNL_mem. }
  exists post, no_caps. split; [now apply Matches_txt | auto].
Qed.

Lemma cancelRe_shape s s' c' :
  Matches cancelRe s no_caps s' c' ->
  exists info, s = info ++ s' /\ c' 1 = Some info /\ backref_phrase info.
Proof.
  unfold cancelRe. cbn [Matches seqs fold_right].
  intros (c1 & (s1 & c2 & H1 & s2 & c3 & H2 & s3 & c4 & H3 & s4 & c5 & H4
                & -> & ->) & ->).
  apply Matches_plus_chr in H1 as (n & -> & Hn & D & ->). apply all_dg in D.
  apply Matches_txt in H2 as [-> ->].
  apply Matches_star_chr in H3 as (mid & -> & L & ->).
  apply Matches_txt in H4 as [-> ->].
  assert (E : n ++ u "번" ++ mid ++ u "말소" ++ s4
              = (n ++ u "번" ++ mid ++ malso) ++ s4)
    by (unfold malso; now rewrite <- !app_assoc).
  exists (n ++ u "번" ++ mid ++ malso). split; [exact E|]. split.
  - unfold set_cap. cbn [Nat.eqb]. f_equal. rewrite E. apply consumed_app.
  - exists n, mid. repeat split; auto.
    eapply Forall_impl; [|exact L]. intros a. apply notNL_mem.
Qed.

Lemma backref_includes_malso text :
  has_backref text -> includes text malso = true.
Proof.
  intros (pre & info & post & -> & n & mid & -> & _).
  apply includes_spec. exists (pre ++ n ++ u "번" ++ mid), post.
  now rewrite <- !app_assoc.
Qed.

Lemma backref_found text :
  has_backref text ->
  exists info,
    grp_of (search cancelRe text) 1 = Some info /\ backref_phrase info /\
    exists pre post, text = pre ++ info ++ post.
Proof.
  intros (pre & info & post & -> & B).
  destruct (search cancelRe (pre ++ info ++ post)) as [m|] eqn:E.
  - apply search_sound in E as (p & s0 & s' & c' & Et & M & -> & _).
    apply cancelRe_shape in M as (info' & -> & G & B').
    exists info'. split; [exact G|]. split; [exact B'|]. eauto.
  - exfalso. revert E. eapply search_complete; [reflexivity|].
    apply cancelRe_matches. exact B.
Qed.

End Backref.

(** C2, as stated, fails: in [danglingBackrefText] the ownership row of rank
    2 reads "7번가압류등기말소" and no entry has rank 7, yet the reference of
    its entry is set, and to the phrase, not to "7"; the encumbrance row of
    rank 2 names the earlier rank 1 and its entry has the mark only. *)
Lemma dangling_backref_is_recorded :
  option_map (map (fun e => (SectionAEntry.rankNumber e,
                             SectionAEntry.isCancelled e,
                             SectionAEntry.cancellationInfo e)))
             (parseSectionAEntries danglingBackrefText)
    = Some [(u "1", false, None);
            (u "2", true, Some (u "7번가압류등기말소"))] /\
  option_map (map (fun e => (SectionBEntry.rankNumber e,
                             SectionBEntry.isCancelled e)))
             (parseSectionBEntries danglingBackrefText)
    = Some [(u "1", Some false); (u "2", Some true)].
Proof. split; vm_compute; reflexivity. Qed.

(** [danglingRow] is the second row match of that text. *)
Example danglingRow_is_second_row :
  option_map (map (fun m => (m_text m, grp m 1, grp m 2, m_rest m)))
             (rowsA danglingBackrefText)
  = Some [(u "1 소유권보존 2010년3월5일 제1234호",
           Some (u "1"), Some (u "소유권보존"),
           NL :: u "2 등기말소 2011년3월5일 제1235호 7번가압류등기말소" ++ [NL]);
          (m_text danglingRow, grp danglingRow 1, grp danglingRow 2,
           m_rest danglingRow)].
Proof. vm_compute. reflexivity. Qed.

(** C2, amended: for every row match whose text contains a phrase
    "N번 ... 말소", the ownership entry built from it is marked cancelled and
    its [cancellationInfo] is set to such a phrase of the row text, whether or
    not an entry of rank N exists; the encumbrance entry built from it is
    marked cancelled (it has no property for a reference). *)
Theorem backref_marks_entry : forall m,
  has_backref (m_text m) ->
  SectionAEntry.isCancelled (entryA m) = true /\
  (exists info,
     SectionAEntry.cancellationInfo (entryA m) = Some info /\
     backref_phrase info /\
     exists pre post, m_text m = pre ++ info ++ post) /\
  SectionBEntry.isCancelled (entryB m) = Some true.
Proof.
  intros m H. pose proof (backref_includes_malso H) as I.
  destruct (backref_found H) as (info & E & B & P).
  unfold entryA, entryB.
  cbn [SectionAEntry.isCancelled SectionAEntry.cancellationInfo
       SectionBEntry.isCancelled].
  rewrite I. repeat split; eauto.
Qed.

Lemma backref_marks_entry_witness :
  has_backref (m_text danglingRow) /\
  SectionAEntry.isCancelled (entryA danglingRow) = true /\
  (exists info,
     SectionAEntry.cancellationInfo (entryA danglingRow) = Some info /\
     backref_phrase info /\
     exists pre post, m_text danglingRow = pre ++ info ++ post) /\
  SectionBEntry.isCancelled (entryB danglingRow) = Some true.
Proof.
  assert (H : has_backref (m_text danglingRow)).
  { exists (u "2 등기말소 2011년3월5일 제1235호 "), (u "7번가압류등기말소"), [].
    split; [reflexivity|].
    exists (u "7"), (u "가압류등기"). split; [reflexivity|].
    split; [discriminate|]. split; repeat constructor. }
  split; [exact H | exact (backref_marks_entry danglingRow H)].
Defined.

(** ** C7: parseAmount *)

Section Amount.

Ltac split_cmp :=
  repeat (match goal with
          | |- context [(?a <=? ?b)%N] => destruct (N.leb_spec a b)
          | |- context [(?a =? ?b)%N] => destruct (N.eqb_spec a b)
          end; try lia); simpl; auto.

Lemma dc_not_space x : isDigit x || (x =? 44)%N = true -> isSpace x = false.
Proof.
  unfold isDigit, isSpace. rewrite orb_true_iff, andb_true_iff, !N.leb_le, N.eqb_eq.
  intros H. assert (B : (44 <= x <= 57)%N) by lia. clear H. split_cmp.
Qed.

Lemma space_not_dc x : isSpace x = true -> isDigit x || (x =? 44)%N = false.
Proof.
  intros H. destruct (isDigit x || (x =? 44)%N) eqn:E; [|reflexivity].
  apply dc_not_space in E. congruence.
Qed.

Lemma span_unique p : forall l1 l2 r1 r2,
  all p l1 -> all p l2 -> stops p r1 -> stops p r2 ->
  l1 ++ r1 = l2 ++ r2 -> l1 = l2 /\ r1 = r2.
Proof.
  induction l1 as [| x l1 IH]; intros [| y l2] r1 r2 A1 A2 S1 S2 E; simpl in E.
  - auto.
  - subst r1. inversion A2; subst. simpl in S1. congruence.
  - subst r2. inversion A1; subst. simpl in S2. congruence.
  - inversion E; subst. inversion A1; inversion A2; subst.
    destruct (IH l2 r1 r2) as [-> ->]; auto.
Qed.

Lemma won_unit : u "원" = [50896%N].
Proof. reflexivity. Qed.

Lemma geum_unit : u "금" = [44552%N].
Proof. reflexivity. Qed.

Lemma dc_mem x :
  cmem (OneOf [Dig; Ch 44%N]) x = true <-> isDigit x || (x =? 44)%N = true.
Proof. simpl. now rewrite orb_false_r. Qed.

Lemma spc_mem x : cmem (OneOf [Spc]) x = true <-> isSpace x = true.
Proof. simpl. now rewrite orb_false_r. Qed.

Lemma all_spc w : all (cmem (OneOf [Spc])) w <-> all isSpace w.
Proof. split; apply Forall_impl; intros a; apply spc_mem. Qed.

Lemma all_dc w :
  all (cmem (OneOf [Dig; Ch 44%N])) w <-> all (fun x => isDigit x || (x =? 44)%N) w.
Proof. split; apply Forall_impl; intros a; apply dc_mem. Qed.

(** What a match of the amount pattern is. *)
Lemma amountRe_shape s s' c' :
  Matches amountRe s no_caps s' c' <->
  exists w1 n w2,
    s = u "금" ++ w1 ++ n ++ w2 ++ u "원" ++ s' /\
    all isSpace w1 /\ all isSpace w2 /\ amount_digits n /\
    c' = set_cap 1 n no_caps.
Proof.
  unfold amountRe. cbn [Matches seqs fold_right]. split.
  - intros (s1 & c1 & H1 & s2 & c2 & H2 & s3 & c3 & (c4 & H3 & ->) &
            s4 & c5 & H4 & s5 & c6 & H5 & -> & ->).
    apply Matches_txt in H1 as [-> ->].
    apply Matches_star_chr in H2 as (w1 & -> & A1 & ->). apply all_spc in A1.
    apply Matches_plus_chr in H3 as (n & -> & Hn & A2 & ->). apply all_dc in A2.
    apply Matches_star_chr in H4 as (w2 & -> & A3 & ->). apply all_spc in A3.
    apply Matches_txt in H5 as [-> ->].
    exists w1, n, w2. rewrite consumed_app. repeat split; auto.
  - intros (w1 & n & w2 & -> & A1 & A3 & [Hn A2] & ->).
    exists (w1 ++ n ++ w2 ++ u "원" ++ s'), no_caps. split; [now apply Matches_txt|].
    exists (n ++ w2 ++ u "원" ++ s'), no_caps. split.
    { apply Matches_star_chr. exists w1. repeat split. now apply all_spc. }
    exists (w2 ++ u "원" ++ s'), (set_cap 1 n no_caps). split.
    { exists no_caps. split; [|now rewrite consumed_app].
      apply Matches_plus_chr. exists n. repeat split; auto. now apply all_dc. }
    exists (u "원" ++ s'), (set_cap 1 n no_caps). split.
    { apply Matches_star_chr. exists w2. repeat split. now apply all_spc. }
    exists s', (set_cap 1 n no_caps). split; [now apply Matches_txt | auto].
Qed.

Lemma amount_at_matches s n :
  amount_at s n -> exists s', Matches amountRe s no_caps s' (set_cap 1 n no_caps).
Proof.
  intros (w1 & w2 & post & -> & A1 & A2 & D). exists post.
  apply amountRe_shape. exists w1, n, w2. auto.
Qed.

Lemma matches_amount_at s s' c' :
  Matches amountRe s no_caps s' c' ->
  exists n, amount_at s n /\ c' 1 = Some n.
Proof.
  intros M. apply amountRe_shape in M as (w1 & n & w2 & -> & A1 & A2 & D & ->).
  exists n. split; [|reflexivity]. exists w1, w2, s'. auto.
Qed.

(** At one position the pattern fits around one number only. *)
Lemma amount_at_unique s n n' : amount_at s n -> amount_at s n' -> n = n'.
Proof.
  intros (w1 & w2 & post & -> & A1 & A2 & [Hn D])
         (w1' & w2' & post' & E & A1' & A2' & [Hn' D']).
  apply app_inv_head in E.
  assert (S1 : forall (m v q : str), m <> [] ->
             all (fun x => isDigit x || (x =? 44)%N) m -> stops isSpace (m ++ v ++ q)).
  { intros [| x m] v q Hm Am; [now elim Hm|]. inversion Am; subst. simpl.
    now apply dc_not_space. }
  assert (S2 : forall (v q : str), all isSpace v ->
             stops (fun x => isDigit x || (x =? 44)%N) (v ++ u "원" ++ q)).
  { intros [| x v] q Av; [reflexivity|]. inversion Av; subst. simpl.
    now apply space_not_dc. }
  apply span_unique with (p := isSpace) in E as [_ E]; auto.
  apply span_unique with (p := fun x => isDigit x || (x =? 44)%N) in E as [E _];
    auto.
Qed.

Lemma strip_commas_digits n :
  all (fun x => isDigit x || (x =? 44)%N) n ->
  all isDigit (strip_commas n).
Proof.
  intros A. induction A as [| x n Hx _ IH]; simpl; [constructor|].
  destruct (N.eqb_spec x 44) as [-> | Hne]; simpl; [exact IH|].
  constructor; [|exact IH]. now rewrite orb_false_r in Hx.
Qed.

Lemma strip_commas_nonempty n :
  Exists (fun x => isDigit x = true) n -> strip_commas n <> [].
Proof.
  intros E. induction E as [x n Hx | x n _ IH]; simpl.
  - destruct (N.eqb_spec x 44) as [-> | _]; [discriminate Hx | discriminate].
  - destruct (negb (x =? 44)%N); [discriminate | exact IH].
Qed.

Lemma digit_neither x :
  isDigit x = true -> isSpace x = false /\ (x =? 45)%N = false /\ (x =? 43)%N = false.
Proof.
  intros H. split.
  - apply dc_not_space. now rewrite H.
  - unfold isDigit in H. rewrite andb_true_iff, !N.leb_le in H. split_cmp.
Qed.

Lemma takeWhile_all (p : N -> bool) w : all p w -> takeWhile p w = w.
Proof. intros A. induction A as [| x w Hx _ IH]; simpl; [|rewrite Hx, IH]; auto. Qed.

(** [parseInt] on a non-empty run of digits that denotes a value up to 2^53. *)
Lemma parseInt_digits ds :
  ds <> [] -> all isDigit ds -> (digits_value ds <= 2 ^ 53)%Z ->
  (0 <= digits_value ds)%Z ->
  parseInt ds = Int (digits_value ds).
Proof.
  intros Hd A B P. destruct ds as [| x ds]; [now elim Hd|].
  inversion A as [| ? ? Hx Ads]; subst.
  destruct (digit_neither _ Hx) as (Sx & Mx & Px).
  unfold parseInt. cbn [dropWhile]. rewrite Sx, Mx, Px.
  rewrite (takeWhile_all A). unfold of_integer.
  rewrite Z.abs_eq by exact P.
  destruct (Z.leb_spec (digits_value (x :: ds)) (2 ^ 53)); [reflexivity | lia].
Qed.

Lemma digits_value_nonneg ds : (0 <= digits_value ds)%Z.
Proof.
  unfold digits_value. assert (G : forall acc, (0 <= acc)%Z ->
    (0 <= fold_left (fun a c => a * 10 + digit_value c) ds acc)%Z).
  { induction ds as [| x ds IH]; simpl; intros acc Ha; [exact Ha|].
    apply IH. unfold digit_value. lia. }
  apply G. lia.
Qed.

End Amount.

Lemma parseAmount_search text :
  text <> [] ->
  parseAmount text =
  match search amountRe text with
  | Some m =>
    match grp m 1 with
    | Some g => Some (parseInt (strip_commas g))
    | None => Some NaN
    end
  | None => None
  end.
Proof. destruct text; [intros H; now elim H | reflexivity]. Qed.

Lemma no_match_no_amount s n : match_at amountRe s = None -> ~ amount_at s n.
Proof.
  intros E A. apply amount_at_matches in A as [s' M].
  revert E. eapply match_at_complete; [reflexivity | exact M].
Qed.

(** C7, as stated, fails: a text with two occurrences of the pattern gives
    the amount of the first one only, although it contains "금 2원" too; and
    an amount above 2^53 comes back as the nearest double, not as the integer
    of its digits. *)
Lemma parseAmount_takes_first_occurrence :
  amount_at (u "금 2원") (u "2") /\
  parseAmount (u "금 1원 " ++ u "금 2원") = Some (Int 1) /\
  Some (Int 1) <> Some (Int (digits_value (strip_commas (u "2")))) /\
  parseAmount (u "금 9007199254740993원") = Some (Rounded 9007199254740993).
Proof.
  split; [|split; [vm_compute; reflexivity |
                   split; [vm_compute; discriminate | vm_compute; reflexivity]]].
  exists (u " "), [], []. split; [reflexivity|].
  split; [repeat constructor|]. split; [constructor|].
  split; [discriminate | repeat constructor].
Qed.

(** C7, amended: [parseAmount] reads the leftmost occurrence of 금, white
    space, a run N of digits and commas, white space, 원; when N has a digit
    and denotes a value up to 2^53, the result is the integer whose digits are
    N with the commas removed; a text with no occurrence gives no amount. *)
Theorem parseAmount_leftmost_occurrence :
  (forall pre s n,
     amount_at s n ->
     (forall p1 p2 n', pre = p1 ++ p2 -> p2 <> [] -> ~ amount_at (p2 ++ s) n') ->
     Exists (fun x => isDigit x = true) n ->
     (digits_value (strip_commas n) <= 2 ^ 53)%Z ->
     parseAmount (pre ++ s) = Some (Int (digits_value (strip_commas n)))) /\
  (forall text,
     (forall pre s n, text = pre ++ s -> ~ amount_at s n) ->
     parseAmount text = None).
Proof.
  split.
  - intros pre s n A L D B.
    destruct (amount_at_matches A) as [s' M].
    destruct (match_at amountRe s) as [m|] eqn:E;
      [|exfalso; revert E; eapply match_at_complete; [reflexivity | exact M]].
    assert (G : grp m 1 = Some n).
    { apply match_at_sound in E as (s2 & c2 & M2 & ->).
      apply matches_amount_at in M2 as (n2 & A2 & G). simpl.
      now rewrite (amount_at_unique A A2). }
    assert (Hs : search amountRe (pre ++ s) = Some m).
    { apply search_leftmost; [|exact E]. intros p1 p2 Ep Hp.
      destruct (match_at amountRe (p2 ++ s)) as [m2|] eqn:E2; [|reflexivity].
      apply match_at_sound in E2 as (s2 & c2 & M2 & _).
      apply matches_amount_at in M2 as (n2 & A2 & _).
      exfalso. eapply L; eauto. }
    rewrite parseAmount_search, Hs, G.
    + f_equal. destruct A as (_ & _ & _ & _ & _ & _ & [_ An]).
      apply parseInt_digits; auto using strip_commas_digits,
        strip_commas_nonempty, digits_value_nonneg.
    + destruct A as (w1 & w2 & post & -> & _). rewrite geum_unit.
      destruct pre; discriminate.
  - intros text H. destruct text as [| x text]; [reflexivity|].
    rewrite parseAmount_search by discriminate.
    destruct (search amountRe (x :: text)) as [m|] eqn:E; [|reflexivity].
    apply search_sound in E as (pre & s0 & s' & c' & E & M & _).
    apply matches_amount_at in M as (n & A & _).
    exfalso. eapply H; eauto.
Qed.

Lemma parseAmount_leftmost_occurrence_witness :
  parseAmount (u "청구금액 " ++ u "금50,000,000원") = Some (Int 50000000) /\
  parseAmount (u "매매") = None.
Proof.
  split.
  - apply (proj1 parseAmount_leftmost_occurrence
             (u "청구금액 ") (u "금50,000,000원") (u "50,000,000")).
    + exists [], [], []. split; [reflexivity|].
      split; [constructor|]. split; [constructor|].
      split; [discriminate | repeat constructor].
    + intros p1 p2 n' E Hp. apply no_match_no_amount.
      destruct p1 as [| a1 [| a2 [| a3 [| a4 [| a5 [| a6 p1]]]]]];
        vm_compute in E; inversion E; subst; try reflexivity; now elim Hp.
    + repeat constructor.
    + vm_compute. discriminate.
  - apply (proj2 parseAmount_leftmost_occurrence (u "매매")).
    intros pre s n E. apply no_match_no_amount.
    destruct pre as [| a1 [| a2 [| a3 pre]]];
      vm_compute in E; inversion E; subst; reflexivity.
Defined.

(** A run of commas alone fits the pattern and gives [NaN], not "no
    amount". *)
Example parseAmount_commas_only : parseAmount (u "금,원") = Some NaN.
Proof. reflexivity. Qed.

(** ** C6: a section whose heading is missing *)

Section Headings.

Lemma heading_shape t s c s' c' :
  Matches (seqs [txt "【"; many ws; txt t; many ws; txt "구"; many ws; txt "】"])
          s c s' c' ->
  exists w1 w2 w3,
    s = u "【" ++ w1 ++ u t ++ w2 ++ u "구" ++ w3 ++ u "】" ++ s' /\
    all isSpace w1 /\ all isSpace w2 /\ all isSpace w3.
Proof.
  cbn [Matches seqs fold_right].
  intros (s1 & c1 & H1 & s2 & c2 & H2 & s3 & c3 & H3 & s4 & c4 & H4 &
          s5 & c5 & H5 & s6 & c6 & H6 & s7 & c7 & H7 & -> & ->).
  apply Matches_txt in H1 as [-> ->].
  apply Matches_star_chr in H2 as (w1 & -> & A1 & ->). apply all_spc in A1.
  apply Matches_txt in H3 as [-> ->].
  apply Matches_star_chr in H4 as (w2 & -> & A2 & ->). apply all_spc in A2.
  apply Matches_txt in H5 as [-> ->].
  apply Matches_star_chr in H6 as (w3 & -> & A3 & ->). apply all_spc in A3.
  apply Matches_txt in H7 as [-> ->].
  exists w1, w2, w3. auto.
Qed.

Lemma sectionA_found_heading text m :
  search sectionARe text = Some m -> has_heading (one "갑") text.
Proof.
  intros E. apply search_sound in E as (pre & s0 & s' & c' & -> & M & _).
  unfold sectionARe in M. cbn [Matches seqs fold_right] in M.
  destruct M as (s1 & c1 & H1 & _).
  apply heading_shape in H1 as (w1 & w2 & w3 & -> & A).
  exists pre, w1, w2, w3, s1. split; [reflexivity | exact A].
Qed.

Lemma sectionB_found_heading text m :
  search sectionBRe text = Some m -> has_heading (one "을") text.
Proof.
  intros E. apply search_sound in E as (pre & s0 & s' & c' & -> & M & _).
  unfold sectionBRe in M. cbn [Matches seqs fold_right] in M.
  destruct M as (s1 & c1 & H1 & _).
  apply heading_shape in H1 as (w1 & w2 & w3 & -> & A).
  exists pre, w1, w2, w3, s1. split; [reflexivity | exact A].
Qed.

Lemma no_headingA_no_entries text :
  ~ has_heading (one "갑") text -> parseSectionAEntries text = Some [].
Proof.
  intros H. unfold parseSectionAEntries, rowsA.
  destruct (search sectionARe text) eqn:E; [|reflexivity].
  elim H. eapply sectionA_found_heading; eauto.
Qed.

Lemma no_headingB_no_entries text :
  ~ has_heading (one "을") text -> parseSectionBEntries text = Some [].
Proof.
  intros H. unfold parseSectionBEntries, rowsB.
  destruct (search sectionBRe text) eqn:E; [|reflexivity].
  elim H. eapply sectionB_found_heading; eauto.
Qed.

(** A text without the opening mark 【 has no heading. *)
Lemma no_mark_no_heading x text :
  ~ In (one "【") text -> ~ has_heading x text.
Proof.
  intros H (pre & w1 & w2 & w3 & post & -> & _). apply H.
  apply in_or_app. right. left. reflexivity.
Qed.

End Headings.

(** C6, as stated, fails: for a text without headings both lists are empty
    and nothing is thrown, but the returned object has no [errors] property
    in which a SectionNotFound could be recorded. *)
Lemma missing_section_not_recorded :
  (exists d,
     parseRegistryText (sampleEnv None None) landOnlyText = Returned d /\
     RegistryData.sectionA d = [] /\ RegistryData.sectionB d = []) /\
  ~ In "errors"%string RegistryData.keys.
Proof.
  split.
  - eexists. split; [vm_compute; reflexivity|]. split; reflexivity.
  - vm_compute. intuition discriminate.
Qed.

(** C6, amended: for every input text the document is returned (nothing is
    thrown); when the text has no 갑구 heading its ownership list is empty, and
    when it has no 을구 heading its encumbrance list is empty. *)
Theorem missing_heading_gives_empty_list : forall env text,
  exists d,
    parseRegistryText env text = Returned d /\
    (~ has_heading (one "갑") text -> RegistryData.sectionA d = []) /\
    (~ has_heading (one "을") text -> RegistryData.sectionB d = []).
Proof.
  intros env text.
  destruct (parseRegistryText_returns env text) as (a & b & Ea & Eb & E).
  eexists. split; [exact E|]. simpl. split; intros H.
  - rewrite (no_headingA_no_entries H) in Ea. now inversion Ea.
  - rewrite (no_headingB_no_entries H) in Eb. now inversion Eb.
Qed.

Lemma missing_heading_gives_empty_list_witness :
  exists d,
    parseRegistryText (sampleEnv None None) (u "등기사항전부증명서") = Returned d /\
    RegistryData.sectionA d = [] /\ RegistryData.sectionB d = [].
Proof.
  destruct (missing_heading_gives_empty_list
              (sampleEnv None None) (u "등기사항전부증명서")) as (d & E & Ha & Hb).
  exists d. split; [exact E|]. split.
  - apply Ha. apply no_mark_no_heading. vm_compute. intuition discriminate.
  - apply Hb. apply no_mark_no_heading. vm_compute. intuition discriminate.
Defined.

(** ** C8: the property type *)

(** C8, as stated, fails: no input is classified as land; the title page of
    a land register is classified as a building. *)
Lemma land_is_never_detected :
  ~ (exists text, PropertyType_name (detectPropertyType text) = "land"%string) /\
  detectPropertyType landOnlyText = building.
Proof.
  split; [|reflexivity]. intros [text H].
  destruct (detectPropertyType text); discriminate H.
Qed.

(** C8, amended: the property type of the result and of its title info is
    one of building and aggregate_building: aggregate_building exactly when
    the text contains 집합건물, and building otherwise. *)
Theorem property_type_by_aggregate_marker : forall env text,
  exists d,
    parseRegistryText env text = Returned d /\
    RegistryTitleInfo.propertyType (RegistryData.titleInfo d)
      = RegistryData.propertyType d /\
    (RegistryData.propertyType d = aggregate_building <->
       exists pre post, text = pre ++ u "집합건물" ++ post) /\
    (RegistryData.propertyType d = building <->
       ~ exists pre post, text = pre ++ u "집합건물" ++ post).
Proof.
  intros env text.
  destruct (parseRegistryText_returns env text) as (a & b & _ & _ & E).
  eexists. split; [exact E|]. simpl. split; [reflexivity|].
  unfold detectPropertyType.
  pose proof (includes_spec (u "집합건물") text) as S.
  destruct (includes text (u "집합건물")); split; split.
  - intros _. now apply S.
  - reflexivity.
  - discriminate.
  - intros H. elim H. now apply S.
  - discriminate.
  - intros H. apply S in H. discriminate.
  - intros _ H. apply S in H. discriminate.
  - reflexivity.
Qed.

(** The outcome of the call by what the extractors do. *)
Lemma parseRegistryPDF_cases env pdfBuffer :
  match pdf2json env pdfBuffer with
  | Some pdfData =>
    match textOfPdfData env pdfData with
    | Some text =>
      exists d, parseRegistryPDF env pdfBuffer = Returned d /\
                RegistryData.rawText d = text
    | None => parseRegistryPDF env pdfBuffer = Diverged
    end
  | None =>
    match pdfParse env pdfBuffer with
    | Some text =>
      exists d, parseRegistryPDF env pdfBuffer = Returned d /\
                RegistryData.rawText d = text
    | None => parseRegistryPDF env pdfBuffer = Threw (ErrorObj extractionFailed)
    end
  end.
Proof.
  unfold parseRegistryPDF, extractText.
  destruct (pdf2json env pdfBuffer) as [pdfData|].
  - destruct (textOfPdfData env pdfData) as [text|]; [|reflexivity].
    destruct (parseRegistryText_returns env text) as (a & b & _ & _ & ->).
    eexists. split; reflexivity.
  - destruct (pdfParse env pdfBuffer) as [text|]; [|reflexivity].
    destruct (parseRegistryText_returns env text) as (a & b & _ & _ & ->).
    eexists. split; reflexivity.
Qed.

(** The call returns a document, throws the extraction error, or, exactly
    when the extraction hangs, does not come back. *)
Lemma parseRegistryPDF_outcome env pdfBuffer :
  if extraction_hangs env pdfBuffer then
    parseRegistryPDF env pdfBuffer = Diverged
  else
    (exists d, parseRegistryPDF env pdfBuffer = Returned d) \/
    parseRegistryPDF env pdfBuffer = Threw (ErrorObj extractionFailed).
Proof.
  pose proof (parseRegistryPDF_cases env pdfBuffer) as H.
  unfold extraction_hangs. destruct (pdf2json env pdfBuffer) as [pdfData|].
  - destruct (textOfPdfData env pdfData); [|exact H].
    destruct H as (d & E & _). left. eauto.
  - destruct (pdfParse env pdfBuffer); [|now right].
    destruct H as (d & E & _). left. eauto.
Qed.

(** A call whose extraction comes back answers: with the document, masked
    unless paid for, or with the failure. *)
Lemma parseAndProcessPDF_returns env pdfBuffer isPaid webhookUrl :
  extraction_hangs env pdfBuffer = false ->
  exists result sent,
    parseAndProcessPDF env pdfBuffer isPaid webhookUrl
      = Returned (result, sent) /\
    ParseResponse.isDemo result = negb isPaid /\
    (ParseResponse.data result = None \/
     exists d, parseRegistryPDF env pdfBuffer = Returned d /\
       ParseResponse.data result =
         Some (if isPaid then PartialRegistryData.of_full d
               else maskForDemo d)) /\
    (truthy webhookUrl = false -> sent = []).
Proof.
  intros Hh. pose proof (parseRegistryPDF_outcome env pdfBuffer) as H.
  rewrite Hh in H. unfold parseAndProcessPDF.
  destruct H as [[d ->] | ->];
    (do 2 eexists; split; [reflexivity|]; split; [reflexivity|]; split).
  - right. exists d. split; [reflexivity|]. cbn. now destruct isPaid.
  - destruct webhookUrl as [[| c url]|]; [reflexivity | discriminate | reflexivity].
  - now left.
  - destruct webhookUrl as [[| c url]|]; [reflexivity | discriminate | reflexivity].
Qed.

(** A call whose extraction hangs does not come back. *)
Lemma parseAndProcessPDF_hangs env pdfBuffer isPaid webhookUrl :
  extraction_hangs env pdfBuffer = true ->
  parseAndProcessPDF env pdfBuffer isPaid webhookUrl = Diverged.
Proof.
  intros Hh. pose proof (parseRegistryPDF_outcome env pdfBuffer) as H.
  rewrite Hh in H. unfold parseAndProcessPDF. now rewrite H.
Qed.

(** ** C5: when the parse call throws *)

(** C5, as stated, fails: for a scanned document pdf2json reports pages
    without text runs; the call then returns a document whose text is the
    page-break line and whose lists are empty. *)
Lemma scanned_document_is_returned :
  exists d,
    parseRegistryPDF (sampleEnv (Some scannedPdf) None) [] = Returned d /\
    RegistryData.rawText d = pageBreak /\
    RegistryData.sectionA d = [] /\ RegistryData.sectionB d = [].
Proof. eexists. split; [vm_compute; reflexivity|]. repeat split. Qed.

(** C5, amended: the call throws exactly when pdf2json fails and the
    pdf-parse fallback fails too, and what it throws is an Error with the
    message "PDF 텍스트 추출에 실패했습니다."; it returns a document of the
    extracted text, whatever that text is, when pdf2json fails and pdf-parse
    gives a text, and when pdf2json gives its data and every run of it
    decodes. *)
Theorem throws_iff_both_extractors_fail : forall env pdfBuffer,
  (forall e,
     parseRegistryPDF env pdfBuffer = Threw e <->
     pdf2json env pdfBuffer = None /\ pdfParse env pdfBuffer = None /\
     e = ErrorObj extractionFailed) /\
  (forall text,
     pdf2json env pdfBuffer = None -> pdfParse env pdfBuffer = Some text ->
     exists d, parseRegistryPDF env pdfBuffer = Returned d /\
               RegistryData.rawText d = text) /\
  (forall pdfData text,
     pdf2json env pdfBuffer = Some pdfData ->
     textOfPdfData env pdfData = Some text ->
     exists d, parseRegistryPDF env pdfBuffer = Returned d /\
               RegistryData.rawText d = text).
Proof.
  intros env pdfBuffer.
  pose proof (parseRegistryPDF_cases env pdfBuffer) as H.
  destruct (pdf2json env pdfBuffer) as [pdfData|].
  - split; [|split].
    + intros e. split; [|intros (F & _); discriminate].
      destruct (textOfPdfData env pdfData).
      * destruct H as (d & -> & _). discriminate.
      * rewrite H. discriminate.
    + discriminate.
    + intros pdfData' text E T. inversion E; subst pdfData'.
      now rewrite T in H.
  - destruct (pdfParse env pdfBuffer) as [text|].
    + split; [|split].
      * intros e. split; [|intros (_ & F & _); discriminate].
        destruct H as (d & -> & _). discriminate.
      * intros text' _ E. inversion E; subst text'. exact H.
      * discriminate.
    + split; [|split].
      * intros e. rewrite H. split.
        -- intros E. inversion E. auto.
        -- intros (_ & _ & ->). reflexivity.
      * discriminate.
      * discriminate.
Qed.

Lemma throws_iff_both_extractors_fail_witness :
  exists d,
    parseRegistryPDF (sampleEnv (Some ownerPdf) None) [] = Returned d /\
    RegistryData.uniqueNumber d = u "1184-2024-012345".
Proof.
  destruct (proj2 (proj2 (throws_iff_both_extractors_fail
              (sampleEnv (Some ownerPdf) None) [])) ownerPdf _
              eq_refl eq_refl) as (d & E & R).
  exists d. split; [exact E|].
  vm_compute in E. inversion E. reflexivity.
Defined.

(** ** C9: whether parseAndProcessPDF answers *)

(** C9 fails on the code at [shareNotePdf]: pdf2json reports the text runs,
    [decodeURIComponent] throws on the run that holds a per-cent sign, the
    dataReady handler ends without settling the promise, and the call neither
    returns a response nor throws, whatever the paid flag and the webhook
    URL. *)
Theorem parseAndProcessPDF_hangs_on_malformed_run :
  decodeURIComponent (sampleEnv (Some shareNotePdf) None) (u "지분 50% 소유")
    = None /\
  textOfPdfData (sampleEnv (Some shareNotePdf) None) shareNotePdf = None /\
  parseRegistryPDF (sampleEnv (Some shareNotePdf) None) [] = Diverged /\
  forall isPaid webhookUrl,
    parseAndProcessPDF (sampleEnv (Some shareNotePdf) None) []
      isPaid webhookUrl = Diverged.
Proof.
  split; [reflexivity|]. split; [reflexivity|]. split; [reflexivity|].
  intros isPaid webhookUrl. now apply parseAndProcessPDF_hangs.
Qed.

(** ** C10: what a demo response shows *)

(** With the paid flag off, the data of a successful response is the masked
    document. *)
Lemma demo_data_is_masked env pdfBuffer webhookUrl d :
  parseRegistryPDF env pdfBuffer = Returned d ->
  exists resp sent,
    parseAndProcessPDF env pdfBuffer false webhookUrl = Returned (resp, sent) /\
    ParseResponse.data resp = Some (maskForDemo d).
Proof.
  intros H. unfold parseAndProcessPDF. rewrite H. do 2 eexists.
  split; reflexivity.
Qed.

(** C10 fails on the code at [ownerPdf]: the parser stores the owner of a
    row under [owner], the mask rewrites the [owners] list only, so the demo
    response carries the owner's full name, resident number and address. *)
Theorem demo_response_keeps_owner :
  exists resp e,
    parseAndProcessPDF (sampleEnv (Some ownerPdf) None) [] false None
      = Returned (resp, []) /\
    ParseResponse.isDemo resp = true /\
    option_map PartialRegistryData.sectionA (ParseResponse.data resp)
      = Some (Some [e]) /\
    SectionAEntry.owners e = Some [] /\
    SectionAEntry.owner e =
      Some {| OwnerInfo.name := u "홍길동";
              OwnerInfo.residentNumber := Some (u "800101-*******");
              OwnerInfo.address := Some (u "서울특별시 강남구 역삼동 1");
              OwnerInfo.share := None |}.
Proof.
  do 2 eexists. split; [vm_compute; reflexivity|]. repeat split.
Qed.

(** ** C4: maskForDemo *)

Section Mask.

Lemma maskOwner_masked o : masked_owner o (maskOwner o).
Proof.
  destruct o as [name rn addr share]. unfold masked_owner, maskOwner. simpl.
  split; [|split; [|split; [|reflexivity]]].
  - exists (charAt0 name), (slice_last name). split; [reflexivity|].
    unfold charAt0, slice_last. split; [|split; [|split]].
    + rewrite length_firstn. lia.
    + rewrite length_skipn. lia.
    + exists (skipn 1 name). now rewrite firstn_skipn.
    + exists (firstn (length name - 1) name). now rewrite firstn_skipn.
  - destruct (truthy rn); auto.
  - destruct addr as [[| x a] |]; auto. right.
    exists (firstn 10 (x :: a)), (skipn 10 (x :: a)).
    split; [now rewrite firstn_skipn|]. split; [reflexivity|].
    rewrite length_firstn. lia.
Qed.

Lemma maskEntryA_masked e : masked_entryA e (maskEntryA e).
Proof.
  unfold masked_entryA, maskEntryA. simpl. split; [|repeat split].
  eexists. split; [reflexivity|].
  induction (or_nil (SectionAEntry.owners e)) as [| o os IH]; simpl;
    constructor; auto using maskOwner_masked.
Qed.

Lemma maskEntryB_masked e : masked_entryB e (maskEntryB e).
Proof. unfold masked_entryB, maskEntryB. simpl. repeat split. Qed.

Lemma first1_length {A} (l : list A) : length (firstn 1 l) <= 1.
Proof. rewrite length_firstn. lia. Qed.

Lemma first_masked_map {A} (rel : A -> A -> Prop) (f : A -> A) l :
  (forall x, rel x (f x)) -> first_masked rel l (map f (firstn 1 l)).
Proof. intros H. destruct l as [| x l]; simpl; auto. Qed.

End Mask.

(** C4 fails on the code at the register of [attachmentText]: the mask
    rebuilds the encumbrance entry without its amounts and parties, and sets
    out to mask the owners of the ownership entry, but it copies every other
    property of the ownership entry as it is: the masked document shows the
    claim amount and the creditor's name, resident number and address in
    full. *)
Theorem mask_keeps_claim_and_creditor :
  exists d a b,
    parseRegistryPDF (sampleEnv None (Some attachmentText)) [] = Returned d /\
    PartialRegistryData.sectionA (maskForDemo d) = Some [a] /\
    PartialRegistryData.sectionB (maskForDemo d) = Some [b] /\
    SectionAEntry.claimAmount a = Some (Int 50000000) /\
    SectionAEntry.creditor a =
      Some {| CreditorInfo.name := u "김철수";
              CreditorInfo.residentNumber := Some (u "700101-*******");
              CreditorInfo.address := Some (u "서울 중구") |} /\
    option_map SectionBEntry.maxClaimAmount (nth_error (RegistryData.sectionB d) 0)
      = Some (Some (Int 120000000)) /\
    SectionBEntry.maxClaimAmount b = None /\
    SectionBEntry.mortgagee b = None.
Proof.
  do 3 eexists. split; [vm_compute; reflexivity|]. repeat split.
Qed.

(** What the mask keeps and what it rewrites, for every document: unique
    number, property type, property address and parse date are kept and the
    raw text is dropped; the title info keeps at most the first floor-area
    line; of each section the first entry only is held, if any; in the
    ownership entry the owners of the [owners] list show at most the first
    and last code unit of the name around '*', a fixed mask for a resident
    number, and at most ten code units of the address; the encumbrance entry
    keeps rank number, registration type and receipt date and nothing
    else. *)
Lemma maskForDemo_keeps_and_hides : forall d,
  PartialRegistryData.uniqueNumber (maskForDemo d)
    = Some (RegistryData.uniqueNumber d) /\
  PartialRegistryData.propertyType (maskForDemo d)
    = Some (RegistryData.propertyType d) /\
  PartialRegistryData.propertyAddress (maskForDemo d)
    = Some (RegistryData.propertyAddress d) /\
  PartialRegistryData.parseDate (maskForDemo d)
    = Some (RegistryData.parseDate d) /\
  PartialRegistryData.rawText (maskForDemo d) = None /\
  (exists ti,
     PartialRegistryData.titleInfo (maskForDemo d) = Some ti /\
     length (RegistryTitleInfo.areas ti) <= 1 /\
     RegistryTitleInfo.areas ti
       = firstn 1 (RegistryTitleInfo.areas (RegistryData.titleInfo d)) /\
     RegistryTitleInfo.propertyType ti
       = RegistryTitleInfo.propertyType (RegistryData.titleInfo d) /\
     RegistryTitleInfo.address ti
       = RegistryTitleInfo.address (RegistryData.titleInfo d)) /\
  (exists a,
     PartialRegistryData.sectionA (maskForDemo d) = Some a /\
     length a <= 1 /\
     first_masked masked_entryA (RegistryData.sectionA d) a) /\
  (exists b,
     PartialRegistryData.sectionB (maskForDemo d) = Some b /\
     length b <= 1 /\
     first_masked masked_entryB (RegistryData.sectionB d) b).
Proof.
  intros d. repeat (split; [reflexivity|]). split; [|split].
  - exists (maskTitleInfo (RegistryData.titleInfo d)). split; [reflexivity|].
    split; [apply first1_length | repeat split].
  - exists (map maskEntryA (firstn 1 (RegistryData.sectionA d))).
    split; [reflexivity|]. rewrite length_map.
    split; [apply first1_length|]. apply first_masked_map, maskEntryA_masked.
  - exists (map maskEntryB (firstn 1 (RegistryData.sectionB d))).
    split; [reflexivity|]. rewrite length_map.
    split; [apply first1_length|]. apply first_masked_map, maskEntryB_masked.
Qed.

(** ** Rows: order, extent and registration types *)

Section RowFacts.

Lemma search_text r s m :
  search r s = Some m -> exists pre, s = pre ++ m_text m ++ m_rest m.
Proof.
  intros H. apply search_sound in H as (pre & s0 & s' & c' & -> & M & -> & _).
  apply Matches_suffix in M as [w ->]. exists pre. simpl.
  now rewrite consumed_app.
Qed.

Lemma exec_loop_rows_in r : forall fuel s ms,
  exec_loop fuel r s = Some ms -> rows_in ms s.
Proof.
  induction fuel as [| f IH]; simpl; intros s ms H; [discriminate|].
  destruct (search r s) as [m0|] eqn:E.
  - destruct (exec_loop f r (m_rest m0)) as [ms'|] eqn:E2; [|discriminate].
    inversion H; subst. simpl. split; [eapply search_text; eauto | eauto].
  - inversion H; subst. exact I.
Qed.

(** The frame of the row patterns again, now with the text and with what
    the lookahead saw. *)
Lemma row_full_shape types ahead s s' c' :
  types <> [] -> groupless ahead = true ->
  Matches (seqs [Group 1 rankRe; plus ws; Group 2 (alts (map lit types));
                 few anyc; Look ahead]) s no_caps s' c' ->
  row_form types (mk_match s s' c') /\
  exists c s6 c6, Matches ahead s' c s6 c6.
Proof.
  intros Ht G. cbn [Matches seqs fold_right].
  intros (s1 & c1 & (c0 & H1 & ->) & s2 & c2 & H2 & s3 & c3 &
          (c2' & H3 & ->) & s4 & c4 & H4 & s5 & c5 & (-> & s6 & H5) & -> & ->).
  apply rankRe_shape in H1 as (rank & -> & F & ->).
  apply Matches_plus_chr in H2 as (w2 & -> & N2 & A2 & ->).
  apply (Matches_alts_lit Ht) in H3 as (ty & I & -> & ->).
  apply Matches_star_chr in H4 as (w4 & -> & _ & ->).
  pose proof (groupless_caps _ G _ _ _ _ H5) as Ec. subst c5.
  rewrite !consumed_app. split; [|eauto].
  exists rank, w2, ty, w4. unfold mk_match, grp. cbn [m_text m_caps].
  split.
  { replace (rank ++ w2 ++ ty ++ w4 ++ s4)
      with ((rank ++ w2 ++ ty ++ w4) ++ s4) by now rewrite <- !app_assoc.
    apply consumed_app. }
  repeat split; auto. now apply all_spc.
Qed.

Lemma rowPatternA_row s s' c' :
  Matches rowPatternA s no_caps s' c' ->
  row_form typesA (mk_match s s' c') /\ exists more, s' = NL :: more.
Proof.
  intros M. apply row_full_shape in M as [F (c & s6 & c6 & M)];
    [|discriminate|reflexivity].
  split; [exact F|]. cbn [Matches alts seqs fold_right] in M.
  destruct M as [M | [M | M]]; destruct M as (s1 & c1 & M & _);
    apply Matches_chr in M as [-> _]; eauto.
Qed.

Lemma rowPatternB_row s s' c' :
  Matches rowPatternB s no_caps s' c' ->
  row_form typesB (mk_match s s' c') /\ (s' = [] \/ exists more, s' = NL :: more).
Proof.
  intros M. apply row_full_shape in M as [F (c & s6 & c6 & M)];
    [|discriminate|reflexivity].
  split; [exact F|]. cbn [Matches alts seqs fold_right] in M.
  destruct M as [M | [M | [M | [M | M]]]];
    try (destruct M as (s1 & c1 & M & _); apply Matches_chr in M as [-> _];
         right; eauto).
  destruct M as (-> & _). now left.
Qed.

(** Where the rows of the ownership section lie. *)
Lemma rowsA_layout text :
  exists ms,
    rowsA text = Some ms /\
    (exists before sec after, text = before ++ sec ++ after /\ rows_in ms sec) /\
    Forall (fun m => row_form typesA m /\ exists more, m_rest m = NL :: more) ms.
Proof.
  destruct (rowsA_total text) as [ms E]. exists ms. split; [exact E|].
  unfold rowsA in E. destruct (search sectionARe text) as [sec|] eqn:Es.
  - split.
    + destruct (search_text _ _ Es) as [pre Et].
      exists pre, (m_text sec), (m_rest sec). split; [exact Et|].
      eapply exec_loop_rows_in. exact E.
    + apply Forall_forall. intros m I.
      eapply exec_loop_In in E as (s0 & s' & c' & M & ->); [|exact I].
      now apply rowPatternA_row.
  - inversion E; subst. split; [|constructor].
    exists [], [], text. split; [reflexivity | exact Logic.I].
Qed.

Lemma rowsB_layout text :
  exists ms,
    rowsB text = Some ms /\
    (exists before sec after, text = before ++ sec ++ after /\ rows_in ms sec) /\
    Forall (fun m => row_form typesB m /\
                     (m_rest m = [] \/ exists more, m_rest m = NL :: more)) ms.
Proof.
  destruct (rowsB_total text) as [ms E]. exists ms. split; [exact E|].
  unfold rowsB in E. destruct (search sectionBRe text) as [sec|] eqn:Es.
  - split.
    + destruct (search_text _ _ Es) as [pre Et].
      exists pre, (m_text sec), (m_rest sec). split; [exact Et|].
      eapply exec_loop_rows_in. exact E.
    + apply Forall_forall. intros m I.
      eapply exec_loop_In in E as (s0 & s' & c' & M & ->); [|exact I].
      now apply rowPatternB_row.
  - inversion E; subst. split; [|constructor].
    exists [], [], text. split; [reflexivity | exact Logic.I].
Qed.

End RowFacts.

(** X1: the ownership entries are built, in order, from row matches that lie
    one after another in a stretch of the text without overlapping; the text
    of each begins with its rank number, white space and its registration
    type, and each ends right before a line break. *)
Theorem ownership_rows_in_text_order : forall text,
  exists ms,
    parseSectionAEntries text = Some (map entryA ms) /\
    (exists before sec after, text = before ++ sec ++ after /\ rows_in ms sec) /\
    Forall (fun m => row_form typesA m /\ exists more, m_rest m = NL :: more) ms.
Proof.
  intros text. destruct (rowsA_layout text) as (ms & E & L & F).
  exists ms. unfold parseSectionAEntries. rewrite E. auto.
Qed.

(** X2: the same for the encumbrance entries, except that a row may also
    end where the section text ends. *)
Theorem encumbrance_rows_in_text_order : forall text,
  exists ms,
    parseSectionBEntries text = Some (map entryB ms) /\
    (exists before sec after, text = before ++ sec ++ after /\ rows_in ms sec) /\
    Forall (fun m => row_form typesB m /\
                     (m_rest m = [] \/ exists more, m_rest m = NL :: more)) ms.
Proof.
  intros text. destruct (rowsB_layout text) as (ms & E & L & F).
  exists ms. unfold parseSectionBEntries. rewrite E. auto.
Qed.

(** X3: a text without a line break gives no ownership entry, whatever rows
    it holds (every way the row pattern can end asks for a line break). *)
Theorem single_line_has_no_ownership_entry : forall text,
  ~ In NL text -> parseSectionAEntries text = Some [].
Proof.
  intros text H. destruct (rowsA_layout text) as (ms & E & L & F).
  unfold parseSectionAEntries. rewrite E. destruct ms as [| m ms]; [reflexivity|].
  exfalso. apply H.
  destruct L as (before & sec & after & -> & (skipped & ->) & _).
  inversion F as [| ? ? [_ [more Er]] _]; subst. rewrite Er.
  rewrite !in_app_iff. right. left. right. right. now left.
Qed.

Lemma single_line_has_no_ownership_entry_witness :
  ~ In NL (u "【 갑 구 】 1 소유권보존 2010년3월5일 제1234호") /\
  parseSectionAEntries (u "【 갑 구 】 1 소유권보존 2010년3월5일 제1234호") = Some [].
Proof.
  assert (H : ~ In NL (u "【 갑 구 】 1 소유권보존 2010년3월5일 제1234호"))
    by (vm_compute; intuition discriminate).
  split; [exact H | exact (single_line_has_no_ownership_entry _ H)].
Defined.

(** ** The registration type that is never reported *)

Section Shadowed.

Lemma rmatch_Seq (R : Type) r1 r2 s c (k : str -> caps -> option R) :
  rmatch (Seq r1 r2) s c k = rmatch r1 s c (fun s' c' => rmatch r2 s' c' k).
Proof. reflexivity. Qed.

Lemma rmatch_Group (R : Type) i r s c (k : str -> caps -> option R) :
  rmatch (Group i r) s c k =
  rmatch r s c (fun s' c' => k s' (set_cap i (consumed s s') c')).
Proof. reflexivity. Qed.

Lemma rmatch_Alt (R : Type) r1 r2 s c (k : str -> caps -> option R) :
  rmatch (Alt r1 r2) s c k = (rmatch r1 s c k <|> rmatch r2 s c k).
Proof. reflexivity. Qed.

(** A match of a regex without groups does not depend on the captures. *)
Lemma groupless_any_caps r : groupless r = true ->
  forall s c s' c' d, Matches r s c s' c' -> Matches r s d s' d.
Proof.
  induction r; simpl; intros G s c s' c' d0 H; try discriminate.
  - destruct H. auto.
  - destruct H as (x & -> & E & _). eauto.
  - apply andb_prop in G as [G1 G2]. destruct H as (s1 & c1 & H1 & H2).
    exists s1, d0. split; [eapply IHr1 | eapply IHr2]; eauto.
  - apply andb_prop in G as [G1 G2]. destruct H as [H | H]; eauto.
  - induction H as [| s c s1 c1 s2 c2 H1 Hl _ IH]; [constructor|].
    eapply iter_round; eauto.
  - destruct H as (-> & s1 & H). eauto.
  - destruct H as (-> & -> & _). auto.
Qed.

Lemma anyc_all w : all (cmem (OneOf [Spc; NonSpc])) w.
Proof.
  induction w as [| x w IH]; constructor; [|exact IH].
  simpl. destruct (isSpace x); reflexivity.
Qed.

Lemma search_match_at r : forall s m,
  search r s = Some m -> exists s0, match_at r s0 = Some m.
Proof.
  induction s as [| x s IH]; simpl; intros m H.
  - destruct (match_at r []) eqn:E; [|discriminate]. inversion H; subst. eauto.
  - destruct (match_at r (x :: s)) eqn:E; [inversion H; subst; eauto | eauto].
Qed.

Lemma exec_loop_match_at r : forall fuel s ms m,
  exec_loop fuel r s = Some ms -> In m ms -> exists s0, match_at r s0 = Some m.
Proof.
  induction fuel as [| f IH]; simpl; intros s ms m H I; [discriminate|].
  destruct (search r s) as [m0|] eqn:E.
  - destruct (exec_loop f r (m_rest m0)) as [ms'|] eqn:E2; [|discriminate].
    inversion H; subst. destruct I as [<- | I].
    + eapply search_match_at; eauto.
    + eapply IH; eauto.
  - inversion H; subst. destruct I.
Qed.

Lemma rowPatternA_unfold :
  rowPatternA =
  Seq (Group 1 rankRe)
    (Seq (plus ws)
      (Seq (Group 2 (Alt (txt "소유권보존")
                      (Alt (txt "소유권이전") (alts (map lit typesA_later)))))
           rowTailA)).
Proof. reflexivity. Qed.

(** The tail leaves the captures alone, and matches from further left
    whenever it matches. *)
Lemma rowTailA_caps s c s' c' : Matches rowTailA s c s' c' -> c' = c.
Proof. apply groupless_caps. reflexivity. Qed.

Lemma rowTailA_extend w s c s' c' d :
  Matches rowTailA s c s' c' -> Matches rowTailA (w ++ s) d s' d.
Proof.
  intros M. apply (groupless_any_caps rowTailA eq_refl) with (d := d) in M.
  unfold rowTailA in *. cbn [Matches seqs fold_right] in *.
  destruct M as (s1 & c1 & M1 & M2).
  apply Matches_star_chr in M1 as (v & -> & _ & ->).
  exists s1, d. split; [|exact M2].
  apply Matches_star_chr. exists (w ++ v). rewrite <- app_assoc.
  repeat split. apply anyc_all.
Qed.

Lemma rowPatternA_type_not_shadowed s m :
  match_at rowPatternA s = Some m ->
  grp m 2 <> Some (u "소유권이전등기말소").
Proof.
  unfold match_at. rewrite rowPatternA_unfold, rmatch_Seq. intros H.
  apply rmatch_sound in H as (s1 & c1 & _ & H). rewrite rmatch_Seq in H.
  apply rmatch_sound in H as (s2 & c2 & _ & H).
  rewrite rmatch_Seq, rmatch_Group, rmatch_Alt in H.
  pose (K := fun (s' : str) (c : caps) => Some (mk_match s s' c)).
  pose (k := fun (s' : str) (c' : caps) =>
               rmatch rowTailA s' (set_cap 2 (consumed s2 s') c') K).
  change ((rmatch (txt "소유권보존") s2 c2 k
           <|> rmatch (Alt (txt "소유권이전") (alts (map lit typesA_later)))
                      s2 c2 k) = Some m) in H.
  assert (Tail : forall t s3 c3,
            s2 = t ++ s3 -> k s3 c3 = Some m -> grp m 2 = Some t).
  { intros t s3 c3 -> Hk. unfold k in Hk.
    apply rmatch_sound in Hk as (s' & c' & M & E).
    apply rowTailA_caps in M. subst c'. unfold K in E. inversion E; subst.
    unfold grp, mk_match, set_cap. cbn [m_caps Nat.eqb].
    now rewrite consumed_app. }
  destruct (rmatch (txt "소유권보존") s2 c2 k) as [y|] eqn:E1.
  { inversion H; subst. apply rmatch_sound in E1 as (s3 & c3 & M & Hk).
    apply Matches_txt in M as [-> ->]. rewrite (Tail _ _ _ eq_refl Hk).
    vm_compute. discriminate. }
  rewrite rmatch_Alt in H.
  destruct (rmatch (txt "소유권이전") s2 c2 k) as [y|] eqn:E2.
  { inversion H; subst. apply rmatch_sound in E2 as (s3 & c3 & M & Hk).
    apply Matches_txt in M as [-> ->]. rewrite (Tail _ _ _ eq_refl Hk).
    vm_compute. discriminate. }
  apply rmatch_sound in H as (s3 & c3 & M & Hk).
  apply Matches_alts_lit in M as (t & I & -> & ->); [|discriminate].
  rewrite (Tail _ _ _ eq_refl Hk). intros Et. inversion Et; subst t. clear Et I.
  revert E2. unfold txt.
  eapply rmatch_complete with (s' := u "등기말소" ++ s3) (c' := c2);
    [reflexivity | apply Matches_lit; split; [|reflexivity] |].
  { change (u "소유권이전등기말소") with (u "소유권이전" ++ u "등기말소").
    now rewrite <- app_assoc. }
  unfold k in *. apply rmatch_sound in Hk as (s' & c' & M & _).
  eapply rmatch_complete; [reflexivity | | unfold K; discriminate].
  eapply rowTailA_extend. exact M.
Qed.

End Shadowed.

(** The row that cancels a transfer is reported as a transfer. *)
Example transfer_cancellation_row :
  option_map (map (fun e => (SectionAEntry.rankNumber e,
                             SectionAEntry.registrationType e)))
             (parseSectionAEntries transferCancellationText)
  = Some [(u "2", u "소유권이전"); (u "3", u "소유권이전")].
Proof. vm_compute. reflexivity. Qed.

(** X4: no ownership entry ever has the registration type 소유권이전등기말소,
    although the row pattern lists it: 소유권이전 stands before it in the
    alternation and fits wherever it fits. *)
Theorem transfer_cancellation_type_never_reported : forall text,
  exists es,
    parseSectionAEntries text = Some es /\
    Forall (fun e => SectionAEntry.registrationType e <> u "소유권이전등기말소") es.
Proof.
  intros text. unfold parseSectionAEntries.
  destruct (rowsA_total text) as [ms E]. rewrite E. eexists.
  split; [reflexivity|]. apply Forall_forall. intros e I.
  apply in_map_iff in I as (m & <- & I).
  assert (Hm : exists s0, match_at rowPatternA s0 = Some m).
  { unfold rowsA in E. destruct (search sectionARe text).
    - eapply exec_loop_match_at; eauto.
    - inversion E; subst. destruct I. }
  destruct Hm as [s0 Hm]. apply rowPatternA_type_not_shadowed in Hm.
  unfold entryA. cbn [SectionAEntry.registrationType].
  destruct (grp m 2) as [g|]; [congruence|].
  vm_compute. discriminate.
Qed.

(** ** The extent of the ownership section *)

Section SectionExtent.

Lemma search_leftmost_match r : forall s m,
  search r s = Some m ->
  exists pre s0,
    s = pre ++ s0 /\ match_at r s0 = Some m /\
    (forall p1 p2, pre = p1 ++ p2 -> p2 <> [] -> match_at r (p2 ++ s0) = None).
Proof.
  induction s as [| x s IH]; simpl; intros m H.
  - destruct (match_at r []) eqn:E; [|discriminate]. inversion H; subst.
    exists [], []. repeat split; auto.
    intros p1 p2 E2 Hn. symmetry in E2. apply app_eq_nil in E2 as [_ ->].
    now elim Hn.
  - destruct (match_at r (x :: s)) eqn:E.
    + inversion H; subst. exists [], (x :: s). repeat split; auto.
      intros p1 p2 E2 Hn. symmetry in E2. apply app_eq_nil in E2 as [_ ->].
      now elim Hn.
    + apply IH in H as (pre & s0 & -> & M & L).
      exists (x :: pre), s0. repeat split; auto.
      intros p1 p2 E2 Hn. destruct p1 as [| y p1]; simpl in E2.
      * subst p2. exact E.
      * inversion E2; subst. eapply L; eauto.
Qed.

(** A lazy star over a class that holds every code unit stops at the first
    position from which the rest of the pattern matches. *)
Lemma star_lazy_first (R : Type) cs (k : str -> caps -> option R) :
  (forall x, cmem cs x = true) ->
  forall fuel s c y,
    star_loop false (fun s0 c0 k0 => rmatch (Chr cs) s0 c0 k0) k fuel s c = Some y ->
    exists w s',
      s = w ++ s' /\ k s' c = Some y /\
      (forall w1 w2, w = w1 ++ w2 -> w2 <> [] -> k (w2 ++ s') c = None).
Proof.
  intros Hcs. induction fuel as [| f IH]; intros s c y H; [discriminate|].
  rewrite star_loop_S in H. destruct (k s c) as [z|] eqn:Ek.
  - inversion H; subst. exists [], s. repeat split; auto.
    intros w1 w2 E Hn. symmetry in E. apply app_eq_nil in E as [_ ->].
    now elim Hn.
  - destruct s as [| x t]; [discriminate|]. cbn [rmatch] in H.
    rewrite Hcs in H.
    destruct (Nat.ltb_spec (length t) (length (x :: t))) as [_ | Hl];
      [|simpl in Hl; lia].
    apply IH in H as (w & s' & -> & Hk & L).
    exists (x :: w), s'. repeat split; auto.
    intros w1 w2 E Hn. destruct w1 as [| x1 w1]; simpl in E.
    + subst w2. exact Ek.
    + inversion E; subst. eapply L; eauto.
Qed.

Lemma heading_matches t s' c w1 w2 w3 :
  all isSpace w1 -> all isSpace w2 -> all isSpace w3 ->
  Matches (seqs [txt "【"; many ws; txt t; many ws; txt "구"; many ws; txt "】"])
          (u "【" ++ w1 ++ u t ++ w2 ++ u "구" ++ w3 ++ u "】" ++ s') c s' c.
Proof.
  intros A1 A2 A3. cbn [Matches seqs fold_right].
  eexists _, c. split; [apply Matches_txt; eauto|].
  eexists _, c. split; [apply Matches_star_chr; exists w1; rewrite all_spc; eauto|].
  eexists _, c. split; [apply Matches_txt; eauto|].
  eexists _, c. split; [apply Matches_star_chr; exists w2; rewrite all_spc; eauto|].
  eexists _, c. split; [apply Matches_txt; eauto|].
  eexists _, c. split; [apply Matches_star_chr; exists w3; rewrite all_spc; eauto|].
  eexists _, c. split; [apply Matches_txt; eauto | auto].
Qed.

Lemma headingTrade_iff s c s' c' :
  Matches headingTrade s c s' c' <->
  exists w1 w2 w3 w4 w5,
    s = u "【" ++ w1 ++ u "매" ++ w2 ++ u "매" ++ w3 ++ u "목" ++ w4 ++ u "록"
          ++ w5 ++ u "】" ++ s' /\
    all isSpace w1 /\ all isSpace w2 /\ all isSpace w3 /\ all isSpace w4 /\
    all isSpace w5 /\ c' = c.
Proof.
  unfold headingTrade. cbn [Matches seqs fold_right]. split.
  - intros (s1 & c1 & H1 & s2 & c2 & H2 & s3 & c3 & H3 & s4 & c4 & H4 &
            s5 & c5 & H5 & s6 & c6 & H6 & s7 & c7 & H7 & s8 & c8 & H8 &
            s9 & c9 & H9 & s10 & c10 & H10 & s11 & c11 & H11 & -> & ->).
    apply Matches_txt in H1 as [-> ->].
    apply Matches_star_chr in H2 as (w1 & -> & A1 & ->). apply all_spc in A1.
    apply Matches_txt in H3 as [-> ->].
    apply Matches_star_chr in H4 as (w2 & -> & A2 & ->). apply all_spc in A2.
    apply Matches_txt in H5 as [-> ->].
    apply Matches_star_chr in H6 as (w3 & -> & A3 & ->). apply all_spc in A3.
    apply Matches_txt in H7 as [-> ->].
    apply Matches_star_chr in H8 as (w4 & -> & A4 & ->). apply all_spc in A4.
    apply Matches_txt in H9 as [-> ->].
    apply Matches_star_chr in H10 as (w5 & -> & A5 & ->). apply all_spc in A5.
    apply Matches_txt in H11 as [-> ->].
    exists w1, w2, w3, w4, w5. auto 10.
  - intros (w1 & w2 & w3 & w4 & w5 & -> & A1 & A2 & A3 & A4 & A5 & ->).
    eexists _, c. split; [apply Matches_txt; eauto|].
    eexists _, c. split; [apply Matches_star_chr; exists w1; rewrite all_spc; eauto|].
    eexists _, c. split; [apply Matches_txt; eauto|].
    eexists _, c. split; [apply Matches_star_chr; exists w2; rewrite all_spc; eauto|].
    eexists _, c. split; [apply Matches_txt; eauto|].
    eexists _, c. split; [apply Matches_star_chr; exists w3; rewrite all_spc; eauto|].
    eexists _, c. split; [apply Matches_txt; eauto|].
    eexists _, c. split; [apply Matches_star_chr; exists w4; rewrite all_spc; eauto|].
    eexists _, c. split; [apply Matches_txt; eauto|].
    eexists _, c. split; [apply Matches_star_chr; exists w5; rewrite all_spc; eauto|].
    eexists _, c. split; [apply Matches_txt; eauto | auto].
Qed.

Lemma endOfA_iff s c :
  (exists s' c', Matches endOfA s c s' c') <->
  heading_at (one "을") s \/ trade_heading_at s \/ s = [].
Proof.
  unfold endOfA. cbn [alts Matches]. split.
  - intros (s' & c' & [M | [M | M]]).
    + apply heading_shape in M as (w1 & w2 & w3 & -> & A). left.
      exists w1, w2, w3, s'. split; [reflexivity | exact A].
    + apply headingTrade_iff in M as (w1 & w2 & w3 & w4 & w5 & -> & A1 & A2 & A3 & A4 & A5 & _).
      right. left. exists w1, w2, w3, w4, w5, s'. auto 10.
    + destruct M as (-> & _). auto.
  - intros [(w1 & w2 & w3 & post & -> & A1 & A2 & A3) |
            [(w1 & w2 & w3 & w4 & w5 & post & -> & A) | ->]].
    + exists post, c. left. now apply (heading_matches "을").
    + exists post, c. right. left. apply headingTrade_iff.
      exists w1, w2, w3, w4, w5. intuition.
    + exists [], c. right. right. auto.
Qed.

Lemma sectionARe_unfold :
  sectionARe = Seq headingA (Seq (Star false (Chr DotAll)) (Seq (Look endOfA) Eps)).
Proof. reflexivity. Qed.

(** One match of the section pattern, from a given position. *)
Lemma sectionA_match_extent s0 sec :
  match_at sectionARe s0 = Some sec ->
  exists hd body,
    m_text sec = hd ++ body /\ s0 = hd ++ body ++ m_rest sec /\
    heading_text (one "갑") hd /\
    (heading_at (one "을") (m_rest sec) \/ trade_heading_at (m_rest sec) \/
     m_rest sec = []) /\
    (forall b1 b2, body = b1 ++ b2 -> b2 <> [] ->
       ~ heading_at (one "을") (b2 ++ m_rest sec) /\
       ~ trade_heading_at (b2 ++ m_rest sec)).
Proof.
  unfold match_at. rewrite sectionARe_unfold, rmatch_Seq. intros H.
  apply rmatch_sound in H as (s1 & c1 & M1 & H).
  pose proof (groupless_caps headingA eq_refl _ _ _ _ M1) as Ec. subst c1.
  pose proof M1 as M1'. apply Matches_suffix in M1' as [hd ->].
  rewrite rmatch_Seq in H.
  change (rmatch (Star false (Chr DotAll)) s1 no_caps
            (fun s' c' => rmatch (Seq (Look endOfA) Eps) s' c'
               (fun s'' c => Some (mk_match (hd ++ s1) s'' c))))
    with (star_loop false (fun s2 c0 k0 => rmatch (Chr DotAll) s2 c0 k0)
            (fun s' c' => rmatch (Seq (Look endOfA) Eps) s' c'
               (fun s'' c => Some (mk_match (hd ++ s1) s'' c)))
            (S (length s1)) s1 no_caps) in H.
  apply star_lazy_first in H as (body & s2 & -> & Hk & L); [|reflexivity].
  apply rmatch_sound in Hk as (s3 & c3 & M3 & E).
  cbn [Matches] in M3. destruct M3 as (s4 & c4 & (-> & s5 & M5) & -> & ->).
  inversion E; subst sec. clear E. cbn [m_text m_rest].
  exists hd, body. split.
  { replace (hd ++ body ++ s2) with ((hd ++ body) ++ s2) by now rewrite <- app_assoc.
    apply consumed_app. }
  split; [reflexivity|]. split; [|split].
  - unfold headingA in M1. apply heading_shape in M1 as (w1 & w2 & w3 & E & A).
    exists w1, w2, w3. split; [|exact A].
    apply (app_inv_tail (body ++ s2)). rewrite E.
    repeat rewrite <- app_assoc. reflexivity.
  - apply (proj1 (@endOfA_iff s2 no_caps)). eauto.
  - intros b1 b2 -> Hn.
    assert (N : ~ exists s' c', Matches endOfA (b2 ++ s2) no_caps s' c').
    { intros (s' & c' & M). specialize (L b1 b2 eq_refl Hn). revert L.
      eapply rmatch_complete with (s' := b2 ++ s2) (c' := c');
        [reflexivity | | discriminate].
      cbn [Matches]. exists (b2 ++ s2), c'. split; [|auto]. split; eauto. }
    split; intros Hh; apply N;
      apply (proj2 (@endOfA_iff (b2 ++ s2) no_caps)); auto.
Qed.

Lemma dotall_all w : all (cmem DotAll) w.
Proof. induction w; constructor; auto. Qed.

(** From a 갑구 heading on, the section pattern matches. *)
Lemma heading_starts_section s :
  heading_at (one "갑") s -> match_at sectionARe s <> None.
Proof.
  intros (w1 & w2 & w3 & post & -> & A1 & A2 & A3).
  eapply match_at_complete with (s' := []) (c' := no_caps); [reflexivity|].
  rewrite sectionARe_unfold. cbn [Matches].
  exists post, no_caps. split; [now apply (heading_matches "갑")|].
  exists [], no_caps. split.
  - apply (proj2 (@Matches_star_chr false DotAll post no_caps [] no_caps)).
    exists post. rewrite app_nil_r. repeat split. apply dotall_all.
  - exists [], no_caps. split; [|auto]. split; [reflexivity|].
    exists []. unfold endOfA. cbn [alts Matches]. auto.
Qed.

End SectionExtent.

(** X5: the ownership section is found exactly when the text has a 갑구
    heading; it then consists of the first such heading and of the text after
    it up to, and not into, the first 을구 or 매매목록 heading that begins at
    or after the end of that heading, or up to the end of the text when there
    is none. *)
Theorem ownership_section_extent : forall text,
  match search sectionARe text with
  | None => ~ has_heading (one "갑") text
  | Some sec =>
    exists before hd body,
      text = before ++ hd ++ body ++ m_rest sec /\
      m_text sec = hd ++ body /\
      heading_text (one "갑") hd /\
      (forall p1 p2, before = p1 ++ p2 -> p2 <> [] ->
         ~ heading_at (one "갑") (p2 ++ hd ++ body ++ m_rest sec)) /\
      (heading_at (one "을") (m_rest sec) \/ trade_heading_at (m_rest sec) \/
       m_rest sec = []) /\
      (forall b1 b2, body = b1 ++ b2 -> b2 <> [] ->
         ~ heading_at (one "을") (b2 ++ m_rest sec) /\
         ~ trade_heading_at (b2 ++ m_rest sec))
  end.
Proof.
  intros text. destruct (search sectionARe text) as [sec|] eqn:E.
  - apply search_leftmost_match in E as (before & s0 & -> & M & L).
    apply sectionA_match_extent in M as (hd & body & Et & -> & Hh & He & Hm).
    exists before, hd, body. split; [reflexivity|]. split; [exact Et|].
    split; [exact Hh|]. split; [|split; [exact He | exact Hm]].
    intros p1 p2 Ep Hn Hp. specialize (L p1 p2 Ep Hn).
    now apply heading_starts_section in Hp.
  - intros (pre & w1 & w2 & w3 & post & -> & A).
    eapply search_none in E; [|reflexivity].
    revert E. apply heading_starts_section.
    exists w1, w2, w3, post. split; [reflexivity | exact A].
Qed.

(** ** extractUniqueNumber *)

Section UniqueNumber.

Lemma rmatch_lit_here (R : Type) t : forall s c (k : str -> caps -> option R),
  rmatch (lit t) (t ++ s) c k = k s c.
Proof.
  induction t as [| a t IH]; intros s c k; [reflexivity|].
  change (lit (a :: t)) with (Seq (chr a) (lit t)).
  rewrite rmatch_Seq. unfold chr at 1. cbn [rmatch app cmem existsb atom_mem].
  rewrite N.eqb_refl. cbn [orb]. apply IH.
Qed.

Lemma rmatch_Chr_cons (R : Type) cs x s c (k : str -> caps -> option R) :
  rmatch (Chr cs) (x :: s) c k = if cmem cs x then k s c else None.
Proof. reflexivity. Qed.

Lemma rmatch_Star_chr (R : Type) g cs s c (k : str -> caps -> option R) :
  rmatch (Star g (Chr cs)) s c k =
  star_loop g (fun s0 c0 k0 => rmatch (Chr cs) s0 c0 k0) k (S (length s)) s c.
Proof. reflexivity. Qed.

(** A greedy star over a class takes the whole run when the rest of the
    pattern matches after it. *)
Lemma star_greedy_run (R : Type) cs (k : str -> caps -> option R) :
  forall w rest c fuel,
    all (cmem cs) w -> stops (cmem cs) rest ->
    length (w ++ rest) < fuel -> k rest c <> None ->
    star_loop true (fun s0 c0 k0 => rmatch (Chr cs) s0 c0 k0) k fuel (w ++ rest) c
    = k rest c.
Proof.
  induction w as [| x w IH]; intros rest c fuel A St Hf Hk;
    (destruct fuel as [| f]; [simpl in Hf; lia|]); rewrite star_loop_S.
  - cbn [app rmatch]. destruct rest as [| y rest]; [reflexivity|].
    simpl in St. now rewrite St.
  - inversion A; subst. cbn [app rmatch]. rewrite H1.
    destruct (Nat.ltb_spec (length (w ++ rest)) (length (x :: w ++ rest)))
      as [_ | Hl]; [|simpl in Hl; lia].
    rewrite IH; auto; [|simpl in Hf; lia].
    destruct (k rest c); [reflexivity | now elim Hk].
Qed.

Lemma dh_mem x :
  cmem (OneOf [Dig; Ch 45%N]) x = true <-> isDigit x || (x =? 45)%N = true.
Proof. simpl. now rewrite orb_false_r. Qed.

Lemma all_dh w :
  all (cmem (OneOf [Dig; Ch 45%N])) w <-> all (fun x => isDigit x || (x =? 45)%N) w.
Proof. split; apply Forall_impl; intros a; apply dh_mem. Qed.

Lemma dh_not_space x : isDigit x || (x =? 45)%N = true -> isSpace x = false.
Proof.
  intros H. apply orb_true_iff in H as [H | H].
  - now apply digit_neither in H.
  - apply N.eqb_eq in H. now subst.
Qed.

Lemma uniqueNumberRe_shape s s' c' :
  Matches uniqueNumberRe s no_caps s' c' ->
  exists w n,
    s = u "고유번호" ++ w ++ n ++ s' /\ all isSpace w /\ n <> [] /\
    all (fun x => isDigit x || (x =? 45)%N) n /\ c' 1 = Some n.
Proof.
  unfold uniqueNumberRe. cbn [Matches seqs fold_right].
  intros (s1 & c1 & H1 & s2 & c2 & H2 & s3 & c3 & (c4 & H3 & ->) & -> & ->).
  apply Matches_txt in H1 as [-> ->].
  apply Matches_star_chr in H2 as (w & -> & A1 & ->). apply all_spc in A1.
  apply Matches_plus_chr in H3 as (n & -> & Hn & A2 & ->). apply all_dh in A2.
  exists w, n. rewrite consumed_app. repeat split; auto.
Qed.

Lemma uniqueNumber_found_at s s' c' :
  Matches uniqueNumberRe s no_caps s' c' -> unique_number_at s.
Proof.
  intros M. apply uniqueNumberRe_shape in M as (w & n & -> & A1 & Hn & A2 & _).
  destruct n as [| x n]; [now elim Hn|]. inversion A2; subst.
  exists w, x, (n ++ s'). auto.
Qed.

(** The match from the label on: the white space and then the whole run. *)
Lemma uniqueNumber_match_here w n rest :
  all isSpace w -> n <> [] ->
  all (fun x => isDigit x || (x =? 45)%N) n ->
  stops (fun x => isDigit x || (x =? 45)%N) rest ->
  exists m,
    match_at uniqueNumberRe (u "고유번호" ++ w ++ n ++ rest) = Some m /\
    grp m 1 = Some n.
Proof.
  intros A1 Hn A2 St. destruct n as [| x n]; [now elim Hn|].
  inversion A2 as [| ? ? Hx An]; subst.
  eexists. split; [|shelve].
  unfold match_at, uniqueNumberRe, txt. cbn [seqs fold_right].
  rewrite rmatch_Seq, rmatch_lit_here, rmatch_Seq.
  unfold many, ws. rewrite rmatch_Star_chr.
  assert (Hrun : forall (c : caps) (K : str -> caps -> option rx_match),
    K rest (set_cap 1 (consumed ((x :: n) ++ rest) rest) c) <> None ->
    rmatch (Seq (Group 1 (plus (Chr (OneOf [Dig; Ch 45%N])))) Eps)
           ((x :: n) ++ rest) c K
    = K rest (set_cap 1 (consumed ((x :: n) ++ rest) rest) c)).
  { intros c K HK. rewrite rmatch_Seq, rmatch_Group. unfold plus.
    rewrite rmatch_Seq. cbn [app]. rewrite rmatch_Chr_cons.
    rewrite (proj2 (dh_mem x) Hx), rmatch_Star_chr.
    rewrite star_greedy_run; auto.
    - now apply all_dh.
    - destruct rest as [| y rest]; [exact I|]. simpl in *.
      now rewrite orb_false_r. }
  rewrite star_greedy_run.
  - rewrite Hrun; [reflexivity | discriminate].
  - now apply all_spc.
  - simpl. rewrite orb_false_r. now apply dh_not_space.
  - lia.
  - rewrite Hrun; discriminate.
  Unshelve. unfold grp, mk_match, set_cap. cbn [m_caps Nat.eqb].
  now rewrite consumed_app.
Qed.

Lemma no_match_no_unique_number s :
  match_at uniqueNumberRe s = None -> ~ unique_number_at s.
Proof.
  intros E (w & x & post & -> & A & Hx). revert E.
  eapply match_at_complete with (s' := post) (c' := set_cap 1 [x] no_caps);
    [reflexivity|].
  unfold uniqueNumberRe. cbn [Matches seqs fold_right].
  eexists _, no_caps. split; [apply Matches_txt; eauto|].
  eexists _, no_caps. split.
  { apply Matches_star_chr. exists w. rewrite all_spc. eauto. }
  exists post, (set_cap 1 [x] no_caps). split; [|auto].
  exists no_caps. split.
  - apply Matches_plus_chr. exists [x]. repeat split; [discriminate|].
    constructor; [now apply dh_mem | constructor].
  - pose proof (consumed_app [x] post) as Cx. cbn [app] in Cx. now rewrite Cx.
Qed.

Lemma extractUniqueNumber_cases text :
  extractUniqueNumber text = [] \/
  exists pre w post,
    text = pre ++ u "고유번호" ++ w ++ extractUniqueNumber text ++ post /\
    all isSpace w /\
    all (fun x => isDigit x || (x =? 45)%N) (extractUniqueNumber text).
Proof.
  unfold extractUniqueNumber, group1_or_empty.
  destruct (search uniqueNumberRe text) as [m|] eqn:E; [|now left].
  apply search_sound in E as (pre & s0 & s' & c' & -> & M & -> & _).
  apply uniqueNumberRe_shape in M as (w & n & -> & A1 & Hn & A2 & G).
  unfold grp, mk_match. cbn [m_caps]. rewrite G. right.
  exists pre, w, s'. auto.
Qed.

End UniqueNumber.

(** X6: the unique number is empty or a run of digits and hyphens that
    stands in the text after the label 고유번호 and optional white space. *)
Theorem unique_number_is_a_labelled_run : forall text,
  extractUniqueNumber text = [] \/
  exists pre w post,
    text = pre ++ u "고유번호" ++ w ++ extractUniqueNumber text ++ post /\
    all isSpace w /\
    all (fun x => isDigit x || (x =? 45)%N) (extractUniqueNumber text).
Proof. exact extractUniqueNumber_cases. Qed.

(** X7: the unique number is the whole run of digits and hyphens after the
    first label 고유번호 that is followed, white space apart, by a digit or
    hyphen; without such a label it is empty. *)
Theorem unique_number_is_the_first_full_run :
  (forall pre w n rest,
     all isSpace w -> n <> [] ->
     all (fun x => isDigit x || (x =? 45)%N) n ->
     stops (fun x => isDigit x || (x =? 45)%N) rest ->
     (forall p1 p2, pre = p1 ++ p2 -> p2 <> [] ->
        ~ unique_number_at (p2 ++ u "고유번호" ++ w ++ n ++ rest)) ->
     extractUniqueNumber (pre ++ u "고유번호" ++ w ++ n ++ rest) = n) /\
  (forall text,
     (forall pre s, text = pre ++ s -> ~ unique_number_at s) ->
     extractUniqueNumber text = []).
Proof.
  split.
  - intros pre w n rest A1 Hn A2 St L.
    destruct (@uniqueNumber_match_here w n rest A1 Hn A2 St) as (m & E & G).
    unfold extractUniqueNumber, group1_or_empty.
    rewrite (@search_leftmost uniqueNumberRe pre _ m); [now rewrite G| |exact E].
    intros p1 p2 Ep Hp.
    destruct (match_at uniqueNumberRe (p2 ++ u "고유번호" ++ w ++ n ++ rest))
      as [m2|] eqn:E2; [|reflexivity].
    apply match_at_sound in E2 as (s2 & c2 & M2 & _).
    apply uniqueNumber_found_at in M2. exfalso. eapply L; eauto.
  - intros text H. unfold extractUniqueNumber, group1_or_empty.
    destruct (search uniqueNumberRe text) as [m|] eqn:E; [|reflexivity].
    apply search_sound in E as (pre & s0 & s' & c' & E & M & _).
    apply uniqueNumber_found_at in M. exfalso. eapply H; eauto.
Qed.

Lemma unique_number_is_the_first_full_run_witness :
  extractUniqueNumber
    (u "등기 " ++ u "고유번호" ++ u " " ++ u "1184-2024-012345" ++ u " [건물]")
    = u "1184-2024-012345" /\
  extractUniqueNumber (u "등기") = [].
Proof.
  split.
  - apply (proj1 unique_number_is_the_first_full_run).
    + repeat constructor.
    + discriminate.
    + repeat constructor.
    + reflexivity.
    + intros p1 p2 E Hp. apply no_match_no_unique_number.
      destruct p1 as [| a1 [| a2 [| a3 [| a4 p1]]]];
        vm_compute in E; inversion E; subst; try reflexivity; now elim Hp.
  - apply (proj2 unique_number_is_the_first_full_run).
    intros pre s E. apply no_match_no_unique_number.
    destruct pre as [| a1 [| a2 [| a3 pre]]];
      vm_compute in E; inversion E; subst; reflexivity.
Defined.

(** ** Amounts of the entries *)

Section EntryAmounts.

Lemma wonRe_iff s c s' c' :
  Matches wonRe s c s' c' <->
  exists n, s = u "금" ++ n ++ u "원" ++ s' /\ amount_digits n /\ c' = c.
Proof.
  unfold wonRe. cbn [Matches seqs fold_right]. split.
  - intros (s1 & c1 & H1 & s2 & c2 & H2 & s3 & c3 & H3 & -> & ->).
    apply Matches_txt in H1 as [-> ->].
    apply Matches_plus_chr in H2 as (n & -> & Hn & A & ->). apply all_dc in A.
    apply Matches_txt in H3 as [-> ->].
    exists n. repeat split; auto.
  - intros (n & -> & [Hn A] & ->).
    eexists _, c. split; [apply Matches_txt; eauto|].
    eexists _, c. split.
    { apply Matches_plus_chr. exists n. rewrite all_dc. eauto. }
    eexists _, c. split; [apply Matches_txt; eauto | auto].
Qed.

Lemma labelled_iff label s s' c' :
  Matches (seqs [txt label; many ws; Group 1 wonRe]) s no_caps s' c' <->
  exists w n,
    s = u label ++ w ++ u "금" ++ n ++ u "원" ++ s' /\
    all isSpace w /\ amount_digits n /\
    c' = set_cap 1 (u "금" ++ n ++ u "원") no_caps.
Proof.
  cbn [Matches seqs fold_right]. split.
  - intros (s1 & c1 & H1 & s2 & c2 & H2 & s3 & c3 & (c4 & H3 & ->) & -> & ->).
    apply Matches_txt in H1 as [-> ->].
    apply Matches_star_chr in H2 as (w & -> & A & ->). apply all_spc in A.
    apply wonRe_iff in H3 as (n & -> & D & ->).
    exists w, n. split; [reflexivity|]. split; [exact A|]. split; [exact D|].
    f_equal.
    replace (u "금" ++ n ++ u "원" ++ s3) with ((u "금" ++ n ++ u "원") ++ s3)
      by now rewrite <- !app_assoc.
    apply consumed_app.
  - intros (w & n & -> & A & D & ->).
    eexists _, no_caps. split; [apply Matches_txt; eauto|].
    eexists _, no_caps. split.
    { apply Matches_star_chr. exists w. rewrite all_spc. eauto. }
    eexists _, _. split; [|eauto].
    exists no_caps. split; [apply wonRe_iff; eauto|]. f_equal.
    replace (u "금" ++ n ++ u "원" ++ s') with ((u "금" ++ n ++ u "원") ++ s')
      by now rewrite <- !app_assoc.
    symmetry. apply consumed_app.
Qed.

Lemma plain_looks_lit t : plain_looks (lit t) = true.
Proof. induction t as [| a t IH]; [reflexivity | exact IH]. Qed.

Lemma plain_looks_labelled label :
  plain_looks (seqs [txt label; many ws; Group 1 wonRe]) = true.
Proof.
  cbn [seqs fold_right]. change (plain_looks (Seq ?a ?b))
    with (plain_looks a && plain_looks b).
  unfold txt at 1. now rewrite plain_looks_lit.
Qed.

(** An amount written without gaps is always read. *)
Lemma parseAmount_of_won n :
  amount_digits n -> exists v, parseAmount (u "금" ++ n ++ u "원") = Some v.
Proof.
  intros D. rewrite parseAmount_search by (rewrite geum_unit; discriminate).
  destruct (search amountRe (u "금" ++ n ++ u "원")) as [m|] eqn:E.
  - destruct (grp m 1); eauto.
  - exfalso. revert E.
    assert (A : amount_at (u "금" ++ n ++ u "원") n).
    { exists [], [], []. cbn [app]. rewrite app_nil_r.
      split; [reflexivity|]. split; [constructor|]. split; [constructor | exact D]. }
    apply amount_at_matches in A as [s' M].
    apply (@search_complete amountRe [] _ _ _ eq_refl M).
Qed.

Lemma labelled_amount_read label text :
  (exists v, parseAmount
               (group1_or_empty (seqs [txt label; many ws; Group 1 wonRe]) text)
             = Some v) <->
  labelled_amount_in (u label) text.
Proof.
  unfold group1_or_empty. split.
  - intros [v H].
    destruct (search (seqs [txt label; many ws; Group 1 wonRe]) text)
      as [m|] eqn:E; [|discriminate H].
    apply search_sound in E as (pre & s0 & s' & c' & -> & M & _).
    apply labelled_iff in M as (w & n & -> & A & D & _).
    exists pre, w, n, s'. auto.
  - intros (pre & w & n & post & -> & A & D).
    destruct (search (seqs [txt label; many ws; Group 1 wonRe])
                (pre ++ u label ++ w ++ u "금" ++ n ++ u "원" ++ post))
      as [m|] eqn:E.
    + apply search_sound in E as (p & s0 & s' & c' & _ & M & -> & _).
      apply labelled_iff in M as (w' & n' & _ & _ & D' & ->).
      unfold grp, mk_match, set_cap. cbn [m_caps Nat.eqb].
      now apply parseAmount_of_won.
    + exfalso. revert E. eapply search_complete; [apply plain_looks_labelled|].
      apply labelled_iff. exists w, n. eauto.
Qed.

Lemma parseInt_of_digits ds :
  ds <> [] -> all isDigit ds -> parseInt ds = of_integer (digits_value ds).
Proof.
  intros Hd A. destruct ds as [| x ds]; [now elim Hd|].
  inversion A as [| ? ? Hx Ads]; subst.
  destruct (digit_neither _ Hx) as (Sx & Mx & Px).
  unfold parseInt. cbn [dropWhile]. rewrite Sx, Mx, Px.
  now rewrite (takeWhile_all A).
Qed.

(** What [parseAmount] returns when it returns. *)
Lemma parseAmount_value text v :
  parseAmount text = Some v ->
  exists pre n,
    amount_at (skipn (length pre) text) n /\ text = pre ++ skipn (length pre) text /\
    v = match strip_commas n with
        | [] => NaN
        | ds => of_integer (digits_value ds)
        end.
Proof.
  intros H. destruct text as [| x text]; [discriminate H|].
  rewrite parseAmount_search in H by discriminate.
  destruct (search amountRe (x :: text)) as [m|] eqn:E; [|discriminate H].
  apply search_sound in E as (pre & s0 & s' & c' & E & M & -> & _).
  apply matches_amount_at in M as (n & A & G).
  unfold grp, mk_match in H. cbn [m_caps] in H. rewrite G in H.
  inversion H; subst v. exists pre, n. rewrite E, skipn_app, Nat.sub_diag.
  rewrite skipn_all. cbn [skipn app]. repeat split; auto.
  destruct A as (_ & _ & _ & _ & _ & _ & [_ An]).
  pose proof (strip_commas_digits An) as Ad.
  destruct (strip_commas n) as [| y ds] eqn:Es; [reflexivity|].
  apply parseInt_of_digits; [discriminate | exact Ad].
Qed.

End EntryAmounts.

(** X8: an entry has a claim amount exactly when its row text holds 청구금액,
    white space, and an amount 금N원 without gaps; likewise the maximum claim
    amount under 채권최고액 and the deposit under 임차보증금. *)
Theorem labelled_amounts_are_read : forall m,
  ((exists v, SectionAEntry.claimAmount (entryA m) = Some v) <->
   labelled_amount_in (u "청구금액") (m_text m)) /\
  ((exists v, SectionBEntry.maxClaimAmount (entryB m) = Some v) <->
   labelled_amount_in (u "채권최고액") (m_text m)) /\
  ((exists v, SectionBEntry.depositAmount (entryB m) = Some v) <->
   labelled_amount_in (u "임차보증금") (m_text m)).
Proof.
  intros m. split; [|split].
  - apply (labelled_amount_read "청구금액").
  - apply (labelled_amount_read "채권최고액").
  - apply (labelled_amount_read "임차보증금").
Qed.

(** X9: whatever [parseAmount] returns is read from a run N of digits and
    commas of an occurrence 금 N 원 in the text: NaN when N has no digit, and
    otherwise the number, never negative, whose digits are N without commas. *)
Theorem parseAmount_result : forall text v,
  parseAmount text = Some v ->
  exists pre s n,
    text = pre ++ s /\ amount_at s n /\
    (0 <= digits_value (strip_commas n))%Z /\
    v = match strip_commas n with
        | [] => NaN
        | ds => of_integer (digits_value ds)
        end.
Proof.
  intros text v H. apply parseAmount_value in H as (pre & n & A & E & V).
  exists pre, (skipn (length pre) text), n.
  repeat split; auto using digits_value_nonneg.
Qed.

Lemma parseAmount_result_witness :
  parseAmount (u "채권최고액 금120,000,000원") = Some (Int 120000000) /\
  exists pre s n,
    u "채권최고액 금120,000,000원" = pre ++ s /\ amount_at s n /\
    (0 <= digits_value (strip_commas n))%Z /\
    Int 120000000 = match strip_commas n with
                    | [] => NaN
                    | ds => of_integer (digits_value ds)
                    end.
Proof.
  assert (H : parseAmount (u "채권최고액 금120,000,000원") = Some (Int 120000000))
    by reflexivity.
  split; [exact H | exact (parseAmount_result _ H)].
Defined.

(** ** Receipt date and number *)

Section Receipt.

Lemma Matches_dg s c s' c' :
  Matches dg s c s' c' <-> exists x, s = x :: s' /\ isDigit x = true /\ c' = c.
Proof.
  unfold dg. cbn [Matches]. split; intros (x & -> & E & ->); exists x;
    (split; [reflexivity|]); (split; [|reflexivity]); now apply dg_digit.
Qed.

(** One or two digits. *)
Lemma Matches_dg12 s c s1 c1 s2 c2 :
  Matches dg s c s1 c1 -> Matches (opt dg) s1 c1 s2 c2 ->
  exists w, s = w ++ s2 /\ (length w = 1 \/ length w = 2) /\ all isDigit w /\
            c2 = c.
Proof.
  intros H1 H2. apply Matches_dg in H1 as (x & -> & Hx & ->).
  unfold opt in H2. cbn [Matches] in H2. destruct H2 as [H2 | [-> ->]].
  - apply Matches_dg in H2 as (y & -> & Hy & ->).
    exists [x; y]. repeat split; auto. repeat constructor; auto.
  - exists [x]. repeat split; auto. repeat constructor; auto.
Qed.

Lemma dateRe_shape s c s' c' :
  Matches dateRe s c s' c' -> exists d, s = d ++ s' /\ date_form d /\ c' = c.
Proof.
  unfold dateRe. cbn [Matches seqs fold_right rep].
  intros (s1 & c1 & (t1 & d1 & Y1 & t2 & d2 & Y2 & t3 & d3 & Y3 & t4 & d4 & Y4
                     & -> & ->) &
          s2 & c2 & H2 & s3 & c3 & H3 & s4 & c4 & H4 & s5 & c5 & H5 &
          s6 & c6 & H6 & s7 & c7 & H7 & s8 & c8 & H8 & s9 & c9 & H9 &
          s10 & c10 & H10 & -> & ->).
  apply Matches_dg in Y1 as (y1 & -> & D1 & ->).
  apply Matches_dg in Y2 as (y2 & -> & D2 & ->).
  apply Matches_dg in Y3 as (y3 & -> & D3 & ->).
  apply Matches_dg in Y4 as (y4 & -> & D4 & ->).
  apply Matches_txt in H2 as [-> ->].
  apply Matches_star_chr in H3 as (w1 & -> & A1 & ->). apply all_spc in A1.
  destruct (Matches_dg12 H4 H5) as (mo & -> & Lm & Am & ->).
  apply Matches_txt in H6 as [-> ->].
  apply Matches_star_chr in H7 as (w2 & -> & A2 & ->). apply all_spc in A2.
  destruct (Matches_dg12 H8 H9) as (dd & -> & Ld & Ad & ->).
  apply Matches_txt in H10 as [-> ->].
  exists ([y1; y2; y3; y4] ++ u "년" ++ w1 ++ mo ++ u "월" ++ w2 ++ dd ++ u "일").
  split; [now rewrite <- !app_assoc|]. split; [|reflexivity].
  exists [y1; y2; y3; y4], w1, mo, w2, dd.
  repeat split; auto. repeat constructor; auto.
Qed.

Lemma receiptRe_shape s s' c' :
  Matches receiptRe s no_caps s' c' ->
  exists date num,
    c' 1 = Some date /\ c' 2 = Some (num ++ u "호") /\
    date_form date /\ num <> [] /\ all isDigit num.
Proof.
  unfold receiptRe. cbn [Matches seqs fold_right opt].
  intros (s1 & c1 & (c0 & H1 & ->) & s2 & c2 & H2 & s3 & c3 & H3 &
          s4 & c4 & H4 & s5 & c5 & (c6 & (t1 & d1 & H5 & t2 & d2 & H6 & -> & ->)
                                     & ->) & -> & ->).
  apply dateRe_shape in H1 as (date & -> & F & ->).
  apply Matches_star_chr in H2 as (w1 & -> & _ & ->).
  assert (E3 : c3 = set_cap 1 (consumed (date ++ w1 ++ s2) (w1 ++ s2)) no_caps).
  { destruct H3 as [H3 | [_ ->]]; [|reflexivity].
    now apply Matches_txt in H3 as [_ ->]. }
  subst c3.
  apply Matches_star_chr in H4 as (w2 & -> & _ & ->).
  apply Matches_plus_chr in H5 as (num & -> & Hn & An & ->). apply all_dg in An.
  apply Matches_txt in H6 as [-> ->].
  exists date, num. unfold set_cap. cbn [Nat.eqb].
  rewrite consumed_app. split; [reflexivity|]. split.
  - f_equal. replace (num ++ u "호" ++ t2) with ((num ++ u "호") ++ t2)
      by now rewrite <- app_assoc.
    apply consumed_app.
  - auto.
Qed.

Lemma receipt_of_row text :
  receipt_ok
    (match search receiptRe text with
     | Some r => match grp r 1 with Some g => g | None => [] end
     | None => []
     end)
    (match search receiptRe text with
     | Some r => match grp r 2 with Some g => g | None => [] end
     | None => []
     end).
Proof.
  destruct (search receiptRe text) as [r|] eqn:E; [|left; auto].
  apply search_sound in E as (pre & s0 & s' & c' & _ & M & -> & _).
  apply receiptRe_shape in M as (date & num & G1 & G2 & F & Hn & An).
  unfold grp, mk_match. cbn [m_caps]. rewrite G1, G2. right. eauto.
Qed.

End Receipt.

(** X10: in every entry the receipt date and the receipt number are both
    empty, or the date has the shape YYYY년 M월 D일 and the number is digits
    followed by 호. *)
Theorem receipt_fields_go_together : forall m,
  receipt_ok (SectionAEntry.receiptDate (entryA m))
             (SectionAEntry.receiptNumber (entryA m)) /\
  exists number,
    SectionBEntry.receiptNumber (entryB m) = Some number /\
    receipt_ok (SectionBEntry.receiptDate (entryB m)) number.
Proof.
  intros m. split; [apply receipt_of_row|].
  eexists. split; [reflexivity | apply receipt_of_row].
Qed.

(** ** Edge cases of the owner mask *)

(** X11: a non-empty name is masked to three code units, its first, '*' and
    its last, so a name of one or two code units stays readable in full; an
    address of at most ten code units is shown whole before the "...". *)
Theorem short_values_are_not_hidden : forall o,
  (OwnerInfo.name o <> [] ->
   length (OwnerInfo.name (maskOwner o)) = 3) /\
  (OwnerInfo.name o <> [] -> length (OwnerInfo.name o) <= 2 ->
   forall x, In x (OwnerInfo.name o) -> In x (OwnerInfo.name (maskOwner o))) /\
  (forall a, OwnerInfo.address o = Some a -> a <> [] -> length a <= 10 ->
   OwnerInfo.address (maskOwner o) = Some (a ++ ellipsis)).
Proof.
  intros [name rn addr share]. cbn [OwnerInfo.name OwnerInfo.address maskOwner].
  split; [|split].
  - intros Hn. unfold charAt0, slice_last.
    rewrite !length_app, length_skipn.
    destruct name as [| c name]; [now elim Hn|].
    change (length (firstn 1 (c :: name))) with 1.
    change (length star) with 1. cbn [length]. lia.
  - intros Hn Hl x Hx. destruct name as [| a [| b [| c name]]].
    + now elim Hn.
    + simpl in *. intuition.
    + simpl in *. intuition.
    + simpl in Hl. lia.
  - intros a -> Ha Hl. destruct a as [| x a]; [now elim Ha|].
    now rewrite firstn_all2.
Qed.

Lemma short_values_are_not_hidden_witness :
  OwnerInfo.name
    (maskOwner {| OwnerInfo.name := u "홍길"; OwnerInfo.residentNumber := None;
                  OwnerInfo.address := Some (u "서울 중구");
                  OwnerInfo.share := None |}) = u "홍*길" /\
  OwnerInfo.address
    (maskOwner {| OwnerInfo.name := u "홍길"; OwnerInfo.residentNumber := None;
                  OwnerInfo.address := Some (u "서울 중구");
                  OwnerInfo.share := None |}) = Some (u "서울 중구...").
Proof.
  split; [reflexivity|].
  apply (proj2 (proj2 (short_values_are_not_hidden
           {| OwnerInfo.name := u "홍길"; OwnerInfo.residentNumber := None;
              OwnerInfo.address := Some (u "서울 중구");
              OwnerInfo.share := None |})) (u "서울 중구")).
  - reflexivity.
  - discriminate.
  - vm_compute. lia.
Defined.

(** ** The webhook of parseAndProcessPDF *)

(** X12: a call whose text extraction hangs does not come back and posts
    nothing. Every other call returns; it posts no webhook when the URL is
    missing or empty, and otherwise exactly one, to that URL: it carries the
    request id of the response, the same data as the response (the masked
    document for an unpaid call, nothing after a failure), the event
    parsing.completed or parsing.failed according to [success], and after a
    failure the fixed text "Parsing failed" instead of the error message. *)
Theorem webhook_mirrors_response : forall env pdfBuffer isPaid webhookUrl,
  if extraction_hangs env pdfBuffer then
    parseAndProcessPDF env pdfBuffer isPaid webhookUrl = Diverged
  else
    exists resp sent,
      parseAndProcessPDF env pdfBuffer isPaid webhookUrl
        = Returned (resp, sent) /\
      ParseResponse.requestId resp = uuidv4 env /\
      (truthy webhookUrl = false -> sent = []) /\
      (forall target, webhookUrl = Some target -> target <> [] ->
         exists payload,
           sent = [(target, payload)] /\
           WebhookPayload.requestId payload = ParseResponse.requestId resp /\
           WebhookPayload.summary payload = ParseResponse.data resp /\
           WebhookPayload.event payload =
             (if ParseResponse.success resp then u "parsing.completed"
              else u "parsing.failed") /\
           WebhookPayload.error payload =
             (if ParseResponse.success resp then None
              else Some (u "Parsing failed"))).
Proof.
  intros env pdfBuffer isPaid webhookUrl.
  pose proof (parseRegistryPDF_outcome env pdfBuffer) as H.
  destruct (extraction_hangs env pdfBuffer).
  { unfold parseAndProcessPDF. now rewrite H. }
  unfold parseAndProcessPDF.
  destruct H as [[d ->] | ->];
    (do 2 eexists; split; [reflexivity|]; split; [reflexivity|]; split).
  - destruct webhookUrl as [[| c url]|]; [reflexivity | discriminate | reflexivity].
  - intros target -> Ht. destruct target as [| c url]; [now elim Ht|].
    eexists. split; [reflexivity|]. cbn. destruct isPaid; repeat split.
  - destruct webhookUrl as [[| c url]|]; [reflexivity | discriminate | reflexivity].
  - intros target -> Ht. destruct target as [| c url]; [now elim Ht|].
    eexists. split; [reflexivity|]. cbn. repeat split.
Qed.

Lemma webhook_mirrors_response_witness :
  exists resp payload,
    parseAndProcessPDF (sampleEnv (Some ownerPdf) None) [] false
      (Some (u "https://hook"))
      = Returned (resp, [(u "https://hook", payload)]) /\
    ParseResponse.success resp = true /\
    WebhookPayload.summary payload = ParseResponse.data resp.
Proof.
  pose proof (webhook_mirrors_response (sampleEnv (Some ownerPdf) None) []
                false (Some (u "https://hook"))) as H.
  assert (Hh : extraction_hangs (sampleEnv (Some ownerPdf) None) [] = false)
    by (vm_compute; reflexivity).
  rewrite Hh in H. destruct H as (resp & sent & E & _ & _ & F).
  destruct (F (u "https://hook") eq_refl) as (payload & -> & _ & S & _).
  - vm_compute. discriminate.
  - exists resp, payload. split; [exact E|]. split; [|exact S].
    vm_compute in E. now inversion E.
Defined.

(** ** The title section *)

Section Title.

Lemma plain_looks_alts_lit L : plain_looks (alts (map lit L)) = true.
Proof.
  induction L as [| t [| t2 L] IH]; [reflexivity | apply plain_looks_lit |].
  change (alts (map lit (t :: t2 :: L)))
    with (Alt (lit t) (alts (map lit (t2 :: L)))).
  cbn [plain_looks]. now rewrite plain_looks_lit, IH.
Qed.

(** A pattern that is one group around alternative keywords. *)
Lemma keyword_group L text :
  L <> [] ->
  keyword_of L text (group1_or_empty (Group 1 (alts (map lit L))) text).
Proof.
  intros HL. unfold group1_or_empty.
  destruct (search (Group 1 (alts (map lit L))) text) as [m|] eqn:E.
  - apply search_sound in E as (pre & s0 & s' & c' & -> & M & -> & _).
    cbn [Matches] in M. destruct M as (c1 & M & ->).
    apply Matches_alts_lit in M as (t & I & -> & ->); [|exact HL].
    unfold grp, mk_match, set_cap. cbn [m_caps Nat.eqb].
    rewrite consumed_app. left. split; [exact I|]. now exists pre, s'.
  - right. split; [reflexivity|]. intros k I (pre & post & ->).
    eapply search_none in E; [|reflexivity]. revert E.
    eapply match_at_complete with (s' := post)
      (c' := set_cap 1 (consumed (k ++ post) post) no_caps).
    + apply plain_looks_alts_lit.
    + cbn [Matches]. exists no_caps. split; [|reflexivity].
      apply Matches_alts_lit; [exact HL|]. now exists k.
Qed.

Lemma parseInt_run ds :
  ds <> [] -> all isDigit ds -> parseInt ds = of_integer (digits_value ds).
Proof.
  intros Hd A. destruct ds as [| x ds]; [now elim Hd|].
  inversion A as [| ? ? Hx Ads]; subst.
  destruct (digit_neither _ Hx) as (Sx & Mx & Px).
  unfold parseInt. cbn [dropWhile]. rewrite Sx, Mx, Px.
  now rewrite (takeWhile_all A).
Qed.

Lemma floorsRe_shape s s' c' :
  Matches floorsRe s no_caps s' c' ->
  exists ds, s = ds ++ u "층" ++ s' /\ ds <> [] /\ all isDigit ds /\
             c' 1 = Some ds.
Proof.
  unfold floorsRe, dg. cbn [Matches seqs fold_right].
  intros (s1 & c1 & (c2 & H1 & ->) & s2 & c3 & H2 & -> & ->).
  apply Matches_plus_chr in H1 as (ds & -> & Hd & A & ->). apply all_dg in A.
  apply Matches_txt in H2 as [-> ->].
  exists ds. rewrite consumed_app. repeat split; auto.
Qed.

End Title.

(** X13: in the title information the structure and the building type are
    each one of the pattern's keywords, found in the text, and empty exactly
    when the text holds none of them; the floor count is 0 or the value of a
    run of digits that stands before 층 in the text, never NaN; the land-right
    ratio and the exclusive area are absent unless the text is that of an
    aggregate building. *)
Theorem title_fields_are_keywords : forall text,
  keyword_of structureNames text
    (RegistryTitleInfo.structure (parseTitleSection text)) /\
  keyword_of buildingTypeNames text
    (RegistryTitleInfo.buildingType (parseTitleSection text)) /\
  (RegistryTitleInfo.floors (parseTitleSection text) = Int 0 \/
   exists ds, ds <> [] /\ all isDigit ds /\ occurs (ds ++ u "층") text /\
     RegistryTitleInfo.floors (parseTitleSection text)
       = of_integer (digits_value ds)) /\
  (includes text (u "집합건물") = false ->
   RegistryTitleInfo.landRightRatio (parseTitleSection text) = None /\
   RegistryTitleInfo.exclusiveArea (parseTitleSection text) = None).
Proof.
  intros text. unfold parseTitleSection.
  cbn [RegistryTitleInfo.structure RegistryTitleInfo.buildingType
       RegistryTitleInfo.floors RegistryTitleInfo.landRightRatio
       RegistryTitleInfo.exclusiveArea].
  split; [|split; [|split]].
  - apply (@keyword_group structureNames text). discriminate.
  - apply (@keyword_group buildingTypeNames text). discriminate.
  - unfold grp_of. destruct (search floorsRe text) as [m|] eqn:E; [|now left].
    apply search_sound in E as (pre & s0 & s' & c' & -> & M & -> & _).
    apply floorsRe_shape in M as (ds & -> & Hd & A & G).
    unfold grp, mk_match. cbn [m_caps]. rewrite G. right.
    exists ds. split; [exact Hd|]. split; [exact A|]. split.
    + exists pre, s'. now rewrite <- app_assoc.
    + now apply parseInt_run.
  - intros H. unfold detectPropertyType. rewrite H. auto.
Qed.

Lemma title_fields_are_keywords_witness :
  RegistryTitleInfo.landRightRatio
    (parseTitleSection (u "대지권비율 100분의 25")) = None /\
  RegistryTitleInfo.exclusiveArea
    (parseTitleSection (u "대지권비율 100분의 25")) = None.
Proof.
  apply (proj2 (proj2 (proj2
           (title_fields_are_keywords (u "대지권비율 100분의 25"))))).
  reflexivity.
Defined.

(** ** Floor areas *)

Section FloorAreas.

Lemma split_lines_aux_app a : forall cur b,
  split_lines_aux cur (a ++ NL :: b)
  = split_lines_aux cur a ++ split_lines_aux [] b.
Proof.
  induction a as [| x a IH]; intros cur b.
  - reflexivity.
  - cbn [app split_lines_aux]. destruct (x =? NL)%N.
    + now rewrite IH.
    + apply IH.
Qed.

Lemma split_lines_aux_line line : forall cur,
  ~ In NL line -> split_lines_aux cur line = [rev cur ++ line].
Proof.
  induction line as [| x line IH]; intros cur Hn.
  - cbn. now rewrite app_nil_r.
  - cbn [split_lines_aux]. destruct (N.eqb_spec x NL) as [-> | Hx].
    + elim Hn. now left.
    + rewrite IH by (intros I; apply Hn; now right).
      cbn [rev]. now rewrite <- app_assoc.
Qed.

Lemma dcd_mem x :
  cmem dcd x = true <-> isDigit x || (x =? 44)%N || (x =? 46)%N = true.
Proof.
  unfold dcd. cbn [cmem existsb atom_mem].
  now rewrite orb_false_r, orb_assoc.
Qed.

Lemma all_dcd w :
  all (cmem dcd) w <->
  all (fun x => isDigit x || (x =? 44)%N || (x =? 46)%N) w.
Proof. split; apply Forall_impl; intros a; apply dcd_mem. Qed.

Lemma floorLabel_shape s c s' c' :
  Matches (alts [seqs [txt "지"; opt (txt "하"); plus dg; txt "층"];
                 seqs [plus dg; txt "층"];
                 seqs [txt "옥탑"; plus dg; txt "층"]]) s c s' c' ->
  exists f, s = f ++ s' /\ floor_label f /\ c' = c.
Proof.
  unfold dg, opt. cbn [alts Matches seqs fold_right].
  intros [H | [H | H]].
  - destruct H as (s1 & c1 & H1 & s2 & c2 & H2 & s3 & c3 & H3 & s4 & c4 & H4
                   & -> & ->).
    apply Matches_txt in H1 as [-> ->].
    apply Matches_plus_chr in H3 as (ds & -> & Hd & A & ->). apply all_dg in A.
    apply Matches_txt in H4 as [-> ->].
    destruct H2 as [H2 | [<- ->]].
    + apply Matches_txt in H2 as [-> ->].
      exists (u "지하" ++ ds ++ u "층"). split; [|split; [|reflexivity]].
      * repeat rewrite <- app_assoc. reflexivity.
      * exists (u "지하"), ds. repeat split; auto. simpl. auto.
    + exists (u "지" ++ ds ++ u "층"). split; [|split; [|reflexivity]].
      * repeat rewrite <- app_assoc. reflexivity.
      * exists (u "지"), ds. repeat split; auto. simpl. auto.
  - destruct H as (s1 & c1 & H1 & s2 & c2 & H2 & -> & ->).
    apply Matches_plus_chr in H1 as (ds & -> & Hd & A & ->). apply all_dg in A.
    apply Matches_txt in H2 as [-> ->].
    exists (ds ++ u "층"). split; [|split; [|reflexivity]].
    + repeat rewrite <- app_assoc. reflexivity.
    + exists [], ds. repeat split; auto. simpl. auto.
  - destruct H as (s1 & c1 & H1 & s2 & c2 & H2 & s3 & c3 & H3 & -> & ->).
    apply Matches_txt in H1 as [-> ->].
    apply Matches_plus_chr in H2 as (ds & -> & Hd & A & ->). apply all_dg in A.
    apply Matches_txt in H3 as [-> ->].
    exists (u "옥탑" ++ ds ++ u "층"). split; [|split; [|reflexivity]].
    + repeat rewrite <- app_assoc. reflexivity.
    + exists (u "옥탑"), ds. repeat split; auto. simpl. auto.
Qed.

Lemma floorAreaRe_shape s s' c' :
  Matches floorAreaRe s no_caps s' c' ->
  exists f w1 n w2,
    s = f ++ w1 ++ n ++ w2 ++ u "㎡" ++ s' /\ floor_label f /\
    all isSpace w1 /\ n <> [] /\
    all (fun x => isDigit x || (x =? 44)%N || (x =? 46)%N) n /\
    all isSpace w2 /\ c' 1 = Some f /\ c' 2 = Some n.
Proof.
  unfold floorAreaRe, sqm. cbn [Matches seqs fold_right].
  intros (s1 & c1 & (c0 & H1 & ->) & s2 & c2 & H2 & s3 & c3 & (c4 & H3 & ->)
          & s4 & c5 & H4 & s5 & c6 & H5 & -> & ->).
  apply floorLabel_shape in H1 as (f & -> & Hf & ->).
  apply Matches_star_chr in H2 as (w1 & -> & A1 & ->). apply all_spc in A1.
  apply Matches_plus_chr in H3 as (n & -> & Hn & A2 & ->). apply all_dcd in A2.
  apply Matches_star_chr in H4 as (w2 & -> & A3 & ->). apply all_spc in A3.
  apply Matches_txt in H5 as [-> ->].
  exists f, w1, n, w2. rewrite !consumed_app. unfold set_cap. cbn [Nat.eqb].
  repeat split; auto.
Qed.

Lemma floor_of_line line fa :
  In fa (match search floorAreaRe line with
         | Some m =>
           match grp m 1, grp m 2 with
           | Some f, Some a =>
             [ {| FloorArea.floor := f;
                  FloorArea.area := parseFloat (strip_commas a);
                  FloorArea.isExcluded := includes line (u "연면적제외") |} ]
           | _, _ => []
           end
         | None => []
         end) ->
  exists pre w1 n w2 post,
    line = pre ++ FloorArea.floor fa ++ w1 ++ n ++ w2 ++ u "㎡" ++ post /\
    floor_label (FloorArea.floor fa) /\
    all isSpace w1 /\ n <> [] /\
    all (fun x => isDigit x || (x =? 44)%N || (x =? 46)%N) n /\
    all isSpace w2 /\
    FloorArea.area fa = ParseFloat (strip_commas n) /\
    FloorArea.isExcluded fa = includes line (u "연면적제외").
Proof.
  destruct (search floorAreaRe line) as [m|] eqn:E; [|intros []].
  apply search_sound in E as (pre & s0 & s' & c' & El & M & -> & _).
  apply floorAreaRe_shape in M as (f & w1 & n & w2 & -> & Hf & A1 & Hn & A2
                                   & A3 & G1 & G2).
  unfold grp, mk_match. cbn [m_caps]. rewrite G1, G2.
  intros [<- | []]. cbn [FloorArea.floor FloorArea.area FloorArea.isExcluded].
  exists pre, w1, n, w2, s'. repeat split; auto.
Qed.

End FloorAreas.

(** X14: the floor areas are read line by line: the areas of two texts joined
    by a line break are those of the first followed by those of the second,
    and a single line gives at most one area, however many it holds. *)
Theorem floor_areas_line_by_line :
  (forall a b,
     parseFloorAreas (a ++ NL :: b) = parseFloorAreas a ++ parseFloorAreas b) /\
  (forall line, ~ In NL line -> length (parseFloorAreas line) <= 1).
Proof.
  split.
  - intros a b. unfold parseFloorAreas, split_lines.
    now rewrite split_lines_aux_app, flat_map_app.
  - intros line Hn. unfold parseFloorAreas, split_lines.
    rewrite split_lines_aux_line by exact Hn. cbn [flat_map rev app].
    rewrite app_nil_r.
    destruct (search floorAreaRe line) as [m|]; [|simpl; lia].
    destruct (grp m 1), (grp m 2); simpl; lia.
Qed.

Lemma floor_areas_line_by_line_witness :
  length (parseFloorAreas (u "1층 10.5㎡ 2층 20㎡")) <= 1 /\
  map FloorArea.floor (parseFloorAreas (u "1층 10.5㎡ 2층 20㎡")) = [u "1층"].
Proof.
  split; [|reflexivity].
  apply (proj2 floor_areas_line_by_line (u "1층 10.5㎡ 2층 20㎡")).
  vm_compute. intuition discriminate.
Defined.

(** X15: every floor area comes from one line of the text that holds its
    floor label (지, 지하, 옥탑 or nothing, digits, 층), white space, a run of
    digits, commas and dots, white space and ㎡; the area is that run without
    its commas given to parseFloat, and the area is marked excluded exactly
    when its line contains 연면적제외. *)
Theorem floor_area_comes_from_a_line : forall text fa,
  In fa (parseFloorAreas text) ->
  exists line pre w1 n w2 post,
    In line (split_lines text) /\
    line = pre ++ FloorArea.floor fa ++ w1 ++ n ++ w2 ++ u "㎡" ++ post /\
    floor_label (FloorArea.floor fa) /\
    all isSpace w1 /\ n <> [] /\
    all (fun x => isDigit x || (x =? 44)%N || (x =? 46)%N) n /\
    all isSpace w2 /\
    FloorArea.area fa = ParseFloat (strip_commas n) /\
    FloorArea.isExcluded fa = includes line (u "연면적제외").
Proof.
  intros text fa H. unfold parseFloorAreas in H.
  apply in_flat_map in H as (line & Hl & H).
  apply floor_of_line in H as (pre & w1 & n & w2 & post & H).
  exists line, pre, w1, n, w2, post. split; [exact Hl | exact H].
Qed.

Lemma floor_area_comes_from_a_line_witness :
  exists line pre w1 n w2 post,
    In line (split_lines (u "지하1층 1,234.5 ㎡ (연면적제외)")) /\
    line = pre ++ u "지하1층" ++ w1 ++ n ++ w2 ++ u "㎡" ++ post /\
    floor_label (u "지하1층") /\
    all isSpace w1 /\ n <> [] /\
    all (fun x => isDigit x || (x =? 44)%N || (x =? 46)%N) n /\
    all isSpace w2 /\
    ParseFloat (u "1234.5") = ParseFloat (strip_commas n) /\
    true = includes line (u "연면적제외").
Proof.
  apply (floor_area_comes_from_a_line
           (u "지하1층 1,234.5 ㎡ (연면적제외)")
           {| FloorArea.floor := u "지하1층";
              FloorArea.area := ParseFloat (u "1234.5");
              FloorArea.isExcluded := true |}).
  vm_compute. left. reflexivity.
Defined.

(** ** extractAddress *)

Section Address.

Lemma dropWhile_split (p : N -> bool) s :
  exists a, s = a ++ dropWhile p s /\ all p a /\ stops p (dropWhile p s).
Proof.
  induction s as [| x s (a & E & A & St)].
  - exists []. repeat split. constructor.
  - cbn [dropWhile]. destruct (p x) eqn:Px.
    + exists (x :: a). split; [cbn; now rewrite <- E|].
      split; [now constructor | exact St].
    + exists []. repeat split; [constructor | exact Px].
Qed.

Lemma all_rev (p : N -> bool) w : all p w -> all p (rev w).
Proof. apply Forall_rev. Qed.

(** What [trim] removes is white space, and what it leaves has none at
    either end. *)
Lemma trim_split s :
  exists a b, s = a ++ trim s ++ b /\ all isSpace a /\ all isSpace b /\
              trimmed (trim s).
Proof.
  unfold trim.
  destruct (dropWhile_split isSpace s) as (a & E & A & St).
  destruct (dropWhile_split isSpace (rev (dropWhile isSpace s)))
    as (b & E2 & B & St2).
  set (d := dropWhile isSpace s) in *.
  set (t := dropWhile isSpace (rev d)) in *.
  assert (Ed : d = rev t ++ rev b).
  { rewrite <- rev_app_distr, <- E2. now rewrite rev_involutive. }
  exists a, (rev b). split; [now rewrite <- Ed|].
  split; [exact A|]. split; [now apply all_rev|]. split.
  - destruct (rev t) as [| x r] eqn:Er; [exact I|].
    rewrite Ed in St. exact St.
  - now rewrite rev_involutive.
Qed.

Lemma all_app_inv (p : N -> bool) a b : all p (a ++ b) -> all p a /\ all p b.
Proof. apply Forall_app. Qed.

Lemma addressRe_shape s s' c' :
  Matches addressRe s no_caps s' c' ->
  exists tag w g e,
    s = u "[" ++ tag ++ u "]" ++ w ++ g ++ e ++ s' /\
    In tag [u "건물"; u "집합건물"] /\ all isSpace w /\
    all (fun x => negb (isLineTerminator x)) g /\ c' 1 = Some g.
Proof.
  unfold addressRe.
  change (alts [txt "건물"; txt "집합건물"])
    with (alts (map lit [u "건물"; u "집합건물"])).
  cbn [Matches seqs fold_right].
  intros (s1 & c1 & H1 & s2 & c2 & H2 & s3 & c3 & H3 & s4 & c4 & H4
          & s5 & c5 & (c6 & H5 & ->) & s6 & c7 & H6 & -> & ->).
  apply Matches_txt in H1 as [-> ->].
  apply Matches_alts_lit in H2 as (tag & I & -> & ->); [|discriminate].
  apply Matches_txt in H3 as [-> ->].
  apply Matches_star_chr in H4 as (w & -> & A1 & ->). apply all_spc in A1.
  apply (proj1 (@Matches_plus_chr Dot _ _ _ _)) in H5
    as (g & -> & _ & A2 & ->).
  apply groupless_caps in H6 as Ec; [|reflexivity]. subst c7.
  apply Matches_suffix in H6 as [e ->].
  exists tag, w, g, e. rewrite consumed_app. unfold set_cap. cbn [Nat.eqb].
  repeat split; auto.
Qed.

End Address.

(** X16: the property address is empty, or it stands in the text after
    [건물] or [집합건물] and white space; it holds no line break and has no
    white space at either end. *)
Theorem address_is_one_trimmed_line : forall text,
  (extractAddress text = [] \/
   exists pre tag w post,
     text = pre ++ u "[" ++ tag ++ u "]" ++ w ++ extractAddress text ++ post /\
     In tag [u "건물"; u "집합건물"] /\ all isSpace w) /\
  all (fun x => negb (isLineTerminator x)) (extractAddress text) /\
  trimmed (extractAddress text).
Proof.
  intros text. unfold extractAddress, group1_or_empty.
  destruct (search addressRe text) as [m|] eqn:E.
  - apply search_sound in E as (pre & s0 & s' & c' & -> & M & -> & _).
    apply addressRe_shape in M as (tag & w & g & e & -> & I & A1 & A2 & G).
    unfold grp, mk_match. cbn [m_caps]. rewrite G.
    destruct (trim_split g) as (a & b & Eg & Aa & Ab & T).
    split; [|split; [|exact T]].
    + right. exists pre, tag, (w ++ a), (b ++ e ++ s').
      split; [|split; [exact I | now apply Forall_app]].
      rewrite Eg at 1. now rewrite <- !app_assoc.
    + rewrite Eg in A2. apply all_app_inv in A2 as [_ A2].
      now apply all_app_inv in A2 as [A2 _].
  - split; [now left|]. split; [constructor | split; exact I].
Qed.

(** ** The upload handlers *)

Section Route.

Lemma str_eqb_eq a : forall b, str_eqb a b = true <-> a = b.
Proof.
  induction a as [| x a IH]; intros [| y b]; simpl;
    try (split; [discriminate | discriminate || congruence]).
  - split; auto.
  - rewrite andb_true_iff, N.eqb_eq, IH. split.
    + now intros [-> ->].
    + intros E. inversion E. auto.
Qed.

End Route.

(** X17: when the form of a POST request can be read, the answer has status
    200 and carries the parser's response exactly when the entry [file] is a
    File whose lower-cased name ends in .pdf, whose size is at most 10 MB and
    whose text extraction comes back, whether or not the document could then
    be parsed; that response is a paid one exactly when the entry [isPaid] is
    the text true. *)
Theorem POST_answers_200_iff_accepted : forall host env request fd,
  formData request = Returned fd ->
  ((exists result sent,
      POST host env request
        = Returned ({| status := 200; json := Result result |}, sent)) <->
   (exists f, get fd (u "file") = Some (FileValue f) /\ accepted host f /\
              extraction_hangs env (File.bytes f) = false)) /\
  (forall resp sent result,
     POST host env request = Returned (resp, sent) ->
     json resp = Result result ->
     (ParseResponse.isDemo result = false <->
      get fd (u "isPaid") = Some (StringValue (u "true")))).
Proof.
  intros host env request fd Hfd. unfold POST, accepted. rewrite Hfd.
  destruct (get fd (u "file")) as [[[| c s] | f]|].
  - split.
    + split; [intros (r & st & E); discriminate|].
      intros (f & E & _); discriminate.
    + intros resp sent result E. inversion E; subst. discriminate.
  - split.
    + split; [intros (r & st & E); discriminate|].
      intros (f & E & _); discriminate.
    + intros resp sent result E. inversion E; subst. discriminate.
  - destruct (endsWith (toLowerCase host (File.name f)) (u ".pdf")) eqn:En;
      cbn [negb].
    2:{ split.
        - split; [intros (r & st & E); discriminate|].
          intros (f' & E & (F & _) & _). inversion E; subst. congruence.
        - intros resp sent result E. inversion E; subst. discriminate. }
    destruct (N.ltb_spec (10 * 1024 * 1024) (File.size f)) as [Hs | Hs].
    { split.
      - split; [intros (r & st & E); discriminate|].
        intros (f' & E & (_ & F) & _). inversion E; subst. lia.
      - intros resp sent result E. inversion E; subst. discriminate. }
    set (isPaid := match get fd (u "isPaid") with
                   | Some (StringValue s) => str_eqb s (u "true")
                   | _ => false
                   end).
    destruct (extraction_hangs env (File.bytes f)) eqn:Hh.
    { rewrite (parseAndProcessPDF_hangs env (File.bytes f) isPaid
                 (webhookArg (get fd (u "webhookUrl"))) Hh).
      split.
      - split; [intros (r & st & E); discriminate|].
        intros (f' & E & _ & F). inversion E; subst. congruence.
      - intros resp sent result E. discriminate. }
    destruct (parseAndProcessPDF_returns env (File.bytes f) isPaid
                (webhookArg (get fd (u "webhookUrl"))) Hh)
      as (result & sent & -> & Hd & _).
    split.
    + split; [|intros _; now exists result, sent].
      intros _. exists f. auto.
    + intros resp sent' result' E J. inversion E; subst resp sent'.
      cbn [json] in J. inversion J; subst result'. rewrite Hd.
      subst isPaid. destruct (get fd (u "isPaid")) as [[s | f']|].
      * destruct (str_eqb s (u "true")) eqn:Es; cbn [negb].
        -- apply str_eqb_eq in Es. subst s. split; auto.
        -- split; [discriminate|]. intros E'. inversion E' as [E2].
           rewrite E2 in Es. now rewrite (proj2 (str_eqb_eq _ _) eq_refl) in Es.
      * split; discriminate.
      * split; discriminate.
  - split.
    + split; [intros (r & st & E); discriminate|].
      intros (f & E & _); discriminate.
    + intros resp sent result E. inversion E; subst. discriminate.
Qed.

Lemma POST_answers_200_iff_accepted_witness :
  exists result sent,
    POST sampleHost (sampleEnv None None) sampleUpload
      = Returned ({| status := 200; json := Result result |}, sent) /\
    ParseResponse.success result = false.
Proof.
  destruct (proj2 (proj1 (@POST_answers_200_iff_accepted
              sampleHost (sampleEnv None None) sampleUpload _ eq_refl)))
    as (result & sent & E).
  - exists sampleScan. split; [reflexivity|]. split; [|reflexivity].
    split; [reflexivity | vm_compute; discriminate].
  - exists result, sent. split; [exact E|].
    vm_compute in E. now inversion E.
Defined.

(** X18: a POST request does not come back exactly when its form is never
    delivered or it uploads an accepted File whose text extraction hangs.
    Every other request is answered: with status 200 and a parse response,
    or with 400 or 500, no parse response and no webhook sent; 400 carries
    one of three fixed error texts; 500 carries the id of
    [crypto.randomUUID] and arises only when the form cannot be read or the
    entry [file] is a non-empty string: a document that cannot be parsed is
    not answered with 500. *)
Theorem POST_statuses : forall host env request,
  (upload_hangs host env request /\ POST host env request = Diverged) \/
  (~ upload_hangs host env request /\
   exists resp sent,
     POST host env request = Returned (resp, sent) /\
     ((status resp = 200%N /\ exists result, json resp = Result result) \/
      (status resp = 400%N /\ sent = [] /\
       exists error, json resp = Refusal error /\
                     In error [fileRequired; pdfOnly; tooLarge]) \/
      (status resp = 500%N /\ sent = [] /\
       (exists error, json resp = Failure error (randomUUID host) true) /\
       ((exists e, formData request = Threw e) \/
        exists fd c s, formData request = Returned fd /\
                       get fd (u "file") = Some (StringValue (c :: s)))))).
Proof.
  intros host env request. unfold POST, upload_hangs, accepted.
  destruct (formData request) as [fd | e |] eqn:Ef.
  - destruct (get fd (u "file")) as [[[| c s] | f]|] eqn:Eg.
    + right. split.
      { intros [F | (fd' & f & E & G & _)]; [discriminate|].
        inversion E; subst fd'. congruence. }
      exists (refusal fileRequired), []. split; [reflexivity|]. right. left.
      split; [reflexivity|]. split; [reflexivity|].
      exists fileRequired. split; [reflexivity|]. left. reflexivity.
    + right. split.
      { intros [F | (fd' & f & E & G & _)]; [discriminate|].
        inversion E; subst fd'. congruence. }
      exists (serverFailure host nameOfString), []. split; [reflexivity|].
      right. right. split; [reflexivity|]. split; [reflexivity|].
      split; [eexists; reflexivity|]. right. now exists fd, c, s.
    + destruct (endsWith (toLowerCase host (File.name f)) (u ".pdf")) eqn:En;
        cbn [negb].
      2:{ right. split.
          { intros [F | (fd' & f' & E & G & (A & _) & _)]; [discriminate|].
            inversion E; subst fd'. rewrite Eg in G. inversion G; subst f'.
            congruence. }
          exists (refusal pdfOnly), []. split; [reflexivity|]. right. left.
          split; [reflexivity|]. split; [reflexivity|].
          exists pdfOnly. split; [reflexivity|]. right. left. reflexivity. }
      destruct (N.ltb_spec (10 * 1024 * 1024) (File.size f)) as [Hs | Hs].
      { right. split.
        { intros [F | (fd' & f' & E & G & (_ & A) & _)]; [discriminate|].
          inversion E; subst fd'. rewrite Eg in G. inversion G; subst f'.
          lia. }
        exists (refusal tooLarge), []. split; [reflexivity|]. right. left.
        split; [reflexivity|]. split; [reflexivity|].
        exists tooLarge. split; [reflexivity|]. right. right. left.
        reflexivity. }
      destruct (extraction_hangs env (File.bytes f)) eqn:Hh.
      * left. split.
        { right. exists fd, f. auto. }
        now rewrite parseAndProcessPDF_hangs.
      * right. split.
        { intros [F | (fd' & f' & E & G & _ & A)]; [discriminate|].
          inversion E; subst fd'. rewrite Eg in G. inversion G; subst f'.
          congruence. }
        match goal with
        | |- context [parseAndProcessPDF ?a ?b ?c ?d] =>
          destruct (parseAndProcessPDF_returns a b c d Hh)
            as (result & sent & -> & _)
        end.
        exists {| status := 200; json := Result result |}, sent.
        split; [reflexivity|]. left. split; [reflexivity|]. now exists result.
    + right. split.
      { intros [F | (fd' & f & E & G & _)]; [discriminate|].
        inversion E; subst fd'. congruence. }
      exists (refusal fileRequired), []. split; [reflexivity|]. right. left.
      split; [reflexivity|]. split; [reflexivity|].
      exists fileRequired. split; [reflexivity|]. left. reflexivity.
  - right. split.
    { intros [F | (fd' & f & E & _)]; discriminate. }
    exists (serverFailure host e), []. split; [reflexivity|].
    right. right. split; [reflexivity|]. split; [reflexivity|].
    split; [eexists; reflexivity|]. left. now exists e.
  - left. split; [now left | reflexivity].
Qed.

Lemma POST_statuses_witness :
  POST sampleHost (sampleEnv (Some shareNotePdf) None) sampleUpload = Diverged /\
  POST sampleHost (sampleEnv (Some shareNotePdf) None) sampleImageUpload
    = Returned (refusal pdfOnly, []).
Proof.
  split.
  - destruct (POST_statuses sampleHost (sampleEnv (Some shareNotePdf) None)
                sampleUpload) as [[_ E] | [_ (resp & sent & E & _)]].
    + exact E.
    + vm_compute in E. discriminate.
  - destruct (POST_statuses sampleHost (sampleEnv (Some shareNotePdf) None)
                sampleImageUpload) as [[_ E] | [_ (resp & sent & E & _)]].
    + vm_compute in E. discriminate.
    + vm_compute in E. vm_compute. exact eq_refl.
Defined.

(** X19: a PUT request never sends a webhook; and every File it uploads,
    whatever its name and size and whatever the entries [isPaid] and
    [webhookUrl] of the form say, is given to the parser: when its text
    extraction comes back, the answer has status 200 and a demo response,
    flagged [isDemo], with no data or with the masked document; when the
    extraction hangs, the request does not come back. *)
Theorem PUT_is_always_demo : forall host env request,
  (forall resp sent,
     PUT host env request = Returned (resp, sent) -> sent = []) /\
  (forall fd f,
     formData request = Returned fd ->
     get fd (u "file") = Some (FileValue f) ->
     if extraction_hangs env (File.bytes f) then
       PUT host env request = Diverged
     else
       exists result,
         PUT host env request
           = Returned ({| status := 200; json := Result result |}, []) /\
         demo_result env (File.bytes f) result).
Proof.
  intros host env request. unfold PUT. split.
  - intros resp sent.
    destruct (formData request) as [fd | e |]; [| |discriminate].
    + destruct (get fd (u "file")) as [[[| c s] | f]|];
        try (intros E; now inversion E).
      destruct (extraction_hangs env (File.bytes f)) eqn:Hh.
      * now rewrite parseAndProcessPDF_hangs.
      * destruct (parseAndProcessPDF_returns env (File.bytes f) false None Hh)
          as (result & sent' & -> & _ & _ & Hs).
        intros E. inversion E; subst. now apply Hs.
    + intros E. now inversion E.
  - intros fd f -> ->.
    destruct (extraction_hangs env (File.bytes f)) eqn:Hh.
    + now rewrite parseAndProcessPDF_hangs.
    + destruct (parseAndProcessPDF_returns env (File.bytes f) false None Hh)
        as (result & sent & -> & Hi & Hdata & Hs).
      rewrite (Hs eq_refl). exists result. split; [reflexivity|].
      split; [exact Hi | exact Hdata].
Qed.

Lemma PUT_is_always_demo_witness :
  exists result,
    PUT sampleHost (sampleEnv (Some ownerPdf) None) sampleImageUpload
      = Returned ({| status := 200; json := Result result |}, []) /\
    demo_result (sampleEnv (Some ownerPdf) None) (File.bytes sampleImage)
      result.
Proof.
  pose proof (proj2 (PUT_is_always_demo sampleHost
                       (sampleEnv (Some ownerPdf) None) sampleImageUpload)
                (formOf sampleImage) sampleImage eq_refl eq_refl) as H.
  assert (Hh : extraction_hangs (sampleEnv (Some ownerPdf) None)
                 (File.bytes sampleImage) = false)
    by (vm_compute; reflexivity).
  rewrite Hh in H. exact H.
Defined.

(** ** Dates and parties of an entry *)

Section Parties.

(** What a pattern's capture holds, read off the shape of its matches. *)
Lemma grp_of_search re (P : str -> Prop) i text d :
  (forall s s' c', Matches re s no_caps s' c' ->
     forall x, c' i = Some x -> P x) ->
  grp_of (search re text) i = Some d -> P d.
Proof.
  intros Sh H. unfold grp_of in H.
  destruct (search re text) as [m|] eqn:E; [|discriminate].
  apply search_sound in E as (pre & s0 & s' & c' & _ & M & -> & _).
  eapply Sh; eauto.
Qed.

Lemma date_first_shape tail s s' c' :
  groupless tail = true ->
  Matches (seqs [Group 1 dateRe; many ws; tail]) s no_caps s' c' ->
  forall x, c' 1 = Some x -> date_form x.
Proof.
  intros G. cbn [Matches seqs fold_right].
  intros (s1 & c1 & (c0 & H1 & ->) & s2 & c2 & H2 & s3 & c3 & H3 & -> & ->).
  apply dateRe_shape in H1 as (d & -> & F & ->).
  apply Matches_star_chr in H2 as (w & -> & _ & ->).
  apply (groupless_caps _ G) in H3. subst c3.
  unfold set_cap. cbn [Nat.eqb]. rewrite consumed_app.
  intros x E. inversion E; subst. exact F.
Qed.

Lemma labelledDateRe_shape label s s' c' :
  Matches (labelledDateRe label) s no_caps s' c' ->
  forall x, c' 1 = Some x -> date_form x.
Proof.
  unfold labelledDateRe. cbn [Matches seqs fold_right].
  intros (s1 & c1 & H1 & s2 & c2 & H2 & s3 & c3 & (c0 & H3 & ->) & -> & ->).
  apply Matches_txt in H1 as [-> ->].
  apply Matches_star_chr in H2 as (w & -> & _ & ->).
  apply dateRe_shape in H3 as (d & -> & F & ->).
  unfold set_cap. cbn [Nat.eqb]. rewrite consumed_app.
  intros x E. inversion E; subst. exact F.
Qed.

Lemma Matches_rep_dg n : forall s c s' c',
  Matches (rep n dg) s c s' c' ->
  exists w, s = w ++ s' /\ length w = n /\ all isDigit w /\ c' = c.
Proof.
  induction n as [| n IH]; intros s c s' c'; cbn [rep Matches].
  - intros [-> ->]. exists []. repeat split. constructor.
  - intros (s1 & c1 & H1 & H2).
    apply Matches_dg in H1 as (x & -> & Hx & ->).
    apply IH in H2 as (w & -> & L & A & ->).
    exists (x :: w). repeat split; [simpl; now rewrite L | now constructor].
Qed.

Lemma Matches_rep_lit t n : forall s c s' c',
  Matches (rep n (lit t)) s c s' c' ->
  s = concat (repeat t n) ++ s' /\ c' = c.
Proof.
  induction n as [| n IH]; intros s c s' c'; cbn [rep Matches].
  - intros [-> ->]. auto.
  - intros (s1 & c1 & H1 & H2). apply Matches_lit in H1 as [-> ->].
    apply IH in H2 as [-> ->]. cbn [repeat concat].
    now rewrite <- app_assoc.
Qed.

Lemma residentNo_shape s c s' c' :
  Matches residentNo s c s' c' ->
  exists id, s = id ++ s' /\ masked_resident id /\ c' = c.
Proof.
  unfold residentNo. cbn [Matches seqs fold_right].
  intros (s1 & c1 & H1 & s2 & c2 & H2 & s3 & c3 & H3 & -> & ->).
  apply Matches_rep_dg in H1 as (ds & -> & L & A & ->).
  apply Matches_txt in H2 as [-> ->].
  apply (@Matches_rep_lit (u "*") 7) in H3 as [-> ->].
  exists (ds ++ u "-*******"). split; [|split; [|reflexivity]].
  - rewrite <- app_assoc. reflexivity.
  - now exists ds.
Qed.

Lemma businessNo_shape s c s' c' :
  Matches businessNo s c s' c' ->
  exists id, s = id ++ s' /\ business_number id /\ c' = c.
Proof.
  unfold businessNo. cbn [Matches seqs fold_right].
  intros (s1 & c1 & H1 & s2 & c2 & H2 & s3 & c3 & H3 & s4 & c4 & H4
          & s5 & c5 & H5 & -> & ->).
  apply Matches_rep_dg in H1 as (a & -> & La & Aa & ->).
  apply Matches_txt in H2 as [-> ->].
  apply Matches_rep_dg in H3 as (b & -> & Lb & Ab & ->).
  apply Matches_txt in H4 as [-> ->].
  apply Matches_rep_dg in H5 as (d & -> & Ld & Ad & ->).
  exists (a ++ u "-" ++ b ++ u "-" ++ d). split; [|split; [|reflexivity]].
  - repeat rewrite <- app_assoc. reflexivity.
  - exists a, b, d. repeat split; auto.
Qed.

(** The two identity patterns, in either order of their alternatives. *)
Lemma either_id_shape s c s' c' :
  Matches (alts [residentNo; businessNo]) s c s' c' \/
  Matches (alts [businessNo; residentNo]) s c s' c' ->
  exists id, s = id ++ s' /\ (masked_resident id \/ business_number id) /\
             c' = c.
Proof.
  cbn [alts Matches].
  intros [[H | H] | [H | H]];
    (apply residentNo_shape in H as (id & -> & F & ->)
     || apply businessNo_shape in H as (id & -> & F & ->));
    exists id; auto.
Qed.

(** The captures of a party pattern. *)
Lemma partyRe_shape label name id address (ids : str -> Prop) s s' c' :
  (forall t c t' c0, Matches id t c t' c0 ->
     exists w, t = w ++ t' /\ ids w /\ c0 = c) ->
  Matches (partyRe label name id address) s no_caps s' c' ->
  (exists n, c' 1 = Some n /\ all (cmem name) n) /\
  (forall x, c' 2 = Some x -> ids x).
Proof.
  intros Hid. unfold partyRe, opt. cbn [Matches seqs fold_right].
  intros (s1 & c1 & H1 & s2 & c2 & H2 & s3 & c3 & (c0 & H3 & ->)
          & s4 & c4 & H4 & s5 & c5 & H5 & s6 & c6 & H6 & s7 & c7 & H7
          & s8 & c8 & H8 & s9 & c9 & (c10 & H9 & ->) & -> & ->).
  apply Matches_txt in H1 as [-> ->].
  apply Matches_plus_chr in H2 as (w1 & -> & _ & _ & ->).
  apply Matches_plus_chr in H3 as (n & -> & _ & An & ->).
  apply Matches_plus_chr in H4 as (w2 & -> & _ & _ & ->).
  apply Matches_star_chr in H6 as (w3 & -> & _ & ->).
  assert (E7 : c7 = c5).
  { destruct H7 as [H7 | [_ ->]]; [|reflexivity].
    now apply Matches_chr in H7 as [_ ->]. }
  subst c7.
  apply Matches_star_chr in H8 as (w4 & -> & _ & ->).
  apply Matches_star_chr in H9 as (a & -> & _ & ->).
  rewrite consumed_app in H5.
  destruct H5 as [(c11 & H5 & ->) | [_ ->]].
  - apply Hid in H5 as (x & Ex & Ix & ->).
    unfold set_cap. cbn [Nat.eqb]. split; [eauto|].
    intros y E. inversion E; subst y. rewrite Ex.
    now rewrite consumed_app.
  - unfold set_cap. cbn [Nat.eqb]. split; [eauto|]. discriminate.
Qed.

Lemma trim_all (p : N -> bool) s : all p s -> all p (trim s).
Proof.
  intros A. destruct (trim_split s) as (a & b & E & _).
  rewrite E in A. apply Forall_app in A as [_ A].
  now apply Forall_app in A as [A _].
Qed.

Lemma trim_trimmed s : trimmed (trim s).
Proof. now destruct (trim_split s) as (a & b & _ & _ & _ & T). Qed.

(** The name and number fields built from a match of a party pattern. *)
Lemma party_of_match label name id address (ids : str -> Prop) text o :
  (forall t c t' c0, Matches id t c t' c0 ->
     exists w, t = w ++ t' /\ ids w /\ c0 = c) ->
  (forall x, cmem name x = true -> negb (isDigit x) = true) ->
  search (partyRe label name id address) text = Some o ->
  party_fields ids (trim (match grp o 1 with Some g => g | None => [] end))
               (grp o 2).
Proof.
  intros Hid Hname E.
  apply search_sound in E as (pre & s0 & s' & c' & _ & M & -> & _).
  apply (partyRe_shape ids Hid) in M as ((n & G1 & An) & G2).
  unfold grp, mk_match. cbn [m_caps]. rewrite G1.
  split; [|split; [apply trim_trimmed | exact G2]].
  apply trim_all. revert An. apply Forall_impl. exact Hname.
Qed.

Lemma no_digit_1 x : cmem (NoneOf [Dig]) x = true -> negb (isDigit x) = true.
Proof. cbn [cmem existsb atom_mem]. now rewrite orb_false_r. Qed.

Lemma no_digit_2 x :
  cmem (NoneOf [Dig; Ch NL]) x = true -> negb (isDigit x) = true.
Proof.
  cbn [cmem existsb atom_mem]. rewrite orb_false_r.
  destruct (isDigit x); [discriminate | reflexivity].
Qed.

Lemma resident_ids t c t' c0 :
  Matches residentNo t c t' c0 ->
  exists w, t = w ++ t' /\ masked_resident w /\ c0 = c.
Proof. apply residentNo_shape. Qed.

Lemma either_ids_1 t c t' c0 :
  Matches (alts [residentNo; businessNo]) t c t' c0 ->
  exists w, t = w ++ t' /\ (masked_resident w \/ business_number w) /\ c0 = c.
Proof. intros H. apply either_id_shape. now left. Qed.

Lemma either_ids_2 t c t' c0 :
  Matches (alts [businessNo; residentNo]) t c t' c0 ->
  exists w, t = w ++ t' /\ (masked_resident w \/ business_number w) /\ c0 = c.
Proof. intros H. apply either_id_shape. now right. Qed.

End Parties.

(** X20: every date field of an entry that is filled (the dates of the
    registration cause, of the lease contract, of the resident registration,
    of the start of possession and the fixed date) has the form of a date:
    four digits, 년, one or two digits, 월, one or two digits, 일. *)
Theorem date_fields_have_date_form : forall m,
  (forall d, SectionAEntry.registrationCauseDate (entryA m) = Some d ->
     date_form d) /\
  (forall d, SectionBEntry.registrationCauseDate (entryB m) = Some d ->
     date_form d) /\
  (forall t, SectionBEntry.leaseTerm (entryB m) = Some t ->
     date_form (LeaseTermInfo.contractDate t) /\
     (forall d, LeaseTermInfo.residentRegistrationDate t = Some d ->
        date_form d) /\
     (forall d, LeaseTermInfo.possessionStartDate t = Some d -> date_form d) /\
     (forall d, LeaseTermInfo.fixedDate t = Some d -> date_form d)).
Proof.
  intros m. split; [|split].
  - intros d. unfold entryA. cbn [SectionAEntry.registrationCauseDate].
    apply grp_of_search. intros s s' c'. now apply date_first_shape.
  - intros d. unfold entryB. cbn [SectionBEntry.registrationCauseDate].
    apply grp_of_search. intros s s' c'. now apply date_first_shape.
  - intros t. unfold entryB. cbn [SectionBEntry.leaseTerm].
    destruct (search (labelledDateRe "임대차계약일자") (m_text m))
      as [cm|] eqn:E; [|discriminate].
    intros H. inversion H; subst t. clear H.
    cbn [LeaseTermInfo.contractDate LeaseTermInfo.residentRegistrationDate
         LeaseTermInfo.possessionStartDate LeaseTermInfo.fixedDate].
    split; [|split; [|split]].
    + apply search_sound in E as (pre & s0 & s' & c' & _ & M & -> & _).
      unfold grp, mk_match. cbn [m_caps].
      destruct (c' 1) as [x|] eqn:G.
      * exact (labelledDateRe_shape M G).
      * exfalso. unfold labelledDateRe in M. cbn [Matches seqs fold_right] in M.
        destruct M as (s1 & c1 & _ & s2 & c2 & _ & s3 & c3 & (c0 & _ & Ec)
                       & _ & Ec').
        subst c' c3. unfold set_cap in G. cbn [Nat.eqb] in G. discriminate.
    + intros d. apply grp_of_search. intros s s' c'.
      apply labelledDateRe_shape.
    + intros d. apply grp_of_search. intros s s' c'.
      apply labelledDateRe_shape.
    + intros d. apply grp_of_search. intros s s' c'.
      apply labelledDateRe_shape.
Qed.

Lemma date_fields_have_date_form_witness :
  date_form (u "2019년 12월 30일") /\ date_form (u "2019년 5월 7일").
Proof.
  split.
  - apply (proj1 (date_fields_have_date_form transferRow)).
    vm_compute. reflexivity.
  - destruct (proj2 (proj2 (date_fields_have_date_form leaseRow))
                {| LeaseTermInfo.contractDate := u "2019년 5월 6일";
                   LeaseTermInfo.residentRegistrationDate := None;
                   LeaseTermInfo.possessionStartDate := None;
                   LeaseTermInfo.fixedDate := Some (u "2019년 5월 7일") |})
      as (_ & _ & _ & F).
    + vm_compute. reflexivity.
    + apply F. reflexivity.
Defined.

(** X21: the identity number of a party of an entry is read only in the
    form the register prints: six digits, a hyphen and seven asterisks for
    an owner or a lessee, that or a business number (3-2-5 digits) for a
    creditor, a debtor or a mortgagee; a number printed in full is never
    reported as the party's number. The party's name holds no digit and no
    white space at its ends. *)
Theorem identity_numbers_are_read_masked : forall m,
  (forall o, SectionAEntry.owner (entryA m) = Some o ->
     party_fields masked_resident
       (OwnerInfo.name o) (OwnerInfo.residentNumber o)) /\
  (forall c, SectionAEntry.creditor (entryA m) = Some c ->
     party_fields (fun id => masked_resident id \/ business_number id)
       (CreditorInfo.name c) (CreditorInfo.residentNumber c)) /\
  (forall d, SectionBEntry.debtor (entryB m) = Some d ->
     party_fields (fun id => masked_resident id \/ business_number id)
       (OwnerInfo.name d) (OwnerInfo.residentNumber d)) /\
  (forall g, SectionBEntry.mortgagee (entryB m) = Some g ->
     party_fields (fun id => masked_resident id \/ business_number id)
       (CreditorInfo.name g) (CreditorInfo.residentNumber g)) /\
  (forall l, SectionBEntry.lessee (entryB m) = Some l ->
     party_fields masked_resident
       (LesseeInfo.name l) (LesseeInfo.residentNumber l)).
Proof.
  intros m. split; [|split; [|split; [|split]]].
  - intros o. unfold entryA. cbn [SectionAEntry.owner].
    destruct (search ownerRe (m_text m)) as [x|] eqn:E; [|discriminate].
    intros H. inversion H; subst o.
    cbn [OwnerInfo.name OwnerInfo.residentNumber].
    exact (@party_of_match _ _ _ _ masked_resident _ _
             resident_ids no_digit_1 E).
  - intros c. unfold entryA. cbn [SectionAEntry.creditor].
    destruct (search creditorRe (m_text m)) as [x|] eqn:E; [|discriminate].
    intros H. inversion H; subst c.
    cbn [CreditorInfo.name CreditorInfo.residentNumber].
    exact (@party_of_match _ _ _ _ (fun id => masked_resident id \/ business_number id) _ _
             either_ids_1 no_digit_1 E).
  - intros d. unfold entryB. cbn [SectionBEntry.debtor].
    destruct (search debtorRe (m_text m)) as [x|] eqn:E; [|discriminate].
    intros H. inversion H; subst d.
    cbn [OwnerInfo.name OwnerInfo.residentNumber].
    exact (@party_of_match _ _ _ _ (fun id => masked_resident id \/ business_number id) _ _
             either_ids_1 no_digit_2 E).
  - intros g. unfold entryB. cbn [SectionBEntry.mortgagee].
    destruct (search mortgageeRe (m_text m)) as [x|] eqn:E; [|discriminate].
    intros H. inversion H; subst g.
    cbn [CreditorInfo.name CreditorInfo.residentNumber].
    exact (@party_of_match _ _ _ _ (fun id => masked_resident id \/ business_number id) _ _
             either_ids_2 no_digit_2 E).
  - intros l. unfold entryB. cbn [SectionBEntry.lessee].
    destruct (search lesseeRe (m_text m)) as [x|] eqn:E; [|discriminate].
    intros H. inversion H; subst l.
    cbn [LesseeInfo.name LesseeInfo.residentNumber].
    exact (@party_of_match _ _ _ _ masked_resident _ _
             resident_ids no_digit_2 E).
Qed.

Lemma identity_numbers_are_read_masked_witness :
  party_fields masked_resident (u "홍길동") (Some (u "800101-*******")).
Proof.
  apply (proj1 (identity_numbers_are_read_masked transferRow)
           {| OwnerInfo.name := u "홍길동";
              OwnerInfo.residentNumber := Some (u "800101-*******");
              OwnerInfo.address := Some (u "서울특별시 중구 세종대로 1");
              OwnerInfo.share := None |}).
  vm_compute. reflexivity.
Defined.

(** ** C1: which rows become entries *)

Section EmittedRows.















End EmittedRows.

(** A row whose registration type begins with a keyword and goes on is
    emitted under the keyword: in [extendedTypeText] the row
    2 소유권이전청구권가등기 gives an entry of type 소유권이전. *)
Example extended_type_emitted_as_keyword :
  option_map (map (fun e => (SectionAEntry.rankNumber e,
                             SectionAEntry.registrationType e)))
             (parseSectionAEntries extendedTypeText)
    = Some [(u "1", u "소유권보존"); (u "2", u "소유권이전"); (u "3", u "가압류")].
Proof. vm_compute. reflexivity. Qed.

